(** * TextLayoutCache: a shallow embedding of the text layout cache and shaper

    The development follows [core/jni/android/graphics/TextLayoutCache.cpp]:
    the cache key and its ordered comparison, the layout value, the shaper
    ([computeValues], [computeRunValues], [shapeFontRun], [doShaping]) and
    the size-accounted cache ([TextLayoutCache::getValue]).

    External collaborators (ICU, Harfbuzz, Skia, libutils) are not part of
    the sources; they enter the model through the record [Env]. *)

From Stdlib Require Import ZArith List Bool Lia.
From Stdlib Require Import Floats.SpecFloat.
From stdpp Require Import base list gmap sorting.

Local Open Scope Z_scope.

(** ** Machine integers *)

(** [size_t], [uint32_t] and [hb_uint32] arithmetic wraps modulo 2^32. *)
Definition wrap32 (z : Z) : Z := z mod 2 ^ 32.

(** Conversion to (or arithmetic in) a 32-bit [int]. *)
Definition to_int32 (z : Z) : Z := (z + 2 ^ 31) mod 2 ^ 32 - 2 ^ 31.

(** Conversion to a 16-bit [UChar] / [jchar]. *)
Definition to_uint16 (z : Z) : Z := z mod 2 ^ 16.

Definition in_size_t (z : Z) : Prop := 0 <= z < 2 ^ 32.
Definition in_int32 (z : Z) : Prop := - 2 ^ 31 <= z < 2 ^ 31.
Definition in_uint16 (z : Z) : Prop := 0 <= z < 2 ^ 16.

Definition sizeof_UChar : Z := 2.
Definition sizeof_jchar : Z := 2.
Definition sizeof_jfloat : Z := 4.

(** ** Floating point

    [jfloat] and [SkScalar] are single-precision floats.  The model is
    parametric in the float type: the code only adds, multiplies and
    compares floats, and converts Harfbuzz fixed-point values with
    [HBFixedToFloat] (declared in a header that is not part of the
    sources). *)
Class FloatOps (F : Type) := {
  fzero : F;
  fadd : F -> F -> F;
  fmul : F -> F -> F;
  flt : F -> F -> bool;
  fgt : F -> F -> bool;
  HBFixedToFloat : Z -> F
}.

(** Neither operand is smaller than the other: the tie of [<] and [>]. *)
Definition float_tie {F} `{FloatOps F} (a b : F) : Prop :=
  flt a b = false /\ fgt a b = false.

(** ** libutils [Vector]

    A vector is its items together with the capacity of its storage;
    [TextLayoutValue::getSize] reads the capacity. *)
Record Vector (A : Type) := mkVector {
  items : list A;
  capacity : Z
}.
Arguments mkVector {A} _ _.
Arguments items {A} _.
Arguments capacity {A} _.

Definition Vector_size {A} (v : Vector A) : Z := Z.of_nat (length (items v)).

(** ** SkPaint: the style fields read by the cache and the shaper *)
Record SkPaint (F : Type) := mkPaint {
  paint_typeface : Z;      (* SkTypeface*, 0 is NULL *)
  paint_textSize : F;
  paint_textSkewX : F;
  paint_textScaleX : F;
  paint_flags : Z;         (* uint32_t *)
  paint_hinting : Z;       (* SkPaint::Hinting *)
  paint_variant : Z;       (* SkPaint::FontVariant *)
  paint_language : Z       (* SkLanguage, an interned tag *)
}.
Arguments mkPaint {F} _ _ _ _ _ _ _ _.
Arguments paint_typeface {F} _.
Arguments paint_textSize {F} _.
Arguments paint_textSkewX {F} _.
Arguments paint_textScaleX {F} _.
Arguments paint_flags {F} _.
Arguments paint_hinting {F} _.
Arguments paint_variant {F} _.
Arguments paint_language {F} _.

(** ** TextLayoutCacheKey *)
Record TextLayoutCacheKey (F : Type) := mkKey {
  textCopy : list Z;       (* String16: UTF-16 code units *)
  start : Z;               (* size_t *)
  count : Z;               (* size_t *)
  contextCount : Z;        (* size_t *)
  dirFlags : Z;            (* int *)
  typeface : Z;
  textSize : F;
  textSkewX : F;
  textScaleX : F;
  flags : Z;
  hinting : Z;
  variant : Z;
  language : Z
}.
Arguments mkKey {F} _ _ _ _ _ _ _ _ _ _ _ _ _.
Arguments textCopy {F} _.
Arguments start {F} _.
Arguments count {F} _.
Arguments contextCount {F} _.
Arguments dirFlags {F} _.
Arguments typeface {F} _.
Arguments textSize {F} _.
Arguments textSkewX {F} _.
Arguments textScaleX {F} _.
Arguments flags {F} _.
Arguments hinting {F} _.
Arguments variant {F} _.
Arguments language {F} _.

(** The constructor [TextLayoutCacheKey(paint, text, start, count,
    contextCount, dirFlags)]: [textCopy.setTo(text, contextCount)] copies
    [contextCount] code units. *)
Definition TextLayoutCacheKey_new {F} (paint : SkPaint F) (text : list Z)
    (start count contextCount dirFlags : Z) : TextLayoutCacheKey F :=
  {| textCopy := take (Z.to_nat contextCount) text;
     start := start; count := count; contextCount := contextCount;
     dirFlags := dirFlags;
     typeface := paint_typeface paint;
     textSize := paint_textSize paint;
     textSkewX := paint_textSkewX paint;
     textScaleX := paint_textScaleX paint;
     flags := paint_flags paint;
     hinting := paint_hinting paint;
     variant := paint_variant paint;
     language := paint_language paint |}.

(** The paint fields a key remembers. *)
Definition key_paint {F} (k : TextLayoutCacheKey F) : SkPaint F :=
  mkPaint (typeface k) (textSize k) (textSkewX k) (textScaleX k)
          (flags k) (hinting k) (variant k) (language k).

(** The bytes of a code unit in memory (little endian). *)
Definition UChar_bytes (u : Z) : list Z :=
  [Z.land u 255; Z.land (Z.shiftr u 8) 255].

Definition text_bytes (s : list Z) : list Z := flat_map UChar_bytes s.

(** [memcmp(a, b, n)]: the difference of the first differing bytes among
    the first [n]; only its sign is specified by the C library.  Reading
    past the end of a model buffer yields 0. *)
Fixpoint memcmp (a b : list Z) (n : nat) : Z :=
  match n with
  | O => 0
  | S n' =>
      let x := hd 0 a in
      let y := hd 0 b in
      if x =? y then memcmp (tl a) (tl b) n' else x - y
  end.

(** [TextLayoutCacheKey::compare]. *)
Definition compare {F} `{FloatOps F} (lhs rhs : TextLayoutCacheKey F) : Z :=
  let deltaInt := to_int32 (wrap32 (start lhs - start rhs)) in
  if negb (deltaInt =? 0) then deltaInt else
  let deltaInt := to_int32 (wrap32 (count lhs - count rhs)) in
  if negb (deltaInt =? 0) then deltaInt else
  let deltaInt := to_int32 (wrap32 (contextCount lhs - contextCount rhs)) in
  if negb (deltaInt =? 0) then deltaInt else
  if typeface lhs <? typeface rhs then -1 else
  if typeface lhs >? typeface rhs then 1 else
  if flt (textSize lhs) (textSize rhs) then -1 else
  if fgt (textSize lhs) (textSize rhs) then 1 else
  if flt (textSkewX lhs) (textSkewX rhs) then -1 else
  if fgt (textSkewX lhs) (textSkewX rhs) then 1 else
  if flt (textScaleX lhs) (textScaleX rhs) then -1 else
  if fgt (textScaleX lhs) (textScaleX rhs) then 1 else
  let deltaInt := to_int32 (wrap32 (flags lhs - flags rhs)) in
  if negb (deltaInt =? 0) then deltaInt else
  let deltaInt := to_int32 (hinting lhs - hinting rhs) in
  if negb (deltaInt =? 0) then deltaInt else
  let deltaInt := to_int32 (dirFlags lhs - dirFlags rhs) in
  if negb (deltaInt =? 0) then deltaInt else
  let deltaInt := to_int32 (variant lhs - variant rhs) in
  if negb (deltaInt =? 0) then deltaInt else
  if language lhs <? language rhs then -1 else
  if language lhs >? language rhs then 1 else
  memcmp (text_bytes (textCopy lhs)) (text_bytes (textCopy rhs))
         (Z.to_nat (wrap32 (contextCount lhs * sizeof_UChar))).

(** A key as the constructor builds it from arguments of the declared
    types: [size_t] positions, a context that fits a [jint], 16-bit code
    units, [int]-sized enumerations. *)
Record key_wf {F} (k : TextLayoutCacheKey F) : Prop := {
  wf_start : in_size_t (start k);
  wf_count : in_size_t (count k);
  wf_contextCount : 0 <= contextCount k < 2 ^ 31;
  wf_text_length : Z.of_nat (length (textCopy k)) = contextCount k;
  wf_text_units : Forall in_uint16 (textCopy k);
  wf_flags : in_size_t (flags k);
  wf_hinting : in_int32 (hinting k);
  wf_dirFlags : in_int32 (dirFlags k);
  wf_variant : in_int32 (variant k)
}.

(** The tie of the ordered comparison, field by field. *)
Definition key_tie {F} `{FloatOps F} (l r : TextLayoutCacheKey F) : Prop :=
  start l = start r /\ count l = count r /\
  contextCount l = contextCount r /\ typeface l = typeface r /\
  float_tie (textSize l) (textSize r) /\
  float_tie (textSkewX l) (textSkewX r) /\
  float_tie (textScaleX l) (textScaleX r) /\
  flags l = flags r /\ hinting l = hinting r /\ dirFlags l = dirFlags r /\
  variant l = variant r /\ language l = language r /\
  textCopy l = textCopy r.

(** [TextLayoutCacheKey::getSize]; [sizeof_key] is
    [sizeof(TextLayoutCacheKey)]. *)
Definition TextLayoutCacheKey_getSize {F} (sizeof_key : Z)
    (k : TextLayoutCacheKey F) : Z :=
  wrap32 (sizeof_key + wrap32 (sizeof_UChar * contextCount k)).

(** ** TextLayoutValue *)
Record TextLayoutValue (F : Type) := mkValue {
  mAdvances : Vector F;
  mTotalAdvance : F;
  mGlyphs : Vector Z;      (* jchar *)
  mPos : Vector F;
  mElapsedTime : Z;
  value_addr : Z           (* which heap object the sp<TextLayoutValue> points to *)
}.
Arguments mkValue {F} _ _ _ _ _ _.
Arguments mAdvances {F} _.
Arguments mTotalAdvance {F} _.
Arguments mGlyphs {F} _.
Arguments mPos {F} _.
Arguments mElapsedTime {F} _.
Arguments value_addr {F} _.

(** ** Harfbuzz data *)

(** The script tags [isComplexScript] distinguishes; every other tag of
    the Harfbuzz enumeration is [HB_Script_Other]. *)
Inductive HB_Script :=
| HB_Script_Common
| HB_Script_Greek
| HB_Script_Cyrillic
| HB_Script_Hangul
| HB_Script_Inherited
| HB_Script_Other (tag : Z).

Record HB_ScriptItem := mkItem {
  item_pos : Z;
  item_length : Z;         (* hb_uint32 *)
  item_script : HB_Script;
  item_bidiLevel : Z
}.

(** The output side of [HB_ShaperItem]: [num_glyphs] and the contents of
    the glyph arrays.  An array is the list of its written entries;
    entries never written read as 0. *)
Record HB_GlyphArrays := mkArrays {
  num_glyphs : Z;
  glyphs : list Z;
  advances : list Z;       (* HB_Fixed *)
  offsets : list (Z * Z);  (* HB_FixedPoint *)
  log_clusters : list Z    (* unsigned short *)
}.

Definition empty_arrays : HB_GlyphArrays := mkArrays 0 [] [] [] [].

(** What [HB_ShapeItem] is given: the string, the script item, the
    shaping paint (the paint fields with the typeface chosen for the
    run; the font record's ppem and scale are functions of it), the face,
    the capacity of the glyph arrays and the [offsets] array as it stands
    at the call. *)
Record HB_ShapeRequest (F : Type) := mkRequest {
  req_string : list Z;
  req_item : HB_ScriptItem;
  req_paint : SkPaint F;
  req_face : Z;
  req_num_glyphs : Z;
  req_offsets : list (Z * Z)
}.
Arguments mkRequest {F} _ _ _ _ _ _.
Arguments req_string {F} _.
Arguments req_item {F} _.
Arguments req_paint {F} _.
Arguments req_face {F} _.
Arguments req_num_glyphs {F} _.
Arguments req_offsets {F} _.

(** ** ICU bidi *)

(** What the sequence [ubidi_open], [ubidi_setPara], [ubidi_getParaLevel],
    [ubidi_countRuns], [ubidi_getVisualRun] reports.  [visual_run i] is
    (direction, startRun, lengthRun) as left in the caller's variables,
    which the caller presets to -1. *)
Inductive UBiDiOutcome :=
| UBiDi_open_failed
| UBiDi_setPara_failed
| UBiDi_resolved (paraLevel : Z) (countRuns_ok : bool) (rc : Z)
                 (visual_run : Z -> Z * Z * Z).

Definition UBIDI_DEFAULT_LTR : Z := 254.
Definition UBIDI_DEFAULT_RTL : Z := 255.
Definition UBIDI_RTL : Z := 1.
Definition UBLOCK_COMBINING_DIACRITICAL_MARKS : Z := 7.
Definition UNICODE_ZWSP : Z := 8203.
Definition U_ZERO_ERROR : Z := 0.
Definition U_SUCCESS (status : Z) : bool := status <=? U_ZERO_ERROR.

(** Modelled from the spec: the direction flags of section 4.1.1; the
    enumeration is declared in TextLayout.h, which is not part of the
    sources.  Only their being distinct matters. *)
Definition kBidi_LTR : Z := 0.
Definition kBidi_RTL : Z := 1.
Definition kBidi_Default_LTR : Z := 2.
Definition kBidi_Default_RTL : Z := 3.
Definition kBidi_Force_LTR : Z := 4.
Definition kBidi_Force_RTL : Z := 5.
Definition kDirection_Mask : Z := 1.

(** ** The environment: everything the sources call but do not define *)
Record Env (F : Type) := mkEnv {
  (* layout of the objects *)
  sizeof_TextLayoutCacheKey : Z;
  sizeof_TextLayoutValue : Z;
  (* MB(DEFAULT_TEXT_LAYOUT_CACHE_SIZE_IN_MB) *)
  default_max_size : Z;
  (* libutils Vector storage policy: capacity after setCapacity (old
     capacity, size, request), after an add that needs room (old
     capacity, new size), and after clear (old capacity) *)
  vector_reserve : Z -> Z -> Z -> Z;
  vector_grow : Z -> Z -> Z;
  vector_release : Z -> Z;
  (* ICU *)
  ubidi : list Z -> Z -> Z -> UBiDiOutcome;
  ublock_getCode : Z -> Z;
  Normalizer_normalize : list Z -> Z -> list Z * Z;
  u_isMirrored : Z -> bool;
  u_charMirror : Z -> Z;
  (* Harfbuzz: the items hb_utf16_script_run_next / _prev yield until
     they return false, and the shaper *)
  hb_utf16_script_runs : bool -> list Z -> list HB_ScriptItem;
  HB_ShapeItem : HB_ShapeRequest F -> bool * HB_GlyphArrays;
  HB_NewFace : Z -> Z;
  (* Skia *)
  getBaseGlyphCount : SkPaint F -> Z -> Z;
  SkCreateTypefaceForScript : HB_Script -> Z -> Z;
  typeface_style : Z -> Z;
  typeface_uniqueID : Z -> Z;
  SkFontHost_CreateTypeface : Z
}.
Arguments mkEnv {F}.
Arguments sizeof_TextLayoutCacheKey {F} _.
Arguments sizeof_TextLayoutValue {F} _.
Arguments default_max_size {F} _.
Arguments vector_reserve {F} _ _ _ _.
Arguments vector_grow {F} _ _ _.
Arguments vector_release {F} _ _.
Arguments ubidi {F} _ _ _ _.
Arguments ublock_getCode {F} _ _.
Arguments Normalizer_normalize {F} _ _ _.
Arguments u_isMirrored {F} _ _.
Arguments u_charMirror {F} _ _.
Arguments hb_utf16_script_runs {F} _ _ _.
Arguments HB_ShapeItem {F} _ _.
Arguments HB_NewFace {F} _ _.
Arguments getBaseGlyphCount {F} _ _ _.
Arguments SkCreateTypefaceForScript {F} _ _ _.
Arguments typeface_style {F} _ _.
Arguments typeface_uniqueID {F} _ _.
Arguments SkFontHost_CreateTypeface {F} _.

(** ** TextLayoutShaper state *)
Record TextLayoutShaper := mkShaper {
  mShaperItemGlyphArraySize : Z;
  mShaperItem_allocated : bool;     (* the glyph arrays are not NULL *)
  mShaperItem : HB_GlyphArrays;
  mCachedHBFaces : gmap Z Z;        (* KeyedVector<SkFontID, HB_Face> *)
  mDefaultTypeface : Z
}.

(** How a call ends: it returns, it aborts in [LOG_ALWAYS_FATAL_IF], or
    the model's bound on the shaping retries was too small. *)
Inductive Outcome (A : Type) :=
| Returns (a : A)
| Aborts
| OutOfFuel.
Arguments Returns {A} _.
Arguments Aborts {A}.
Arguments OutOfFuel {A}.

(** ** The code *)
Section Model.
Context {F : Type} `{FloatOps F}.
Variable env : Env F.

(** *** Vector operations *)

Definition Vector_new {A} : Vector A := mkVector [] 0.

Definition Vector_setCapacity {A} (v : Vector A) (n : Z) : Vector A :=
  mkVector (items v) (vector_reserve env (capacity v) (Vector_size v) n).

Definition Vector_add {A} (v : Vector A) (x : A) : Vector A :=
  let new_size := Vector_size v + 1 in
  mkVector (items v ++ [x])
           (if capacity v <? new_size
            then vector_grow env (capacity v) new_size else capacity v).

Definition Vector_clear {A} (v : Vector A) : Vector A :=
  mkVector [] (vector_release env (capacity v)).

(** [replaceAt(item, index)] returns BAD_INDEX and stores nothing when
    [index >= size()]. *)
Definition Vector_replaceAt {A} (v : Vector A) (x : A) (index : Z) : Vector A :=
  if (0 <=? index) && (index <? Vector_size v)
  then mkVector (<[Z.to_nat index := x]> (items v)) (capacity v)
  else v.

(** *** TextLayoutValue *)

(** [TextLayoutValue::TextLayoutValue(contextCount)]; [addr] names the
    object [new] returns. *)
Definition TextLayoutValue_new (contextCount addr : Z) : TextLayoutValue F :=
  {| mAdvances := Vector_setCapacity Vector_new contextCount;
     mTotalAdvance := fzero;
     mGlyphs := Vector_setCapacity Vector_new contextCount;
     mPos := Vector_setCapacity Vector_new (wrap32 (contextCount * 2));
     mElapsedTime := 0;
     value_addr := addr |}.

(** [TextLayoutValue::getSize]. *)
Definition TextLayoutValue_getSize (v : TextLayoutValue F) : Z :=
  wrap32 (sizeof_TextLayoutValue env
          + sizeof_jfloat * capacity (mAdvances v)
          + sizeof_jchar * capacity (mGlyphs v)
          + sizeof_jfloat * capacity (mPos v)).

Definition set_advances (v : TextLayoutValue F) (a : Vector F) :=
  mkValue a (mTotalAdvance v) (mGlyphs v) (mPos v) (mElapsedTime v) (value_addr v).
Definition set_totalAdvance (v : TextLayoutValue F) (t : F) :=
  mkValue (mAdvances v) t (mGlyphs v) (mPos v) (mElapsedTime v) (value_addr v).
Definition set_glyphs (v : TextLayoutValue F) (g : Vector Z) :=
  mkValue (mAdvances v) (mTotalAdvance v) g (mPos v) (mElapsedTime v) (value_addr v).
Definition set_pos (v : TextLayoutValue F) (p : Vector F) :=
  mkValue (mAdvances v) (mTotalAdvance v) (mGlyphs v) p (mElapsedTime v) (value_addr v).

(** *** TextLayoutShaper *)

(** [TextLayoutShaper::TextLayoutShaper()]: no glyph arrays yet
    ([memset(&mShaperItem, 0, ...)]), the default typeface created. *)
Definition TextLayoutShaper_new : TextLayoutShaper :=
  {| mShaperItemGlyphArraySize := 0;
     mShaperItem_allocated := false;
     mShaperItem := empty_arrays;
     mCachedHBFaces := ∅;
     mDefaultTypeface := SkFontHost_CreateTypeface env |}.

(** [chars[i]]; reading outside the model buffer yields 0. *)
Definition char_at (chars : list Z) (i : Z) : Z :=
  if i <? 0 then 0 else nth (Z.to_nat i) chars 0.

Definition is_diacritic (ch : Z) : bool :=
  ublock_getCode env ch =? UBLOCK_COMBINING_DIACRITICAL_MARKS.

(** ICU's [UnicodeString::setCharAt] pins the offset into the string. *)
Definition setCharAt (s : list Z) (offset c : Z) : list Z :=
  let len := Z.of_nat (length s) in
  if 0 <? len then
    let o := if offset <? 0 then 0
             else if len <=? offset then len - 1 else offset in
    <[Z.to_nat o := c]> s
  else s.

(** The locals of [computeRunValues] that the two rewriting loops share. *)
Record NormState := mkNorm {
  useNormalizedString : bool;
  mNormalizedString : list Z;
  error : Z
}.

(** [mNormalizedString.setTo(false, chars, count)], done once. *)
Definition ensure_normalized (chars : list Z) (count : Z) (st : NormState)
    : NormState :=
  if useNormalizedString st then st
  else mkNorm true (take (Z.to_nat count) chars) (error st).

(** The inner scan [for (; j >= 0; --j)] from [j = n - 1]: the index of
    the main code point, or [None] when [j] ran below 0. *)
Fixpoint find_main_code_point (chars : list Z) (n : nat) : option Z :=
  match n with
  | O => None
  | S m =>
      if negb (is_diacritic (char_at chars (Z.of_nat m)))
      then Some (Z.of_nat m)
      else find_main_code_point chars m
  end.

(** The body executed once a diacritic at [i] has its main code point at
    [j]: normalise the chunk, store it and pad with ZWSP. *)
Definition normalize_chunk (chars : list Z) (count i j : Z) (st : NormState)
    : NormState :=
  let '(mBuffer, error') :=
    Normalizer_normalize env
      (take (Z.to_nat (i - j + 1)) (drop (Z.to_nat j) chars)) (error st) in
  if U_SUCCESS error' then
    let st1 := ensure_normalized chars count st in
    let len := Z.of_nat (length mBuffer) in
    let s1 := foldl (fun s k => setCharAt s k (char_at mBuffer (k - j)))
                    (mNormalizedString st1) (seqZ j len) in
    let s2 := foldl (fun s k => setCharAt s k UNICODE_ZWSP)
                    s1 (seqZ (j + len) (i - (j + len) + 1)) in
    mkNorm true s2 error'
  else mkNorm (useNormalizedString st) (mNormalizedString st) error'.

(** The loop [for (ssize_t i = count - 1; i >= 0; --i)]; [n] bounds the
    iterations left ([i < n]). *)
Fixpoint normalize_loop (n : nat) (chars : list Z) (count i : Z)
    (st : NormState) : NormState :=
  match n with
  | O => st
  | S n' =>
      if i <? 0 then st
      else if is_diacritic (char_at chars i) then
        match find_main_code_point chars (Z.to_nat i) with
        | None => st
        | Some j =>
            normalize_loop n' chars count (j - 1 - 1)
                           (normalize_chunk chars count i j st)
        end
      else normalize_loop n' chars count (i - 1) st
  end.

(** The mirroring loop of RTL runs. *)
Definition mirror_step (chars : list Z) (count : Z) (st : NormState) (i : Z)
    : NormState :=
  let ch := char_at chars i in
  if negb (u_isMirrored env ch) then st
  else
    let st1 := ensure_normalized chars count st in
    mkNorm true
           (setCharAt (mNormalizedString st1) i (to_uint16 (u_charMirror env ch)))
           (error st1).

(** [mShaperItem.string] as [computeRunValues] sets it.  What
    [mNormalizedString] held from an earlier call is never read: it is
    reset by [setTo] before its first use. *)
Definition shaping_string (chars : list Z) (count : Z) (isRTL : bool)
    : list Z :=
  let st0 := mkNorm false [] U_ZERO_ERROR in
  let st1 := normalize_loop (Z.to_nat count) chars count (count - 1) st0 in
  let st2 := if isRTL
             then foldl (mirror_step chars count) st1 (seqZ 0 count)
             else st1 in
  if useNormalizedString st2 then mNormalizedString st2
  else take (Z.to_nat count) chars.

(** *** Shaping one script run *)

(** [TextLayoutShaper::isComplexScript]. *)
Definition isComplexScript (script : HB_Script) : bool :=
  match script with
  | HB_Script_Common
  | HB_Script_Greek
  | HB_Script_Cyrillic
  | HB_Script_Hangul
  | HB_Script_Inherited => false
  | _ => true
  end.

(** Skia's [SkUTF16_NextUnichar] on the string [s] at offset [o]: the
    code point and the offset after it. *)
Definition SkUTF16_NextUnichar (s : list Z) (o : Z) : Z * Z :=
  let c := char_at s o in
  if Z.land c 64512 =? 55296
  then (Z.shiftl c 10 + char_at s (o + 1)
        + (65536 - Z.shiftl 55296 10 - 56320), o + 2)
  else (c, o + 1).

(** [while (firstUnichar == ' ' && text16 < text16End)]; every round moves
    [text16] forward, so [n] rounds suffice when [n] is the run length. *)
Fixpoint skip_spaces (n : nat) (s : list Z) (firstUnichar text16 text16End : Z)
    : Z :=
  match n with
  | O => firstUnichar
  | S n' =>
      if (firstUnichar =? 32) && (text16 <? text16End)
      then let '(c, o) := SkUTF16_NextUnichar s text16 in
           skip_spaces n' s c o text16End
      else firstUnichar
  end.

(** [TextLayoutShaper::typefaceForScript]. *)
Definition typefaceForScript (typeface : Z) (script : HB_Script) : Z :=
  let currentStyle := if typeface =? 0 then 0 else typeface_style env typeface in
  SkCreateTypefaceForScript env script currentStyle.

(** [TextLayoutShaper::getCachedHBFace]. *)
Definition getCachedHBFace (sh : TextLayoutShaper) (typeface : Z)
    : TextLayoutShaper * Z :=
  let fontId := typeface_uniqueID env typeface in
  match mCachedHBFaces sh !! fontId with
  | Some face => (sh, face)
  | None =>
      let face := HB_NewFace env typeface in
      if negb (face =? 0)
      then (mkShaper (mShaperItemGlyphArraySize sh) (mShaperItem_allocated sh)
                     (mShaperItem sh) (<[fontId := face]> (mCachedHBFaces sh))
                     (mDefaultTypeface sh), face)
      else (sh, face)
  end.

(** [deleteShaperItemGlyphArrays] followed by
    [createShaperItemGlyphArrays(size)]: all five arrays get [size]
    entries. *)
Definition createShaperItemGlyphArrays (sh : TextLayoutShaper) (size : Z)
    : TextLayoutShaper :=
  mkShaper size true (mShaperItem sh) (mCachedHBFaces sh) (mDefaultTypeface sh).

(** What a call leaves in [mShaperItem]. *)
Definition set_shaperItem (sh : TextLayoutShaper) (a : HB_GlyphArrays)
    : TextLayoutShaper :=
  mkShaper (mShaperItemGlyphArraySize sh) (mShaperItem_allocated sh) a
           (mCachedHBFaces sh) (mDefaultTypeface sh).

(** The item handed to [HB_ShapeItem] by [doShaping]: [num_glyphs] is the
    capacity of the arrays and [offsets] has just been zeroed. *)
Definition shape_request (sh : TextLayoutShaper) (string : list Z)
    (item : HB_ScriptItem) (paint : SkPaint F) (face : Z) : HB_ShapeRequest F :=
  let n := mShaperItemGlyphArraySize sh in
  mkRequest string item paint face n (replicate (Z.to_nat n) (0, 0)).

(** The first statement of [doShaping]: the arrays are replaced only by
    larger ones. *)
Definition resize_arrays (sh : TextLayoutShaper) (size : Z) : TextLayoutShaper :=
  if size >? mShaperItemGlyphArraySize sh
  then createShaperItemGlyphArrays sh size else sh.

(** [TextLayoutShaper::doShaping]. *)
Definition doShaping (sh : TextLayoutShaper) (string : list Z)
    (item : HB_ScriptItem) (paint : SkPaint F) (face : Z) (size : Z)
    : TextLayoutShaper * bool :=
  let sh1 := resize_arrays sh size in
  let '(ok, arrays) := HB_ShapeItem env (shape_request sh1 string item paint face) in
  (set_shaperItem sh1 arrays, ok).

(** [while (!doShaping(size)) size = mShaperItem.num_glyphs * 2;] with at
    most [fuel] attempts. *)
Fixpoint shaping_loop (fuel : nat) (sh : TextLayoutShaper) (string : list Z)
    (item : HB_ScriptItem) (paint : SkPaint F) (face : Z) (size : Z)
    : option TextLayoutShaper :=
  match fuel with
  | O => None
  | S fuel' =>
      let '(sh', ok) := doShaping sh string item paint face size in
      if ok then Some sh'
      else shaping_loop fuel' sh' string item paint face
                        (wrap32 (num_glyphs (mShaperItem sh') * 2))
  end.

(** The typeface [shapeFontRun] shapes with, and the glyph base count it
    returns. *)
Definition run_baseGlyphCount (paint : SkPaint F) (string : list Z)
    (item : HB_ScriptItem) : Z :=
  if isComplexScript (item_script item) then
    let text16End := item_pos item + item_length item in
    let '(c, o) := SkUTF16_NextUnichar string (item_pos item) in
    getBaseGlyphCount env paint
      (skip_spaces (Z.to_nat (item_length item)) string c o text16End)
  else 0.

Definition run_typeface (sh : TextLayoutShaper) (paint : SkPaint F)
    (baseGlyphCount : Z) (script : HB_Script) : Z :=
  let typeface := paint_typeface paint in
  if negb (baseGlyphCount =? 0) then
    let typeface := typefaceForScript typeface script in
    if typeface =? 0 then mDefaultTypeface sh else typeface
  else
    if typeface =? 0 then mDefaultTypeface sh else typeface.

(** [mShapingPaint] after [computeRunValues] copied the paint and
    [shapeFontRun] set the typeface. *)
Definition shaping_paint (paint : SkPaint F) (typeface : Z) : SkPaint F :=
  mkPaint typeface (paint_textSize paint) (paint_textSkewX paint)
          (paint_textScaleX paint) (paint_flags paint) (paint_hinting paint)
          (paint_variant paint) (paint_language paint).

(** [TextLayoutShaper::shapeFontRun]: the shaper afterwards and the glyph
    base count. *)
Definition shapeFontRun (fuel : nat) (sh : TextLayoutShaper) (paint : SkPaint F)
    (string : list Z) (item0 : HB_ScriptItem) (isRTL : bool)
    : option (TextLayoutShaper * Z) :=
  let item := mkItem (item_pos item0) (item_length item0) (item_script item0)
                     (if isRTL then 1 else 0) in
  let baseGlyphCount := run_baseGlyphCount paint string item in
  let typeface := run_typeface sh paint baseGlyphCount (item_script item) in
  let '(sh1, face) := getCachedHBFace sh typeface in
  let size := wrap32 (item_length item * 3) / 2 in
  match shaping_loop fuel sh1 string item (shaping_paint paint typeface) face size with
  | Some sh2 => Some (sh2, baseGlyphCount)
  | None => None
  end.

(** [TextLayoutShaper::purgeCaches]: the faces are freed and the default
    typeface is created again; the glyph arrays stay. *)
Definition TextLayoutShaper_purgeCaches (sh : TextLayoutShaper)
    : TextLayoutShaper :=
  mkShaper (mShaperItemGlyphArraySize sh) (mShaperItem_allocated sh)
           (mShaperItem sh) ∅ (SkFontHost_CreateTypeface env).

(** *** computeRunValues *)

Definition log_cluster (a : HB_GlyphArrays) (i : Z) : Z :=
  nth (Z.to_nat i) (log_clusters a) 0.

Definition hb_advance (a : HB_GlyphArrays) (j : Z) : Z :=
  nth (Z.to_nat j) (advances a) 0.

(** [for (size_t j = cluster; j < clusterNext; j++) advance += ...]. *)
Definition cluster_advance (a : HB_GlyphArrays) (cluster clusterNext : Z) : F :=
  foldl (fun advance j => fadd advance (HBFixedToFloat (hb_advance a j)))
        fzero (seqZ cluster (clusterNext - cluster)).

(** One round of the loop over the characters of a script run; the state
    is [totalFontRunAdvance], [clusterStart] and [outAdvances]. *)
Definition cluster_step (a : HB_GlyphArrays) (startScriptRun countScriptRun : Z)
    (st : F * Z * Vector F) (i : Z) : F * Z * Vector F :=
  let '(totalFontRunAdvance, clusterStart, outAdvances) := st in
  let cluster := log_cluster a i in
  let clusterNext := if i =? wrap32 (countScriptRun - 1)
                     then num_glyphs a else log_cluster a (i + 1) in
  if negb (cluster =? clusterNext) then
    let advance := cluster_advance a cluster clusterNext in
    (fadd totalFontRunAdvance advance, i + 1,
     Vector_replaceAt outAdvances advance (wrap32 (startScriptRun + clusterStart)))
  else st.

Definition glyph_index (isRTL : bool) (countGlyphs i : Z) : Z :=
  if negb isRTL then i else countGlyphs - 1 - i.

(** The glyph loop. *)
Definition emit_glyphs (a : HB_GlyphArrays) (isRTL : bool) (glyphBaseCount : Z)
    (outGlyphs : Vector Z) : Vector Z :=
  let countGlyphs := num_glyphs a in
  foldl (fun g i =>
           Vector_add g
             (to_uint16 (glyphBaseCount
                + to_uint16 (nth (Z.to_nat (glyph_index isRTL countGlyphs i))
                                 (glyphs a) 0))))
        outGlyphs (seqZ 0 countGlyphs).

(** The position loop; the state is [x] and [outPos]. *)
Definition emit_positions (a : HB_GlyphArrays) (isRTL : bool) (skewX : F)
    (totalAdvance : F) (outPos : Vector F) : Vector F :=
  let countGlyphs := num_glyphs a in
  snd (foldl (fun (st : F * Vector F) i =>
           let '(x, p) := st in
           let index := glyph_index isRTL countGlyphs i in
           let o := nth (Z.to_nat index) (offsets a) (0, 0) in
           let xo := HBFixedToFloat (fst o) in
           let yo := HBFixedToFloat (snd o) in
           (fadd x (HBFixedToFloat (hb_advance a index)),
            Vector_add (Vector_add p (fadd (fadd x xo) (fmul yo skewX))) yo))
        (totalAdvance, outPos) (seqZ 0 countGlyphs)).

(** The body of the script-run loop after [shapeFontRun] returned: the
    local [totalAdvance] and the outputs afterwards. *)
Definition script_run_body (sh : TextLayoutShaper) (glyphBaseCount : Z)
    (item : HB_ScriptItem) (isRTL : bool) (skewX : F)
    (totalAdvance : F) (v : TextLayoutValue F) : F * TextLayoutValue F :=
  let a := mShaperItem sh in
  if negb (mShaperItem_allocated sh) || (num_glyphs a =? 0) then (totalAdvance, v)
  else
    let startScriptRun := item_pos item in
    let countScriptRun := item_length item in
    let '(totalFontRunAdvance, _, outAdvances) :=
      foldl (cluster_step a startScriptRun countScriptRun)
            (fzero, 0, mAdvances v) (seqZ 0 countScriptRun) in
    let outGlyphs := emit_glyphs a isRTL glyphBaseCount (mGlyphs v) in
    let outPos := emit_positions a isRTL skewX totalAdvance (mPos v) in
    (fadd totalAdvance totalFontRunAdvance,
     set_pos (set_glyphs (set_advances v outAdvances) outGlyphs) outPos).

(** The loop over the script runs of one bidi run. *)
Fixpoint script_runs_loop (fuel : nat) (runs : list HB_ScriptItem)
    (sh : TextLayoutShaper) (paint : SkPaint F) (string : list Z)
    (isRTL : bool) (totalAdvance : F) (v : TextLayoutValue F)
    : option (TextLayoutShaper * F * TextLayoutValue F) :=
  match runs with
  | [] => Some (sh, totalAdvance, v)
  | item :: rest =>
      match shapeFontRun fuel sh paint string item isRTL with
      | None => None
      | Some (sh', glyphBaseCount) =>
          let '(totalAdvance', v') :=
            script_run_body sh' glyphBaseCount item isRTL
                            (paint_textSkewX paint) totalAdvance v in
          script_runs_loop fuel rest sh' paint string isRTL totalAdvance' v'
      end
  end.

(** [TextLayoutShaper::computeRunValues]; [chars] is the buffer from the
    run's first character on. *)
Definition computeRunValues (fuel : nat) (sh : TextLayoutShaper)
    (paint : SkPaint F) (chars : list Z) (count : Z) (isRTL : bool)
    (v : TextLayoutValue F) : option (TextLayoutShaper * TextLayoutValue F) :=
  if count =? 0 then Some (sh, v)
  else
    let v1 := set_advances v
                (foldl (fun a _ => Vector_add a fzero) (mAdvances v) (seqZ 0 count)) in
    let string := shaping_string chars count isRTL in
    let runs := hb_utf16_script_runs env isRTL string in
    match script_runs_loop fuel runs sh paint string isRTL (mTotalAdvance v1) v1 with
    | Some (sh', totalAdvance, v2) => Some (sh', set_totalAdvance v2 totalAdvance)
    | None => None
    end.

(** *** computeValues *)

(** The [switch (dirFlags)]: [bidiReq], [forceLTR], [forceRTL]. *)
Definition bidi_request (dirFlags : Z) : Z * bool * bool :=
  if dirFlags =? kBidi_LTR then (0, false, false)
  else if dirFlags =? kBidi_RTL then (1, false, false)
  else if dirFlags =? kBidi_Default_LTR then (UBIDI_DEFAULT_LTR, false, false)
  else if dirFlags =? kBidi_Default_RTL then (UBIDI_DEFAULT_RTL, false, false)
  else if dirFlags =? kBidi_Force_LTR then (0, true, false)
  else if dirFlags =? kBidi_Force_RTL then (0, false, true)
  else (0, false, false).

(** The expression [(bidiReq = 1) || (bidiReq = UBIDI_DEFAULT_RTL)] of the
    two fallback branches.  Each operand is an assignment whose value is
    the value assigned; the right operand is evaluated only when the left
    one is zero. *)
Definition fallback_isRTL (bidiReq : Z) : bool :=
  let bidiReq := 1 in
  if negb (bidiReq =? 0) then true
  else
    let bidiReq := UBIDI_DEFAULT_RTL in
    negb (bidiReq =? 0).

(** What the claim of the requested direction asks of that expression. *)
Definition requested_RTL (bidiReq : Z) : bool :=
  (bidiReq =? 1) || (bidiReq =? UBIDI_DEFAULT_RTL).

Definition clear_outputs (v : TextLayoutValue F) : TextLayoutValue F :=
  mkValue (Vector_clear (mAdvances v)) fzero (Vector_clear (mGlyphs v))
          (Vector_clear (mPos v)) (mElapsedTime v) (value_addr v).

(** The loop over the visual runs.  The result carries the direction of
    the single run to shape afterwards when the loop left through
    [break]. *)
Fixpoint visual_runs_loop (fuel : nat) (indices : list Z)
    (visual_run : Z -> Z * Z * Z) (paraDir : Z)
    (sh : TextLayoutShaper) (paint : SkPaint F) (chars : list Z)
    (start end_ : Z) (v : TextLayoutValue F)
    : option (TextLayoutShaper * TextLayoutValue F * option bool) :=
  match indices with
  | [] => Some (sh, v, None)
  | i :: rest =>
      let '(runDir, startRun, lengthRun) := visual_run i in
      if (startRun =? -1) || (lengthRun =? -1) then
        Some (sh, clear_outputs v, Some (paraDir =? 1))
      else if startRun >=? end_ then
        visual_runs_loop fuel rest visual_run paraDir sh paint chars start end_ v
      else
        let endRun := to_int32 (startRun + lengthRun) in
        if endRun <=? to_int32 start then
          visual_runs_loop fuel rest visual_run paraDir sh paint chars start end_ v
        else
          let startRun := if startRun <? to_int32 start
                          then to_int32 start else startRun in
          let endRun := if endRun >? end_ then end_ else endRun in
          let lengthRun := to_int32 (endRun - startRun) in
          let isRTL := runDir =? UBIDI_RTL in
          match computeRunValues fuel sh paint (drop (Z.to_nat startRun) chars)
                                 (wrap32 lengthRun) isRTL v with
          | None => None
          | Some (sh', v') =>
              visual_runs_loop fuel rest visual_run paraDir sh' paint chars
                               start end_ v'
          end
  end.

(** [TextLayoutShaper::computeValues]. *)
Definition computeValues (fuel : nat) (sh : TextLayoutShaper)
    (paint : SkPaint F) (chars : list Z) (start count contextCount dirFlags : Z)
    (value : TextLayoutValue F)
    : option (TextLayoutShaper * TextLayoutValue F) :=
  let v := set_totalAdvance value fzero in
  if count =? 0 then Some (sh, v)
  else
    let '(bidiReq, forceLTR, forceRTL) := bidi_request dirFlags in
    let single_run (isRTL : bool) sh v :=
      computeRunValues fuel sh paint (drop (Z.to_nat start) chars) count isRTL v in
    if forceLTR || forceRTL then single_run forceRTL sh v
    else
      match ubidi env chars contextCount bidiReq with
      | UBiDi_open_failed => single_run (fallback_isRTL bidiReq) sh v
      | UBiDi_setPara_failed => single_run (fallback_isRTL bidiReq) sh v
      | UBiDi_resolved paraLevel countRuns_ok rc visual_run =>
          let paraDir := Z.land paraLevel kDirection_Mask in
          if countRuns_ok && (rc =? 1) then single_run (paraDir =? 1) sh v
          else if negb countRuns_ok || (rc <? 1) then single_run (paraDir =? 1) sh v
          else
            let end_ := to_int32 (start + count) in
            match visual_runs_loop fuel (seqZ 0 rc) visual_run paraDir
                                   sh paint chars start end_ v with
            | None => None
            | Some (sh', v', Some isRTL) => single_run isRTL sh' v'
            | Some (sh', v', None) => Some (sh', v')
            end
      end.

(** *** The cache *)

Local Abbreviation Entry := (TextLayoutCacheKey F * TextLayoutValue F)%type.

(** [mShaper] is the shaper the cache points to; [mCache] lists the
    entries from the oldest to the youngest; [heap_next] names the next
    object [new] will return. *)
Record TextLayoutCache := mkCache {
  mShaper : TextLayoutShaper;
  mCache : list Entry;
  mSize : Z;               (* size_t *)
  mMaxSize : Z;            (* size_t *)
  heap_next : Z
}.

(** [TextLayoutCache::TextLayoutCache(shaper)]. *)
Definition TextLayoutCache_new (shaper : TextLayoutShaper) : TextLayoutCache :=
  mkCache shaper [] 0 (default_max_size env) 0.

Definition key_getSize (k : TextLayoutCacheKey F) : Z :=
  TextLayoutCacheKey_getSize (sizeof_TextLayoutCacheKey env) k.

(** [text.getSize() + desc->getSize()], as the removal callback and
    [getValue] compute it. *)
Definition entry_size (e : Entry) : Z :=
  wrap32 (key_getSize (fst e) + TextLayoutValue_getSize (snd e)).

(** Modelled from the spec: GenerationCache (utils/GenerationCache.h) is
    not part of the sources.  Per section 4.2.3 it keeps the entries in
    recency order, refreshed on a hit, and finds an entry by the tie of
    [compare].  [GenerationCache_find] splits the entry found off the
    list. *)
Fixpoint GenerationCache_find (entries : list Entry) (key : TextLayoutCacheKey F)
    : option (Entry * list Entry) :=
  match entries with
  | [] => None
  | e :: rest =>
      if compare (fst e) key =? 0 then Some (e, rest)
      else match GenerationCache_find rest key with
           | Some (e', rest') => Some (e', e :: rest')
           | None => None
           end
  end.

(** Modelled from the spec: [GenerationCache::get] returns the value of
    the entry found and makes it the youngest, or returns NULL. *)
Definition GenerationCache_get (entries : list Entry) (key : TextLayoutCacheKey F)
    : option (TextLayoutValue F * list Entry) :=
  match GenerationCache_find entries key with
  | Some (e, rest) => Some (snd e, rest ++ [e])
  | None => None
  end.

(** Modelled from the spec: [GenerationCache::put] (capacity unlimited)
    refuses a key that is present and otherwise adds the entry as the
    youngest. *)
Definition GenerationCache_put (entries : list Entry) (key : TextLayoutCacheKey F)
    (value : TextLayoutValue F) : option (list Entry) :=
  match GenerationCache_find entries key with
  | Some _ => None
  | None => Some (entries ++ [(key, value)])
  end.

(** The removal callback [TextLayoutCache::operator()]: the new
    [mSize]. *)
Definition on_entry_removed (mSize : Z) (e : Entry) : Z :=
  wrap32 (mSize - entry_size e).

(** [while (mSize + size > mMaxSize)] around [mCache.removeOldest()],
    which invokes the callback on the oldest entry.  [None] is the
    fatal check: nothing was left to remove. *)
Fixpoint make_room (entries : list Entry) (mSize size mMaxSize : Z)
    : option (list Entry * Z) :=
  if wrap32 (mSize + size) >? mMaxSize then
    match entries with
    | [] => None
    | e :: rest => make_room rest (on_entry_removed mSize e) size mMaxSize
    end
  else Some (entries, mSize).

(** [TextLayoutCache::getValue].  The debug instrumentation (timestamps,
    hit statistics, logs) is left out. *)
Definition getValue (fuel : nat) (c : TextLayoutCache) (paint : SkPaint F)
    (text : list Z) (start count contextCount dirFlags : Z)
    : Outcome (TextLayoutCache * option (TextLayoutValue F)) :=
  let key := TextLayoutCacheKey_new paint text (wrap32 start) (wrap32 count)
                                    (wrap32 contextCount) dirFlags in
  match GenerationCache_get (mCache c) key with
  | Some (value, entries) =>
      Returns (mkCache (mShaper c) entries (mSize c) (mMaxSize c) (heap_next c),
               Some value)
  | None =>
      let value := TextLayoutValue_new (wrap32 contextCount) (heap_next c) in
      match computeValues fuel (mShaper c) paint (textCopy key)
                          (wrap32 start) (wrap32 count) (wrap32 contextCount)
                          dirFlags value with
      | None => OutOfFuel
      | Some (shaper, value) =>
          let size := wrap32 (key_getSize key + TextLayoutValue_getSize value) in
          if size <=? mMaxSize c then
            match make_room (mCache c) (mSize c) size (mMaxSize c) with
            | None => Aborts
            | Some (entries, mSize1) =>
                let mSize2 := wrap32 (mSize1 + size) in
                match GenerationCache_put entries key value with
                | None => Aborts
                | Some entries' =>
                    Returns (mkCache shaper entries' mSize2 (mMaxSize c)
                                     (heap_next c + 1), Some value)
                end
            end
          else
            Returns (mkCache shaper (mCache c) (mSize c) (mMaxSize c)
                             (heap_next c + 1), Some value)
      end
  end.

(** [TextLayoutCache::purgeCaches]: [mCache.clear()] invokes the removal
    callback on every entry. *)
Definition purgeCaches (c : TextLayoutCache) : TextLayoutCache :=
  mkCache (TextLayoutShaper_purgeCaches (mShaper c)) []
          (foldl on_entry_removed (mSize c) (mCache c)) (mMaxSize c)
          (heap_next c).

(** The sum of the entry sizes. *)
Definition total_size (entries : list Entry) : Z :=
  foldr (fun e s => entry_size e + s) 0 entries.

(** *** Statistics *)

(** The integers [TextLayoutCache::dumpCacheStats] logs: the number of
    entries, [mMaxSize], [mSize], the bytes counted entry by entry and
    the space left, [mMaxSize - mSize].  The two figures it derives in
    floating point (the percentage left, the running time) are left out.
    The entries are visited in the order of the model's list; the sum
    does not depend on it. *)
Record CacheStats := mkStats {
  stats_entries : Z;
  stats_max_size : Z;
  stats_used : Z;
  stats_bytes : Z;
  stats_remaining : Z
}.

Definition dumpCacheStats (c : TextLayoutCache) : CacheStats :=
  let bytes :=
    foldl (fun bytes e =>
             wrap32 (bytes + wrap32 (key_getSize (fst e)
                                     + TextLayoutValue_getSize (snd e))))
          0 (mCache c) in
  mkStats (Z.of_nat (length (mCache c))) (mMaxSize c) (mSize c) bytes
          (wrap32 (mMaxSize c - mSize c)).

(** *** TextLayoutEngine *)

(** The engine owns the shaper and, when [USE_TEXT_LAYOUT_CACHE] is set,
    the cache built on it, whose [mShaper] is that shaper.  Without the
    cache the engine is its shaper; [next] names the object the next
    [new] returns. *)
Inductive TextLayoutEngine :=
| Engine_cached (mTextLayoutCache : TextLayoutCache)
| Engine_uncached (shaper : TextLayoutShaper) (next : Z).

(** [TextLayoutEngine::TextLayoutEngine()]. *)
Definition TextLayoutEngine_new (USE_TEXT_LAYOUT_CACHE : bool)
    : TextLayoutEngine :=
  let shaper := TextLayoutShaper_new in
  if USE_TEXT_LAYOUT_CACHE then Engine_cached (TextLayoutCache_new shaper)
  else Engine_uncached shaper 0.

(** [TextLayoutEngine::getValue]: the cache's [getValue], or a value made
    with [new TextLayoutValue(count)] and computed on the caller's
    buffer. *)
Definition TextLayoutEngine_getValue (fuel : nat) (e : TextLayoutEngine)
    (paint : SkPaint F) (text : list Z) (start count contextCount dirFlags : Z)
    : Outcome (TextLayoutEngine * option (TextLayoutValue F)) :=
  match e with
  | Engine_cached c =>
      match getValue fuel c paint text start count contextCount dirFlags with
      | Returns (c', value) => Returns (Engine_cached c', value)
      | Aborts => Aborts
      | OutOfFuel => OutOfFuel
      end
  | Engine_uncached shaper next =>
      let value := TextLayoutValue_new (wrap32 count) next in
      match computeValues fuel shaper paint text (wrap32 start) (wrap32 count)
                          (wrap32 contextCount) dirFlags value with
      | None => OutOfFuel
      | Some (shaper', value) =>
          Returns (Engine_uncached shaper' (next + 1), Some value)
      end
  end.

(** [TextLayoutEngine::purgeCaches]: nothing without the cache. *)
Definition TextLayoutEngine_purgeCaches (e : TextLayoutEngine)
    : TextLayoutEngine :=
  match e with
  | Engine_cached c => Engine_cached (purgeCaches c)
  | Engine_uncached _ _ => e
  end.

End Model.

(** ** Instances of the environment *)

(** IEEE 754 single precision: comparisons are ordered comparisons, false
    whenever an operand is NaN; fixed-point advances are 16.16. *)
Definition SFgtb (a b : spec_float) : bool :=
  match SFcompare a b with
  | Some Gt => true
  | _ => false
  end.

#[export] Instance ieee_single : FloatOps spec_float := {
  fzero := S754_zero false;
  fadd := SFadd 24 128;
  fmul := SFmul 24 128;
  flt := SFltb;
  fgt := SFgtb;
  HBFixedToFloat := fun v => binary_normalize 24 128 v (-16) false
}.

(** Exact arithmetic on fixed-point numbers: a float is the integer number
    of fixed-point units it stands for. *)
#[export] Instance exact_fixed : FloatOps Z := {
  fzero := 0;
  fadd := Z.add;
  fmul := Z.mul;
  flt := Z.ltb;
  fgt := Z.gtb;
  HBFixedToFloat := fun v => v
}.

(** A small environment to run the model on: every character is one
    glyph of advance 65536 (1.0 in 16.16) in a single Common-script run,
    the glyph arrays must hold one entry per character, and libutils'
    storage policy. *)
Definition sample_shape {F} (r : HB_ShapeRequest F) : bool * HB_GlyphArrays :=
  let item := req_item r in
  let n := item_length item in
  let run := take (Z.to_nat n) (drop (Z.to_nat (item_pos item)) (req_string r)) in
  if (req_num_glyphs r <? n) && (0 <? n) && (n <? 2 ^ 31)
  then (false, mkArrays n [] [] [] [])
  else (true, mkArrays n run (replicate (Z.to_nat n) 65536)
                       (replicate (Z.to_nat n) (0, 0)) (seqZ 0 n)).

Definition sample_script_runs (isRTL : bool) (s : list Z) : list HB_ScriptItem :=
  match s with
  | [] => []
  | _ => [mkItem 0 (Z.of_nat (length s)) HB_Script_Common 0]
  end.

Definition sample_env {F} (max_size : Z)
    (bidi : list Z -> Z -> Z -> UBiDiOutcome) : Env F :=
  {| sizeof_TextLayoutCacheKey := 64;
     sizeof_TextLayoutValue := 64;
     default_max_size := max_size;
     vector_reserve := fun cap size n => if n - size <=? 0 then cap else n;
     vector_grow := fun cap new_size => Z.max 4 ((new_size * 3 + 1) / 2);
     vector_release := fun cap => 0;
     ubidi := bidi;
     ublock_getCode := fun ch => if (768 <=? ch) && (ch <=? 879) then 7 else 1;
     Normalizer_normalize := fun s e => (s, e);
     u_isMirrored := fun ch => (ch =? 40) || (ch =? 41);
     u_charMirror := fun ch => if ch =? 40 then 41 else if ch =? 41 then 40 else ch;
     hb_utf16_script_runs := sample_script_runs;
     HB_ShapeItem := sample_shape;
     HB_NewFace := fun t => t + 1000;
     getBaseGlyphCount := fun _ _ => 0;
     SkCreateTypefaceForScript := fun _ _ => 0;
     typeface_style := fun _ => 0;
     typeface_uniqueID := fun t => t;
     SkFontHost_CreateTypeface := 1 |}.

(** Bidi outcomes to run with: [ubidi_open] fails; the first character
    and the rest of the context are two left-to-right runs. *)
Definition bidi_unavailable (chars : list Z) (contextCount bidiReq : Z)
    : UBiDiOutcome := UBiDi_open_failed.

Definition bidi_two_runs (chars : list Z) (contextCount bidiReq : Z)
    : UBiDiOutcome :=
  if 2 <=? contextCount
  then UBiDi_resolved 0 true 2
         (fun i => if i =? 0 then (0, 0, 1) else (0, 1, contextCount - 1))
  else UBiDi_resolved 0 true 1 (fun _ => (0, 0, contextCount)).

Definition sample_paint {F} `{FloatOps F} : SkPaint F :=
  mkPaint 0 fzero fzero fzero 0 0 0 0.

(** Environments and states to run on. *)
Definition run_env : Env Z := sample_env 1000 bidi_two_runs.
Definition fallback_env : Env Z := sample_env 1000 bidi_unavailable.
Definition tight_env : Env Z := sample_env 100 bidi_unavailable.
Definition ieee_env : Env spec_float := sample_env 1000 bidi_two_runs.

Definition run_cache : TextLayoutCache :=
  TextLayoutCache_new run_env (TextLayoutShaper_new run_env).
Definition fallback_cache : TextLayoutCache :=
  TextLayoutCache_new fallback_env (TextLayoutShaper_new fallback_env).
Definition tight_cache : TextLayoutCache :=
  TextLayoutCache_new tight_env (TextLayoutShaper_new tight_env).
Definition ieee_cache : TextLayoutCache :=
  TextLayoutCache_new ieee_env (TextLayoutShaper_new ieee_env).

(** The cache and the value after a first call on the text "abc". *)
Definition run_cache_abc : TextLayoutCache :=
  match getValue run_env 2 run_cache sample_paint [97; 98; 99] 0 3 3 kBidi_LTR with
  | Returns (c, _) => c
  | _ => run_cache
  end.

Definition run_value_abc : TextLayoutValue Z :=
  match getValue run_env 2 run_cache sample_paint [97; 98; 99] 0 3 3 kBidi_LTR with
  | Returns (_, Some v) => v
  | _ => TextLayoutValue_new run_env 0 0
  end.

(** The value of the same request computed again after a purge, from a
    longer buffer with the same three context units. *)
Definition run_value_again : TextLayoutValue Z :=
  match getValue run_env 2 (purgeCaches run_env run_cache_abc) sample_paint
                 [97; 98; 99; 100] 0 3 3 kBidi_LTR with
  | Returns (_, Some v) => v
  | _ => TextLayoutValue_new run_env 0 0
  end.

(** The shaper after shaping a run of six characters. *)
Definition shaper_after_six : TextLayoutShaper :=
  match shapeFontRun fallback_env 2 (TextLayoutShaper_new fallback_env)
                     sample_paint [97; 98; 99; 100; 101; 102]
                     (mkItem 0 6 HB_Script_Common 0) false with
  | Some (sh, _) => sh
  | None => TextLayoutShaper_new fallback_env
  end.

(** Single-precision constants. *)
Definition ieee_one : spec_float := S754_finite false 8388608 (-23).
Definition ieee_two : spec_float := S754_finite false 8388608 (-22).

(** Two keys for the one-character text "a" that differ in [textScaleX]
    only: NaN in the one, 1.0 in the other. *)
Definition scaled_key (scaleX : spec_float) : TextLayoutCacheKey spec_float :=
  TextLayoutCacheKey_new (mkPaint 0 ieee_one (S754_zero false) scaleX 0 0 0 0)
                         [97] 0 1 1 kBidi_LTR.

(** The sample environment with a normaliser that composes "a" and a
    combining acute accent into one code unit. *)
Definition compose_env : Env Z :=
  {| sizeof_TextLayoutCacheKey := sizeof_TextLayoutCacheKey run_env;
     sizeof_TextLayoutValue := sizeof_TextLayoutValue run_env;
     default_max_size := default_max_size run_env;
     vector_reserve := vector_reserve run_env;
     vector_grow := vector_grow run_env;
     vector_release := vector_release run_env;
     ubidi := ubidi run_env;
     ublock_getCode := ublock_getCode run_env;
     Normalizer_normalize :=
       fun s e => match s with
                  | [97; 769] => ([225], e)
                  | _ => (s, e)
                  end;
     u_isMirrored := u_isMirrored run_env;
     u_charMirror := u_charMirror run_env;
     hb_utf16_script_runs := hb_utf16_script_runs run_env;
     HB_ShapeItem := HB_ShapeItem run_env;
     HB_NewFace := HB_NewFace run_env;
     getBaseGlyphCount := fun _ ch => ch;
     SkCreateTypefaceForScript := SkCreateTypefaceForScript run_env;
     typeface_style := typeface_style run_env;
     typeface_uniqueID := typeface_uniqueID run_env;
     SkFontHost_CreateTypeface := SkFontHost_CreateTypeface run_env |}.

(** The cache after a second request, for "de". *)
Definition run_cache_two : TextLayoutCache :=
  match getValue run_env 2 run_cache_abc sample_paint [100; 101] 0 2 2 kBidi_LTR with
  | Returns (c, _) => c
  | _ => run_cache_abc
  end.

Definition run_entry (i : nat) : TextLayoutCacheKey Z * TextLayoutValue Z :=
  nth i (mCache run_cache_two)
      (TextLayoutCacheKey_new sample_paint [] 0 0 0 0, TextLayoutValue_new run_env 0 0).


(** ICU resolves two runs and fails to report the second. *)
Definition bidi_broken (chars : list Z) (contextCount bidiReq : Z)
    : UBiDiOutcome :=
  UBiDi_resolved 0 true 2 (fun i => if i =? 0 then (0, 0, 1) else (0, -1, -1)).

Definition broken_env : Env Z := sample_env 1000 bidi_broken.

(** The sample environment with a normaliser that fails. *)
Definition failing_env : Env Z :=
  {| sizeof_TextLayoutCacheKey := sizeof_TextLayoutCacheKey run_env;
     sizeof_TextLayoutValue := sizeof_TextLayoutValue run_env;
     default_max_size := default_max_size run_env;
     vector_reserve := vector_reserve run_env;
     vector_grow := vector_grow run_env;
     vector_release := vector_release run_env;
     ubidi := ubidi run_env;
     ublock_getCode := ublock_getCode run_env;
     Normalizer_normalize := fun s e => ([], if U_SUCCESS e then 7 else e);
     u_isMirrored := u_isMirrored run_env;
     u_charMirror := u_charMirror run_env;
     hb_utf16_script_runs := hb_utf16_script_runs run_env;
     HB_ShapeItem := HB_ShapeItem run_env;
     HB_NewFace := HB_NewFace run_env;
     getBaseGlyphCount := getBaseGlyphCount run_env;
     SkCreateTypefaceForScript := SkCreateTypefaceForScript run_env;
     typeface_style := typeface_style run_env;
     typeface_uniqueID := typeface_uniqueID run_env;
     SkFontHost_CreateTypeface := SkFontHost_CreateTypeface run_env |}.

(** A paint whose [textSkewX] is NaN, and the cache after a call with it
    on the one-character text "a": the key it caches ties with the key
    of the same call made with [sample_paint]. *)
Definition nan_skew_paint : SkPaint spec_float :=
  mkPaint 0 (S754_zero false) S754_nan (S754_zero false) 0 0 0 0.

Definition ieee_cache_nan : TextLayoutCache :=
  match getValue ieee_env 2 ieee_cache nan_skew_paint [97] 0 1 1 kBidi_LTR with
  | Returns (c, _) => c
  | _ => ieee_cache
  end.

(** ** Contracts of the collaborators and invariants of the cache *)

(** Ordered comparison of floats: [>] is [<] with the operands swapped
    and nothing is smaller than itself.  NaN operands satisfy both. *)
Class FloatOrder (F : Type) `{FloatOps F} := {
  fgt_flt : forall a b : F, fgt a b = flt b a;
  flt_irrefl : forall a : F, flt a a = false
}.

(** Two IEEE floats that [<] and [>] do not separate: they are equal as
    numbers, or one of them is NaN. *)
Definition unordered_or_equal (a b : spec_float) : Prop :=
  SFcompare a b = Some Eq \/ SFcompare a b = None.

(** The sum of a list of floats. *)
Definition fsum {F} `{FloatOps F} (l : list F) : F := foldr fadd fzero l.

(** The sum of [f] over a list of indices. *)
Definition sumZ (f : Z -> Z) (l : list Z) : Z := foldr (fun i s => f i + s) 0 l.

(** The request [r] with another capacity and [offsets] array. *)
Definition with_capacity {F} (r : HB_ShapeRequest F) (n : Z)
    (offs : list (Z * Z)) : HB_ShapeRequest F :=
  mkRequest (req_string r) (req_item r) (req_paint r) (req_face r) n offs.

(** The shaper-library contract: [HB_ShapeItem] fails only for want of
    capacity, then reports in [num_glyphs] the capacity it needs, and
    succeeds whenever it is given that much. *)
Definition shaper_contract {F} (env : Env F) : Prop :=
  forall r : HB_ShapeRequest F,
    fst (HB_ShapeItem env r) = false ->
    let required := num_glyphs (snd (HB_ShapeItem env r)) in
    req_num_glyphs r < required /\ 0 < required < 2 ^ 31 /\
    forall n offs, required <= n ->
      fst (HB_ShapeItem env (with_capacity r n offs)) = true.

(** The array sizes after the first attempt of [doShaping], and the
    request an attempt on arrays of [n] entries makes. *)
Definition first_capacity (sh : TextLayoutShaper) (size : Z) : Z :=
  Z.max (mShaperItemGlyphArraySize sh) size.

Definition attempt {F} (string : list Z) (item : HB_ScriptItem)
    (paint : SkPaint F) (face : Z) (n : Z) : HB_ShapeRequest F :=
  mkRequest string item paint face n (replicate (Z.to_nat n) (0, 0)).

(** Does the visual run hold the position [p]? *)
Definition run_covers (run : Z * Z * Z) (p : Z) : bool :=
  let '(_, startRun, lengthRun) := run in
  (startRun <=? p) && (p <? startRun + lengthRun).

(** The visual runs tile the context: each is a non-empty range of it
    and every position lies in exactly one. *)
Definition visual_runs_tile (visual_run : Z -> Z * Z * Z) (rc contextCount : Z)
    : Prop :=
  (forall i, 0 <= i < rc ->
     0 <= snd (fst (visual_run i)) /\ 0 < snd (visual_run i) /\
     snd (fst (visual_run i)) + snd (visual_run i) <= contextCount) /\
  (forall p, 0 <= p < contextCount ->
     length (filter (fun i => run_covers (visual_run i) p) (seqZ 0 rc)) = 1%nat).

(** The bidi contract: when ICU reports several runs, they tile the
    context it was given. *)
Definition bidi_contract {F} (env : Env F) : Prop :=
  forall chars contextCount bidiReq,
    match ubidi env chars contextCount bidiReq with
    | UBiDi_resolved _ _ rc visual_run =>
        2 <= rc -> visual_runs_tile visual_run rc contextCount
    | _ => True
    end.

(** The script-run contract: the script items are non-empty, pairwise
    disjoint ranges of the string. *)
Fixpoint script_runs_disjoint (runs : list HB_ScriptItem) : Prop :=
  match runs with
  | [] => True
  | item :: rest =>
      Forall (fun item' =>
                item_pos item + item_length item <= item_pos item'
                \/ item_pos item' + item_length item' <= item_pos item) rest
      /\ script_runs_disjoint rest
  end.

Definition script_runs_within (runs : list HB_ScriptItem) (len : Z) : Prop :=
  Forall (fun item => 0 <= item_pos item /\ 0 < item_length item
                      /\ item_pos item + item_length item <= len) runs.

Definition script_run_contract {F} (env : Env F) : Prop :=
  forall isRTL s,
    script_runs_within (hb_utf16_script_runs env isRTL s) (Z.of_nat (length s))
    /\ script_runs_disjoint (hb_utf16_script_runs env isRTL s).

(** A request within the preconditions of [getValue]: a window inside
    the context, a context inside the text buffer, and arguments within
    their declared types. *)
Record valid_request {F} (paint : SkPaint F) (text : list Z)
    (start count contextCount dirFlags : Z) : Prop := {
  vr_start : 0 <= start;
  vr_count : 0 <= count;
  vr_window : start + count <= contextCount;
  vr_context : contextCount < 2 ^ 31;
  vr_text : contextCount <= Z.of_nat (length text);
  vr_units : Forall in_uint16 text;
  vr_dirFlags : in_int32 dirFlags;
  vr_flags : in_size_t (paint_flags paint);
  vr_hinting : in_int32 (paint_hinting paint);
  vr_variant : in_int32 (paint_variant paint)
}.

(** The request a key was built from. *)
Definition key_is_request {F} (k : TextLayoutCacheKey F) : Prop :=
  key_wf k /\ 0 <= start k /\ 0 <= count k /\ start k + count k <= contextCount k.

(** The value [v] is what [computeValues] produced for the key [k]. *)
Definition computed_for {F} `{FloatOps F} (env : Env F)
    (k : TextLayoutCacheKey F) (v : TextLayoutValue F) : Prop :=
  exists fuel sh sh' addr,
    computeValues env fuel sh (key_paint k) (textCopy k) (start k) (count k)
                  (contextCount k) (dirFlags k)
                  (TextLayoutValue_new env (contextCount k) addr)
    = Some (sh', v).

(** No two entries tie. *)
Definition no_tie {F} `{FloatOps F}
    (e e' : TextLayoutCacheKey F * TextLayoutValue F) : Prop :=
  compare (fst e) (fst e') <> 0 /\ compare (fst e') (fst e) <> 0.

Fixpoint keys_distinct {F} `{FloatOps F}
    (entries : list (TextLayoutCacheKey F * TextLayoutValue F)) : Prop :=
  match entries with
  | [] => True
  | e :: rest => Forall (no_tie e) rest /\ keys_distinct rest
  end.

(** The invariant of the cache. *)
Record cache_inv {F} `{FloatOps F} (env : Env F) (c : TextLayoutCache) : Prop := {
  inv_size : mSize c = total_size env (mCache c);
  inv_budget : mSize c <= mMaxSize c;
  inv_max : mMaxSize c = default_max_size env;
  inv_keys : Forall (fun e => key_is_request (fst e)) (mCache c);
  inv_distinct : keys_distinct (mCache c);
  inv_computed : Forall (fun e => computed_for env (fst e) (snd e)) (mCache c)
}.

(** The states of the cache that valid calls lead to. *)
Inductive reachable {F} `{FloatOps F} (env : Env F) : TextLayoutCache -> Prop :=
| reach_new :
    reachable env (TextLayoutCache_new env (TextLayoutShaper_new env))
| reach_getValue c fuel paint text start count contextCount dirFlags c' v :
    reachable env c ->
    valid_request paint text start count contextCount dirFlags ->
    getValue env fuel c paint text start count contextCount dirFlags
      = Returns (c', v) ->
    reachable env c'
| reach_purgeCaches c :
    reachable env c -> reachable env (purgeCaches env c).

(** Two values hold the same layout: they may be different objects. *)
Definition same_layout {F} (v1 v2 : TextLayoutValue F) : Prop :=
  mAdvances v1 = mAdvances v2 /\ mTotalAdvance v1 = mTotalAdvance v2
  /\ mGlyphs v1 = mGlyphs v2 /\ mPos v1 = mPos v2.

(** The shaper library is deterministic: the glyphs of a successful call
    depend on the string, the script item and the shaping paint, not on
    the capacity offered, the face handle standing for the typeface, or
    what a previous call left in the arrays. *)
Definition shaper_deterministic {F} (env : Env F) : Prop :=
  forall (r : HB_ShapeRequest F) face n offs,
    fst (HB_ShapeItem env r) = true ->
    fst (HB_ShapeItem env (mkRequest (req_string r) (req_item r) (req_paint r)
                                     face n offs)) = true ->
    snd (HB_ShapeItem env (mkRequest (req_string r) (req_item r) (req_paint r)
                                     face n offs))
    = snd (HB_ShapeItem env r).

(** The glyph arrays exist as soon as their recorded size is positive,
    and the default typeface is the one the font host creates. *)
Definition shaper_sound {F} (env : Env F) (sh : TextLayoutShaper) : Prop :=
  0 <= mShaperItemGlyphArraySize sh
  /\ (0 < mShaperItemGlyphArraySize sh -> mShaperItem_allocated sh = true)
  /\ mDefaultTypeface sh = SkFontHost_CreateTypeface env.

(** Is the request shaped as one run, without entering the loop over
    the visual runs? *)
Definition single_run_request {F} (env : Env F) (chars : list Z)
    (contextCount dirFlags : Z) : bool :=
  let '(bidiReq, forceLTR, forceRTL) := bidi_request dirFlags in
  (forceLTR || forceRTL)
  || match ubidi env chars contextCount bidiReq with
     | UBiDi_resolved _ ok rc _ => (ok && (rc =? 1)) || (negb ok || (rc <? 1))
     | _ => true
     end.

(** The advances script runs store: a run is the list of the slots it
    wrote with the advance written to each, in the order of the writes. *)
Definition store_advances {F} (l : list F) (stores : list (Z * F)) : list F :=
  foldl (fun l p => <[Z.to_nat (fst p) := snd p]> l) l stores.

(** [totalFontRunAdvance] of a script run: the advances of its clusters
    added one after the other to 0. *)
Definition run_total {F} `{FloatOps F} (run : list (Z * F)) : F :=
  foldl fadd fzero (run.*2).

(** [totalAdvance] after the script runs: the total of each run added in
    turn to what it was before. *)
Definition accumulated_total {F} `{FloatOps F} (t : F) (runs : list (list (Z * F)))
    : F :=
  foldl (fun t run => fadd t (run_total run)) t runs.

(** What the script runs of a request stored: each run wrote slots of
    increasing index, no slot was written twice, and every slot lies in
    [lo .. hi - 1]. *)
Definition stored_once {F} (runs : list (list (Z * F))) (lo hi : Z) : Prop :=
  Forall (fun run => StronglySorted Z.lt (run.*1)) runs
  /\ NoDup ((concat runs).*1)
  /\ Forall (fun s => lo <= s < hi) ((concat runs).*1).

(** Once [mNormalizedString] is in use it is as long as the run. *)
Definition norm_sized (chars : list Z) (count : Z) (st : NormState) : Prop :=
  useNormalizedString st = true ->
  length (mNormalizedString st) = length (take (Z.to_nat count) chars).

(** The number of advances a value holds. *)
Definition advances_length {F} (v : TextLayoutValue F) : Z :=
  Vector_size (mAdvances v).

(** The clipped length of the visual run [i] against the window
    [start, end_). *)
Definition clipped_length (visual_run : Z -> Z * Z * Z) (start end_ : Z) (i : Z)
    : Z :=
  let startRun := snd (fst (visual_run i)) in
  let lengthRun := snd (visual_run i) in
  Z.max 0 (Z.min (startRun + lengthRun) end_ - Z.max startRun start).

(** [<] on floats is asymmetric. *)
Definition flt_asymmetric (F : Type) `{FloatOps F} : Prop :=
  forall a b : F, flt a b = true -> flt b a = false.

(** A key none of whose differences in [compare] wraps: positions and
    flags below 2^31, enumerations and direction flags within 30 bits. *)
Record key_small {F} (k : TextLayoutCacheKey F) : Prop := {
  small_start : 0 <= start k < 2 ^ 31;
  small_count : 0 <= count k < 2 ^ 31;
  small_contextCount : 0 <= contextCount k < 2 ^ 31;
  small_flags : 0 <= flags k < 2 ^ 31;
  small_hinting : - 2 ^ 30 <= hinting k < 2 ^ 30;
  small_dirFlags : - 2 ^ 30 <= dirFlags k < 2 ^ 30;
  small_variant : - 2 ^ 30 <= variant k < 2 ^ 30
}.

(** Two values hold the same items, whatever the capacities of their
    vectors. *)
Definition same_items {F} (v1 v2 : TextLayoutValue F) : Prop :=
  items (mAdvances v1) = items (mAdvances v2)
  /\ mTotalAdvance v1 = mTotalAdvance v2
  /\ items (mGlyphs v1) = items (mGlyphs v2)
  /\ items (mPos v1) = items (mPos v2).

(** One (x, y) pair per glyph. *)
Definition pos_per_glyph {F} (v : TextLayoutValue F) : Prop :=
  Vector_size (mPos v) = 2 * Vector_size (mGlyphs v).

(** The code unit the mirroring loop leaves for [ch]. *)
Definition mirrored {F} (env : Env F) (ch : Z) : Z :=
  if u_isMirrored env ch then to_uint16 (u_charMirror env ch) else ch.

(** The run [chars[0 .. count - 1]] holds no combining diacritical mark. *)
Definition no_diacritics {F} (env : Env F) (chars : list Z) (count : Z) : Prop :=
  forall i, 0 <= i < count -> is_diacritic env (char_at chars i) = false.

(** No cached face is NULL. *)
Definition faces_not_null (sh : TextLayoutShaper) : Prop :=
  forall id face, mCachedHBFaces sh !! id = Some face -> face <> 0.


(** The visual run [i] came back without a start or without a length. *)
Definition invalid_run (visual_run : Z -> Z * Z * Z) (i : Z) : bool :=
  let '(_, startRun, lengthRun) := visual_run i in
  (startRun =? -1) || (lengthRun =? -1).

(** Where the pen stands before the [k]-th glyph of a run is emitted:
    the total advance before the run, moved by the advances of the
    glyphs emitted so far. *)
Definition pen_before {F} `{FloatOps F} (a : HB_GlyphArrays) (isRTL : bool)
    (totalAdvance : F) (k : Z) : F :=
  foldl (fun x m =>
           fadd x (HBFixedToFloat
                     (hb_advance a (glyph_index isRTL (num_glyphs a) m))))
        totalAdvance (seqZ 0 k).

(** The two positions emitted for the [k]-th glyph of a run. *)
Definition glyph_position {F} `{FloatOps F} (a : HB_GlyphArrays) (isRTL : bool)
    (skewX totalAdvance : F) (k : Z) : list F :=
  let o := nth (Z.to_nat (glyph_index isRTL (num_glyphs a) k)) (offsets a) (0, 0) in
  [fadd (fadd (pen_before a isRTL totalAdvance k) (HBFixedToFloat (fst o)))
        (fmul (HBFixedToFloat (snd o)) skewX);
   HBFixedToFloat (snd o)].

(** ICU's convention for error codes: a function entered with a failure
    code does nothing and leaves the code as it is. *)
Definition normalizer_keeps_failure {F} (env : Env F) : Prop :=
  forall s e, U_SUCCESS e = false -> snd (Normalizer_normalize env s e) = e.

(** * Properties *)

(** ** Machine arithmetic *)

(** Goals about [mod] by the constants 2^16, 2^31, 2^32. *)
Ltac mod_arith :=
  unfold in_size_t, in_int32, in_uint16, wrap32, to_int32, to_uint16 in *;
  change (2 ^ 32) with 4294967296 in *;
  change (2 ^ 31) with 2147483648 in *;
  change (2 ^ 16) with 65536 in *;
  Z.div_mod_to_equations; lia.

Lemma wrap32_small (z : Z) : in_size_t z -> wrap32 z = z.
Proof. intros Hz. mod_arith. Qed.

Lemma wrap32_range (z : Z) : in_size_t (wrap32 z).
Proof. mod_arith. Qed.

Lemma to_int32_small (z : Z) : in_int32 z -> to_int32 z = z.
Proof. intros Hz. mod_arith. Qed.

Lemma to_int32_sub_zero (a b : Z) :
  in_int32 a -> in_int32 b -> to_int32 (a - b) = 0 <-> a = b.
Proof. intros Ha Hb. split; intros Hz; mod_arith. Qed.

Lemma to_int32_wrap_sub_zero (a b : Z) :
  in_size_t a -> in_size_t b -> to_int32 (wrap32 (a - b)) = 0 <-> a = b.
Proof. intros Ha Hb. split; intros Hz; mod_arith. Qed.

(** ** memcmp and the bytes of the text *)

Lemma memcmp_zero_iff (n : nat) : forall a b : list Z,
  length a = n -> length b = n -> memcmp a b n = 0 <-> a = b.
Proof.
  induction n as [| n IH]; intros a b Ha Hb.
  - destruct a, b; try discriminate. simpl. tauto.
  - destruct a as [| x a], b as [| y b]; try discriminate.
    simpl in *. destruct (Z.eqb_spec x y) as [-> | Hne].
    + rewrite IH by lia. split; [intros ->; reflexivity | intros [=]; assumption].
    + split; [lia | intros [=]; contradiction].
Qed.

Lemma length_text_bytes (s : list Z) :
  length (text_bytes s) = (2 * length s)%nat.
Proof. induction s as [| u s IH]; simpl; [reflexivity | rewrite IH; lia]. Qed.

Lemma UChar_bytes_inj (u v : Z) :
  in_uint16 u -> in_uint16 v -> UChar_bytes u = UChar_bytes v -> u = v.
Proof.
  unfold in_uint16, UChar_bytes. intros Hu Hv [= Hlo Hhi].
  change 255 with (Z.ones 8) in Hlo, Hhi.
  rewrite !Z.land_ones in Hlo, Hhi by lia.
  rewrite !Z.shiftr_div_pow2 in Hhi by lia.
  change (2 ^ 8) with 256 in *. change (2 ^ 16) with 65536 in *.
  assert (Hu' : 0 <= u / 256 < 256)
    by (split; [apply Z.div_pos | apply Z.div_lt_upper_bound]; lia).
  assert (Hv' : 0 <= v / 256 < 256)
    by (split; [apply Z.div_pos | apply Z.div_lt_upper_bound]; lia).
  rewrite (Z.mod_small (u / 256)), (Z.mod_small (v / 256)) in Hhi by lia.
  rewrite (Z.div_mod u 256), (Z.div_mod v 256) by lia.
  rewrite Hlo, Hhi. reflexivity.
Qed.

Lemma text_bytes_inj (s : list Z) : forall t : list Z,
  Forall in_uint16 s -> Forall in_uint16 t ->
  text_bytes s = text_bytes t -> s = t.
Proof.
  induction s as [| u s IH]; intros [| v t] Hs Ht Heq; try discriminate.
  - reflexivity.
  - inversion Hs as [| ? ? Hu Hs']; inversion Ht as [| ? ? Hv Ht']; subst.
    simpl in Heq. injection Heq as Hlo Hhi Hrest.
    f_equal.
    + apply UChar_bytes_inj; [assumption | assumption |].
      unfold UChar_bytes. rewrite Hlo, Hhi. reflexivity.
    + apply IH; assumption.
Qed.

(** ** The ordered comparison of keys *)

Lemma stage_delta (d X : Z) :
  (if negb (d =? 0) then d else X) = 0 <-> d = 0 /\ X = 0.
Proof. destruct (Z.eqb_spec d 0); simpl; lia. Qed.

Lemma stage_order (a b X : Z) :
  (if a <? b then -1 else if a >? b then 1 else X) = 0 <-> a = b /\ X = 0.
Proof.
  destruct (Z.ltb_spec a b); [lia |].
  rewrite Z.gtb_ltb. destruct (Z.ltb_spec b a); lia.
Qed.

Lemma stage_float {F} `{FloatOps F} (a b : F) (X : Z) :
  (if flt a b then -1 else if fgt a b then 1 else X) = 0
  <-> float_tie a b /\ X = 0.
Proof.
  unfold float_tie. destruct (flt a b), (fgt a b); split; intros; try lia;
    try (destruct_and?; discriminate); auto.
Qed.

Lemma memcmp_text_zero_iff (s t : list Z) (n : Z) :
  0 <= n < 2 ^ 31 ->
  Z.of_nat (length s) = n -> Z.of_nat (length t) = n ->
  Forall in_uint16 s -> Forall in_uint16 t ->
  memcmp (text_bytes s) (text_bytes t) (Z.to_nat (wrap32 (n * sizeof_UChar))) = 0
  <-> s = t.
Proof.
  intros Hn Hs Ht Hus Hut.
  assert (Hw : wrap32 (n * sizeof_UChar) = n * 2) by (unfold sizeof_UChar; mod_arith).
  rewrite Hw, memcmp_zero_iff by (rewrite length_text_bytes; lia).
  split; [apply text_bytes_inj; assumption | intros ->; reflexivity].
Qed.

(** The ordered comparison ties exactly on [key_tie]. *)
Lemma compare_zero_iff_tie {F} `{FloatOps F} (l r : TextLayoutCacheKey F) :
  key_wf l -> key_wf r -> compare l r = 0 <-> key_tie l r.
Proof.
  intros [] []. unfold compare, key_tie. cbv zeta.
  rewrite stage_delta, to_int32_wrap_sub_zero by assumption.
  rewrite stage_delta, to_int32_wrap_sub_zero by assumption.
  rewrite stage_delta, to_int32_wrap_sub_zero
    by (unfold in_size_t; change (2 ^ 32) with 4294967296;
        change (2 ^ 31) with 2147483648 in *; lia).
  rewrite stage_order, !stage_float.
  rewrite stage_delta, to_int32_wrap_sub_zero by assumption.
  rewrite stage_delta, to_int32_sub_zero by assumption.
  rewrite stage_delta, to_int32_sub_zero by assumption.
  rewrite stage_delta, to_int32_sub_zero by assumption.
  rewrite stage_order.
  split.
  - intros (? & ? & Hc & ? & ? & ? & ? & ? & ? & ? & ? & ? & Hm).
    repeat (split; [assumption |]).
    eapply memcmp_text_zero_iff; [| | | | | exact Hm]; try eassumption.
    congruence.
  - intros (? & ? & Hc & ? & ? & ? & ? & ? & ? & ? & ? & ? & Hm).
    repeat (split; [assumption |]).
    eapply memcmp_text_zero_iff; try eassumption. congruence.
Qed.

(** ** The shaping retry loop *)

Section Shaping.
Context {F : Type} `{FloatOps F}.
Variable env : Env F.

Lemma doShaping_capacity sh string item paint face size :
  mShaperItemGlyphArraySize (fst (doShaping env sh string item paint face size))
  = Z.max (mShaperItemGlyphArraySize sh) size.
Proof.
  unfold doShaping, resize_arrays.
  destruct (Z.gtb_spec size (mShaperItemGlyphArraySize sh));
    destruct (HB_ShapeItem env _); simpl; lia.
Qed.

Lemma doShaping_attempt sh string item paint face size :
  doShaping env sh string item paint face size
  = let n := first_capacity sh size in
    let '(ok, arrays) := HB_ShapeItem env (attempt string item paint face n) in
    (mkShaper n (if size >? mShaperItemGlyphArraySize sh
                 then true else mShaperItem_allocated sh)
              arrays (mCachedHBFaces sh) (mDefaultTypeface sh), ok).
Proof.
  unfold doShaping, resize_arrays, first_capacity, attempt, shape_request.
  destruct (Z.gtb_spec size (mShaperItemGlyphArraySize sh)) as [Hgt | Hle]; simpl.
  - rewrite Z.max_r by lia. destruct (HB_ShapeItem env _). reflexivity.
  - rewrite Z.max_l by lia. destruct (HB_ShapeItem env _). reflexivity.
Qed.

(** Under the shaper contract two attempts suffice: either the first one
    succeeds on arrays of [first_capacity] entries, or it reports the
    required size and the second succeeds on arrays of twice that size. *)
Lemma shaping_loop_protocol fuel sh string item paint face size :
  shaper_contract env -> (2 <= fuel)%nat ->
  let n1 := first_capacity sh size in
  let r1 := HB_ShapeItem env (attempt string item paint face n1) in
  let required := num_glyphs (snd r1) in
  exists sh',
    shaping_loop env fuel sh string item paint face size = Some sh'
    /\ mCachedHBFaces sh' = mCachedHBFaces sh
    /\ mDefaultTypeface sh' = mDefaultTypeface sh
    /\ mShaperItemGlyphArraySize sh <= mShaperItemGlyphArraySize sh'
    /\ (if fst r1
        then mShaperItemGlyphArraySize sh' = n1 /\ mShaperItem sh' = snd r1
        else mShaperItemGlyphArraySize sh' = 2 * required
             /\ n1 < required
             /\ mShaperItem_allocated sh' = true
             /\ HB_ShapeItem env (attempt string item paint face (2 * required))
                = (true, mShaperItem sh')).
Proof.
  intros Hc Hfuel n1 r1 required.
  destruct fuel as [| [| fuel]]; try lia.
  cbn [shaping_loop]. rewrite doShaping_attempt. cbv zeta.
  fold n1. fold r1. destruct r1 as [ok arrays] eqn:Er1. destruct ok; simpl fst.
  - eexists. split; [reflexivity |]. simpl. unfold n1, first_capacity.
    repeat split; lia.
  - cbn [mShaperItem num_glyphs].
    pose proof (Hc (attempt string item paint face n1)) as Hr.
    unfold r1 in Er1. rewrite Er1 in Hr. simpl in Hr.
    specialize (Hr eq_refl). destruct Hr as (Hlt & Hpos & Hok).
    assert (Hw : wrap32 (num_glyphs arrays * 2) = 2 * num_glyphs arrays)
      by mod_arith.
    assert (Hok2 : fst (HB_ShapeItem env
                          (attempt string item paint face (2 * num_glyphs arrays)))
                   = true).
    { apply (Hok (2 * num_glyphs arrays)
                 (replicate (Z.to_nat (2 * num_glyphs arrays)) (0, 0))). lia. }
    rewrite Hw, doShaping_attempt. cbv zeta.
    match goal with
    | |- context [first_capacity ?s ?n] =>
        replace (first_capacity s n) with (2 * num_glyphs arrays)
          by (unfold first_capacity; cbn [mShaperItemGlyphArraySize]; lia)
    end.
    destruct (HB_ShapeItem env
                (attempt string item paint face (2 * num_glyphs arrays)))
      as [ok2 arrays2] eqn:E2.
    simpl in Hok2. subst ok2.
    eexists. split; [reflexivity |].
    cbn [mCachedHBFaces mDefaultTypeface mShaperItemGlyphArraySize
         mShaperItem mShaperItem_allocated].
    subst required. cbn [snd].
    destruct (Z.gtb_spec (2 * num_glyphs arrays) n1); [| lia].
    unfold n1, first_capacity in *. repeat split; try lia. exact E2.
Qed.

Lemma shapeFontRun_returns fuel sh paint string item isRTL :
  shaper_contract env -> (2 <= fuel)%nat ->
  exists sh' base, shapeFontRun env fuel sh paint string item isRTL = Some (sh', base).
Proof.
  intros Hc Hfuel. unfold shapeFontRun. cbv zeta.
  destruct (getCachedHBFace env sh _) as [sh1 face].
  match goal with
  | |- context [shaping_loop env fuel ?s ?str ?it ?p ?f ?sz] =>
      destruct (shaping_loop_protocol fuel s str it p f sz Hc Hfuel) as (sh2 & -> & _)
  end.
  eauto.
Qed.

Lemma script_runs_loop_returns fuel runs : forall sh paint string isRTL t v,
  shaper_contract env -> (2 <= fuel)%nat ->
  exists sh' t' v',
    script_runs_loop env fuel runs sh paint string isRTL t v = Some (sh', t', v').
Proof.
  induction runs as [| item rest IH]; intros sh paint string isRTL t v Hc Hfuel.
  - simpl. eauto.
  - cbn [script_runs_loop].
    destruct (shapeFontRun_returns fuel sh paint string item isRTL Hc Hfuel)
      as (sh' & base & ->).
    destruct (script_run_body _ _ _ _ _ _ _) as [t' v'].
    apply IH; assumption.
Qed.

Lemma computeRunValues_returns fuel sh paint chars count isRTL v :
  shaper_contract env -> (2 <= fuel)%nat ->
  exists sh' v', computeRunValues env fuel sh paint chars count isRTL v = Some (sh', v').
Proof.
  intros Hc Hfuel. unfold computeRunValues.
  destruct (count =? 0); [eauto |]. cbv zeta.
  match goal with
  | |- context [script_runs_loop env fuel ?r ?s ?p ?str ?b ?t ?w] =>
      destruct (script_runs_loop_returns fuel r s p str b t w Hc Hfuel)
        as (sh' & t' & v' & ->)
  end.
  eauto.
Qed.

Lemma visual_runs_loop_returns fuel indices :
  forall visual_run paraDir sh paint chars start end_ v,
  shaper_contract env -> (2 <= fuel)%nat ->
  exists sh' v' d,
    visual_runs_loop env fuel indices visual_run paraDir sh paint chars start end_ v
    = Some (sh', v', d).
Proof.
  induction indices as [| i rest IH];
    intros visual_run paraDir sh paint chars start end_ v Hc Hfuel.
  - simpl. eauto.
  - cbn [visual_runs_loop].
    destruct (visual_run i) as [[runDir startRun] lengthRun].
    destruct ((startRun =? -1) || (lengthRun =? -1)); [eauto |].
    destruct (startRun >=? end_); [apply IH; assumption |].
    cbv zeta.
    destruct (to_int32 (startRun + lengthRun) <=? to_int32 start);
      [apply IH; assumption |].
    match goal with
    | |- context [computeRunValues env fuel ?s ?p ?c ?n ?b ?w] =>
        destruct (computeRunValues_returns fuel s p c n b w Hc Hfuel)
          as (sh' & v' & ->)
    end.
    apply IH; assumption.
Qed.

Lemma computeValues_returns fuel sh paint chars start count contextCount dirFlags v :
  shaper_contract env -> (2 <= fuel)%nat ->
  exists sh' v',
    computeValues env fuel sh paint chars start count contextCount dirFlags v
    = Some (sh', v').
Proof.
  intros Hc Hfuel. unfold computeValues. cbv zeta.
  destruct (count =? 0); [eauto |].
  destruct (bidi_request dirFlags) as [[bidiReq forceLTR] forceRTL].
  destruct (forceLTR || forceRTL);
    [apply computeRunValues_returns; assumption |].
  destruct (ubidi env chars contextCount bidiReq)
    as [| | paraLevel ok rc visual_run];
    try (apply computeRunValues_returns; assumption).
  destruct (ok && (rc =? 1)); [apply computeRunValues_returns; assumption |].
  destruct (negb ok || (rc <? 1)); [apply computeRunValues_returns; assumption |].
  match goal with
  | |- context [visual_runs_loop env fuel ?l ?vr ?pd ?s ?p ?c ?st ?e ?w] =>
      destruct (visual_runs_loop_returns fuel l vr pd s p c st e w Hc Hfuel)
        as (sh' & v' & d & ->)
  end.
  destruct d; [apply computeRunValues_returns; assumption | eauto].
Qed.

End Shaping.

Lemma compare_tie_positions {F} `{FloatOps F} (k key : TextLayoutCacheKey F) :
  key_wf k -> key_wf key -> compare k key = 0 ->
  start k = start key /\ count k = count key
  /\ contextCount k = contextCount key /\ dirFlags k = dirFlags key
  /\ textCopy k = textCopy key.
Proof.
  intros Hk Hkey Hc. apply compare_zero_iff_tie in Hc; [| assumption..].
  unfold key_tie in Hc. tauto.
Qed.

(** ** The ties of the comparison form a reflexive, symmetric relation *)

Section KeyOrder.
Context {F : Type} `{FloatOrder F}.

Lemma float_tie_refl (a : F) : float_tie a a.
Proof. unfold float_tie. rewrite fgt_flt, flt_irrefl. auto. Qed.

Lemma float_tie_sym (a b : F) : float_tie a b -> float_tie b a.
Proof.
  unfold float_tie. rewrite !fgt_flt. intros [Hab Hba]. auto.
Qed.

Lemma key_tie_refl (k : TextLayoutCacheKey F) : key_tie k k.
Proof.
  unfold key_tie.
  repeat (split; [first [reflexivity | apply float_tie_refl] |]). reflexivity.
Qed.

Lemma key_tie_sym (l r : TextLayoutCacheKey F) : key_tie l r -> key_tie r l.
Proof.
  unfold key_tie.
  intros (? & ? & ? & ? & ? & ? & ? & ? & ? & ? & ? & ? & ?).
  repeat (split; [first [symmetry; assumption | apply float_tie_sym; assumption] |]).
  symmetry; assumption.
Qed.

Lemma compare_refl (k : TextLayoutCacheKey F) : key_wf k -> compare k k = 0.
Proof. intros Hk. apply compare_zero_iff_tie; auto using key_tie_refl. Qed.

Lemma compare_sym (l r : TextLayoutCacheKey F) :
  key_wf l -> key_wf r -> compare l r = 0 -> compare r l = 0.
Proof.
  intros Hl Hr Hc. apply compare_zero_iff_tie; [assumption | assumption |].
  apply key_tie_sym, compare_zero_iff_tie; assumption.
Qed.

End KeyOrder.

(** ** The recency list *)

Section Cache.
Context {F : Type} `{FloatOrder F}.
Variable env : Env F.

Local Abbreviation Entry := (TextLayoutCacheKey F * TextLayoutValue F)%type.

Lemma entry_size_range (e : Entry) : 0 <= entry_size env e < 2 ^ 32.
Proof. unfold entry_size. apply wrap32_range. Qed.

Lemma total_size_nonneg (l : list Entry) : 0 <= total_size env l.
Proof.
  induction l as [| e l IH]; simpl; [lia |].
  pose proof (entry_size_range e). lia.
Qed.

Lemma total_size_app (l1 l2 : list Entry) :
  total_size env (l1 ++ l2) = total_size env l1 + total_size env l2.
Proof. induction l1 as [| e l1 IH]; simpl; [reflexivity | rewrite IH; lia]. Qed.

Lemma total_size_drop_le (n : nat) (l : list Entry) :
  total_size env (drop n l) <= total_size env l.
Proof.
  rewrite <- (take_drop n l) at 2. rewrite total_size_app.
  pose proof (total_size_nonneg (take n l)). lia.
Qed.

Lemma GenerationCache_find_None (l : list Entry) key :
  GenerationCache_find l key = None <->
  Forall (fun e => compare (fst e) key <> 0) l.
Proof.
  induction l as [| e l IH]; simpl.
  - split; [constructor | reflexivity].
  - destruct (Z.eqb_spec (compare (fst e) key) 0) as [Heq | Hne].
    + split; [discriminate | intros Hf; inversion Hf; contradiction].
    + destruct (GenerationCache_find l key) as [[e' rest'] |].
      * split; [discriminate |].
        intros Hf. inversion Hf as [| ? ? _ Hl]. apply IH in Hl. discriminate.
      * split; [intros _; constructor; [assumption | apply IH; reflexivity]
               | reflexivity].
Qed.

Lemma GenerationCache_find_Some (l : list Entry) key e rest :
  GenerationCache_find l key = Some (e, rest) ->
  compare (fst e) key = 0 /\
  exists l1 l2, l = l1 ++ e :: l2 /\ rest = l1 ++ l2.
Proof.
  revert rest. induction l as [| e0 l IH]; simpl; intros rest Hf; [discriminate |].
  destruct (Z.eqb_spec (compare (fst e0) key) 0) as [Heq | Hne].
  - injection Hf as <- <-. split; [assumption |]. exists [], l. auto.
  - destruct (GenerationCache_find l key) as [[e' rest'] |]; [| discriminate].
    injection Hf as <- <-.
    destruct (IH rest' eq_refl) as (Hc & l1 & l2 & -> & ->).
    split; [assumption |]. exists (e0 :: l1), l2. auto.
Qed.

(** *** Distinct keys *)

Lemma keys_distinct_app (l1 l2 : list Entry) :
  keys_distinct (l1 ++ l2) <->
  keys_distinct l1 /\ keys_distinct l2
  /\ Forall (fun e => Forall (no_tie e) l2) l1.
Proof.
  induction l1 as [| e l1 IH]; simpl.
  - split; [intros Hd; repeat split; [assumption | constructor] | tauto].
  - rewrite Forall_app, IH, Forall_cons. tauto.
Qed.

Lemma no_tie_sym (e e' : Entry) : no_tie e e' -> no_tie e' e.
Proof. unfold no_tie. tauto. Qed.

Lemma keys_distinct_move_last (l1 l2 : list Entry) e :
  keys_distinct (l1 ++ e :: l2) -> keys_distinct ((l1 ++ l2) ++ [e]).
Proof.
  rewrite !keys_distinct_app. simpl.
  intros (Hd1 & (He2 & Hd2) & Hcross).
  repeat split; auto.
  - eapply Forall_impl; [exact Hcross |].
    intros x Hx. inversion Hx; assumption.
  - apply Forall_app. split.
    + eapply Forall_impl; [exact Hcross |].
      intros x Hx. inversion Hx; subst. constructor; [assumption | constructor].
    + eapply Forall_impl; [exact He2 |].
      intros x Hx. constructor; [apply no_tie_sym; exact Hx | constructor].
Qed.

Lemma keys_distinct_drop (n : nat) (l : list Entry) :
  keys_distinct l -> keys_distinct (drop n l).
Proof.
  rewrite <- (take_drop n l) at 1. rewrite keys_distinct_app. tauto.
Qed.

Lemma keys_distinct_snoc (l : list Entry) e :
  keys_distinct l -> Forall (fun e' => no_tie e' e) l -> keys_distinct (l ++ [e]).
Proof.
  intros Hd Hf. apply keys_distinct_app. simpl. repeat split; auto.
  eapply Forall_impl; [exact Hf |].
  intros x Hx. constructor; [exact Hx | constructor].
Qed.

(** A key that is cached under distinct keys is found as itself. *)
Lemma GenerationCache_find_cached (l : list Entry) k v :
  keys_distinct l -> key_wf k -> (k, v) ∈ l ->
  exists rest, GenerationCache_find l k = Some ((k, v), rest).
Proof.
  induction l as [| e0 l IH]; simpl; intros Hd Hk Hin.
  - apply elem_of_nil in Hin. contradiction.
  - destruct Hd as [Hf Hd]. apply elem_of_cons in Hin.
    destruct (Z.eqb_spec (compare (fst e0) k) 0) as [Heq | Hne].
    + destruct Hin as [<- | Hin]; [eauto |].
      rewrite Forall_forall in Hf. destruct (Hf _ Hin) as [Hc _].
      simpl in Hc. contradiction.
    + destruct Hin as [<- | Hin].
      * simpl in Hne. rewrite compare_refl in Hne by assumption. contradiction.
      * destruct (IH Hd Hk Hin) as (rest & ->). eauto.
Qed.

(** *** Making room *)

Lemma make_room_spec (l : list Entry) : forall mSize size mMaxSize,
  mSize = total_size env l -> 0 <= size <= mMaxSize -> mMaxSize < 2 ^ 31 ->
  mSize <= mMaxSize ->
  exists n,
    make_room env l mSize size mMaxSize
      = Some (drop n l, total_size env (drop n l))
    /\ total_size env (drop n l) + size <= mMaxSize
    /\ forall m, (m < n)%nat -> mMaxSize < total_size env (drop m l) + size.
Proof.
  induction l as [| e l IH]; intros mSize size mMaxSize Hs Hsize Hmax Hm.
  - simpl in *. subst mSize.
    assert (Hw : wrap32 (0 + size) = size) by mod_arith.
    rewrite Hw. destruct (Z.gtb_spec size mMaxSize); [lia |].
    exists O. simpl. repeat split; [lia | intros m Hlt; lia].
  - simpl in Hs. pose proof (entry_size_range e) as He.
    pose proof (total_size_nonneg l) as Hl.
    cbn [make_room].
    assert (Hw : wrap32 (mSize + size) = mSize + size) by mod_arith.
    rewrite Hw. destruct (Z.gtb_spec (mSize + size) mMaxSize) as [Hgt | Hle].
    + assert (Hr : on_entry_removed env mSize e = total_size env l)
        by (unfold on_entry_removed; mod_arith).
      destruct (IH (on_entry_removed env mSize e) size mMaxSize)
        as (n & Hroom & Hfit & Hmin); try lia.
      exists (S n). cbn [drop]. rewrite Hroom. repeat split; [lia |].
      intros [| m] Hlt; [| apply Hmin; lia].
      cbn [drop]. change (total_size env (e :: l))
        with (entry_size env e + total_size env l). lia.
    + exists O. cbn [drop]. change (total_size env (e :: l))
        with (entry_size env e + total_size env l).
      rewrite <- Hs. repeat split; [lia | intros m Hlt; lia].
Qed.

Lemma purge_size (l : list Entry) : forall mSize,
  mSize = total_size env l -> mSize < 2 ^ 32 ->
  foldl (on_entry_removed env) mSize l = 0.
Proof.
  induction l as [| e l IH]; intros mSize Hs Hb; simpl in *; [assumption |].
  pose proof (entry_size_range e). pose proof (total_size_nonneg l).
  apply IH; unfold on_entry_removed; mod_arith.
Qed.

End Cache.

(** ** Valid requests *)

Section Requests.
Context {F : Type}.

Lemma valid_request_wrap (paint : SkPaint F) text start count contextCount dirFlags :
  valid_request paint text start count contextCount dirFlags ->
  wrap32 start = start /\ wrap32 count = count
  /\ wrap32 contextCount = contextCount.
Proof. intros []. repeat split; mod_arith. Qed.

Lemma valid_request_key (paint : SkPaint F) text start count contextCount dirFlags :
  valid_request paint text start count contextCount dirFlags ->
  key_is_request
    (TextLayoutCacheKey_new paint text start count contextCount dirFlags).
Proof.
  intros []. unfold key_is_request.
  split; [constructor; simpl; try assumption | simpl; lia].
  - unfold in_size_t. change (2 ^ 32) with 4294967296.
    change (2 ^ 31) with 2147483648 in *. lia.
  - unfold in_size_t. change (2 ^ 32) with 4294967296.
    change (2 ^ 31) with 2147483648 in *. lia.
  - lia.
  - rewrite length_take. lia.
  - apply Forall_take. assumption.
Qed.

Lemma key_paint_new (paint : SkPaint F) text start count contextCount dirFlags :
  key_paint (TextLayoutCacheKey_new paint text start count contextCount dirFlags)
  = paint.
Proof. destruct paint. reflexivity. Qed.

End Requests.

(** ** getValue, case by case *)

Section GetValue.
Context {F : Type} `{FloatOrder F}.
Variable env : Env F.
Hypothesis max_size_range : 0 <= default_max_size env < 2 ^ 31.

Local Abbreviation Entry := (TextLayoutCacheKey F * TextLayoutValue F)%type.

(** The three ways a valid call on a sound cache ends when the shaper
    returns: a hit, which moves the entry found to the young end; a miss
    that fits, which drops the least number of oldest entries that makes
    room and appends the new entry; a miss too big to store. *)
Lemma getValue_cases fuel c paint text start count contextCount dirFlags :
  cache_inv env c ->
  valid_request paint text start count contextCount dirFlags ->
  let key := TextLayoutCacheKey_new paint text start count contextCount dirFlags in
  let fresh := TextLayoutValue_new env contextCount (heap_next c) in
  (exists e l1 l2,
      mCache c = l1 ++ e :: l2 /\ compare (fst e) key = 0 /\
      getValue env fuel c paint text start count contextCount dirFlags
      = Returns (mkCache (mShaper c) ((l1 ++ l2) ++ [e]) (mSize c) (mMaxSize c)
                         (heap_next c), Some (snd e)))
  \/ (GenerationCache_find (mCache c) key = None /\
      match computeValues env fuel (mShaper c) paint (textCopy key) start count
                          contextCount dirFlags fresh with
      | None =>
          getValue env fuel c paint text start count contextCount dirFlags
          = OutOfFuel
      | Some (sh, v) =>
          let size := entry_size env (key, v) in
          if size <=? mMaxSize c then
            exists n,
              getValue env fuel c paint text start count contextCount dirFlags
              = Returns (mkCache sh (drop n (mCache c) ++ [(key, v)])
                                 (total_size env (drop n (mCache c)) + size)
                                 (mMaxSize c) (heap_next c + 1), Some v)
              /\ total_size env (drop n (mCache c)) + size <= mMaxSize c
              /\ forall m, (m < n)%nat ->
                   mMaxSize c < total_size env (drop m (mCache c)) + size
          else
            getValue env fuel c paint text start count contextCount dirFlags
            = Returns (mkCache sh (mCache c) (mSize c) (mMaxSize c)
                               (heap_next c + 1), Some v)
      end).
Proof.
  intros Hinv Hvalid key fresh.
  destruct (valid_request_wrap _ _ _ _ _ _ Hvalid) as (Hws & Hwc & Hwx).
  unfold getValue. rewrite Hws, Hwc, Hwx. fold key. fold fresh.
  unfold GenerationCache_get.
  destruct (GenerationCache_find (mCache c) key) as [[e rest] |] eqn:Hfind.
  - left. apply GenerationCache_find_Some in Hfind.
    destruct Hfind as (Hc & l1 & l2 & Hl & ->). exists e, l1, l2. auto.
  - right. split; [reflexivity |].
    destruct (computeValues env fuel (mShaper c) paint (textCopy key) start count
                            contextCount dirFlags fresh) as [[sh v] |];
      [| reflexivity].
    cbv zeta. change (wrap32 (key_getSize env key + TextLayoutValue_getSize env v))
      with (entry_size env (key, v)).
    pose proof (entry_size_range env (key, v)) as Hsz.
    destruct Hinv as [Hsize Hbudget Hmax _ _ _].
    destruct (Z.leb_spec (entry_size env (key, v)) (mMaxSize c)) as [Hfit | Hbig];
      [| reflexivity].
    destruct (make_room_spec env (mCache c) (mSize c) (entry_size env (key, v))
                             (mMaxSize c)) as (n & Hroom & Hle & Hmin);
      try lia.
    exists n. rewrite Hroom. unfold GenerationCache_put.
    assert (Hnone : GenerationCache_find (drop n (mCache c)) key = None).
    { apply GenerationCache_find_None, Forall_drop.
      apply GenerationCache_find_None. assumption. }
    rewrite Hnone.
    pose proof (total_size_nonneg env (drop n (mCache c))).
    pose proof max_size_range as Hrange.
    replace (wrap32 (total_size env (drop n (mCache c)) + entry_size env (key, v)))
      with (total_size env (drop n (mCache c)) + entry_size env (key, v))
      by (symmetry; apply wrap32_small; unfold in_size_t;
          change (2 ^ 32) with 4294967296; change (2 ^ 31) with 2147483648 in *;
          lia).
    auto.
Qed.

Lemma no_tie_of_miss (l : list Entry) key v :
  key_wf key -> Forall (fun e => key_is_request (fst e)) l ->
  GenerationCache_find l key = None ->
  Forall (fun e' => no_tie e' (key, v)) l.
Proof.
  intros Hk Hl Hfind. apply GenerationCache_find_None in Hfind.
  rewrite Forall_forall in *. intros e He.
  specialize (Hl e He). specialize (Hfind e He). destruct Hl as [Hwf _].
  split; simpl; [assumption |].
  intros Hc. apply Hfind. apply compare_sym; assumption.
Qed.

(** A valid call that returns keeps the invariant. *)
Lemma getValue_inv fuel c paint text start count contextCount dirFlags c' r :
  cache_inv env c ->
  valid_request paint text start count contextCount dirFlags ->
  getValue env fuel c paint text start count contextCount dirFlags
    = Returns (c', r) ->
  cache_inv env c'.
Proof.
  intros Hinv Hvalid Hget.
  pose proof (valid_request_key _ _ _ _ _ _ Hvalid) as Hkey.
  destruct (getValue_cases fuel c paint text start count contextCount dirFlags
                           Hinv Hvalid) as [Hhit | [Hfind Hmiss]].
  - destruct Hhit as (e & l1 & l2 & Hl & _ & Heq).
    rewrite Heq in Hget. injection Hget as <- <-.
    destruct Hinv as [Hsize Hbudget Hmax Hkeys Hdist Hcomp].
    rewrite Hl in *.
    constructor; cbn [mCache mSize mMaxSize]; try assumption.
    + rewrite Hsize, !total_size_app. simpl. lia.
    + rewrite Forall_app, Forall_cons in Hkeys.
      rewrite !Forall_app, Forall_singleton. tauto.
    + apply keys_distinct_move_last. assumption.
    + rewrite Forall_app, Forall_cons in Hcomp.
      rewrite !Forall_app, Forall_singleton. tauto.
  - destruct (computeValues env fuel (mShaper c) paint _ start count contextCount
                            dirFlags _) as [[sh v] |] eqn:Hcv;
      [| rewrite Hmiss in Hget; discriminate].
    cbv zeta in Hmiss.
    destruct Hinv as [Hsize Hbudget Hmax Hkeys Hdist Hcomp].
    destruct (entry_size env (_, v) <=? mMaxSize c).
    + destruct Hmiss as (n & Heq & Hle & _).
      rewrite Heq in Hget. injection Hget as <- <-.
      constructor; cbn [mCache mSize mMaxSize]; try assumption.
      * rewrite total_size_app. simpl. lia.
      * rewrite Forall_app, Forall_singleton. split; [| exact Hkey].
        apply Forall_drop. assumption.
      * apply keys_distinct_snoc; [apply keys_distinct_drop; assumption |].
        apply Forall_drop. apply no_tie_of_miss; [apply Hkey | assumption..].
      * rewrite Forall_app, Forall_singleton. split;
          [apply Forall_drop; assumption |].
        exists fuel, (mShaper c), sh, (heap_next c).
        cbn [fst snd]. rewrite key_paint_new. exact Hcv.
    + rewrite Hmiss in Hget. injection Hget as <- <-.
      constructor; cbn [mCache mSize mMaxSize]; assumption.
Qed.

(** Every state valid calls lead to satisfies the invariant. *)
Lemma reachable_inv c : reachable env c -> cache_inv env c.
Proof.
  induction 1 as [| c fuel paint text start count contextCount dirFlags c' v
                    _ IH Hvalid Hget | c _ IH].
  - constructor; simpl; try constructor; lia.
  - eapply getValue_inv; eassumption.
  - destruct IH as [Hsize Hbudget Hmax _ _ _].
    constructor; simpl; try constructor; try assumption.
    + apply purge_size; [assumption | lia].
    + rewrite (purge_size env (mCache c) (mSize c)) by (assumption || lia). lia.
Qed.

End GetValue.

(** ** The cache: budget, bypass, totality, hits *)

Section CacheClaims.
Context {F : Type} `{FloatOrder F}.
Variable env : Env F.
Hypothesis max_size_range : 0 <= default_max_size env < 2 ^ 31.

Local Abbreviation Entry := (TextLayoutCacheKey F * TextLayoutValue F)%type.

Lemma entry_size_le_total (l : list Entry) e :
  e ∈ l -> entry_size env e <= total_size env l.
Proof.
  induction l as [| e0 l IH]; intros Hin.
  - apply elem_of_nil in Hin. contradiction.
  - apply elem_of_cons in Hin. simpl.
    pose proof (entry_size_range env e0). pose proof (total_size_nonneg env l).
    destruct Hin as [-> | Hin]; [lia | specialize (IH Hin); lia].
Qed.

Lemma key_getSize_tie (k k' : TextLayoutCacheKey F) :
  key_wf k -> key_wf k' -> compare k k' = 0 ->
  key_getSize env k = key_getSize env k'.
Proof.
  intros Hk Hk' Hc. apply compare_zero_iff_tie in Hc; [| assumption..].
  destruct Hc as (_ & _ & Hx & _).
  unfold key_getSize, TextLayoutCacheKey_getSize. rewrite Hx. reflexivity.
Qed.

(** C4.  In every state valid calls lead to, in particular after every
    completed [getValue], [mSize] is the sum of [key.getSize() +
    value.getSize()] over the cached entries and does not exceed
    [mMaxSize]; and a call that inserts an entry of size [s <= mMaxSize]
    has dropped the least number [n] of oldest entries for which the rest
    and [s] fit the budget, each drop subtracting the size of the entry
    dropped. *)
Theorem cache_byte_count_invariant c :
  reachable env c ->
  (mSize c = total_size env (mCache c) /\ 0 <= mSize c <= mMaxSize c) /\
  forall fuel paint text start count contextCount dirFlags c' v,
    valid_request paint text start count contextCount dirFlags ->
    let key := TextLayoutCacheKey_new paint text start count contextCount dirFlags in
    getValue env fuel c paint text start count contextCount dirFlags
      = Returns (c', Some v) ->
    GenerationCache_find (mCache c) key = None ->
    entry_size env (key, v) <= mMaxSize c ->
    exists n,
      mCache c' = drop n (mCache c) ++ [(key, v)]
      /\ mSize c' = mSize c - total_size env (take n (mCache c))
                    + entry_size env (key, v)
      /\ mSize c' <= mMaxSize c'
      /\ forall m, (m < n)%nat ->
           mMaxSize c
           < mSize c - total_size env (take m (mCache c)) + entry_size env (key, v).
Proof.
  intros Hreach. pose proof (reachable_inv env max_size_range c Hreach) as Hinv.
  split.
  - destruct Hinv as [Hsize Hbudget _ _ _ _].
    pose proof (total_size_nonneg env (mCache c)). lia.
  - intros fuel paint text start count contextCount dirFlags c' v Hvalid key
           Hget Hfind Hfit.
    destruct (getValue_cases env max_size_range fuel c paint text start count
                contextCount dirFlags Hinv Hvalid)
      as [(e & l1 & l2 & Hl & Hc & _) | [_ Hmiss]].
    + apply GenerationCache_find_None in Hfind. rewrite Hl in Hfind.
      rewrite Forall_app, Forall_cons in Hfind. tauto.
    + fold key in Hmiss.
      destruct (computeValues env fuel (mShaper c) paint _ start count
                  contextCount dirFlags _) as [[sh v0] |];
        [| rewrite Hmiss in Hget; discriminate].
      cbv zeta in Hmiss.
      assert (Hsplit : forall m, total_size env (drop m (mCache c))
                = mSize c - total_size env (take m (mCache c))).
      { intros m. destruct Hinv as [Hsize _ _ _ _ _]. rewrite Hsize.
        rewrite <- (take_drop m (mCache c)) at 2. rewrite total_size_app. lia. }
      destruct (Z.leb_spec (entry_size env (key, v0)) (mMaxSize c)) as [Hle | Hgt].
      * destruct Hmiss as (n & Heq & Hroom & Hmin).
        rewrite Heq in Hget. injection Hget as <- <-.
        exists n. cbn [mCache mSize mMaxSize]. rewrite <- Hsplit.
        repeat split; [assumption |].
        intros m Hm. rewrite <- Hsplit. apply Hmin. assumption.
      * rewrite Hmiss in Hget. injection Hget as <- <-. lia.
Qed.

(** C5.  A valid call returns a value, and when the entry it would make
    exceeds [mMaxSize] the cache is as before: the same entries in the
    same order, the same [mSize], the same [mMaxSize]. *)
Theorem oversize_bypass fuel c paint text start count contextCount dirFlags :
  shaper_contract env -> (2 <= fuel)%nat ->
  reachable env c ->
  valid_request paint text start count contextCount dirFlags ->
  let key := TextLayoutCacheKey_new paint text start count contextCount dirFlags in
  exists c' v,
    getValue env fuel c paint text start count contextCount dirFlags
      = Returns (c', Some v)
    /\ (mMaxSize c < entry_size env (key, v) ->
        mCache c' = mCache c /\ mSize c' = mSize c /\ mMaxSize c' = mMaxSize c).
Proof.
  intros Hcontract Hfuel Hreach Hvalid key.
  pose proof (reachable_inv env max_size_range c Hreach) as Hinv.
  destruct (getValue_cases env max_size_range fuel c paint text start count
              contextCount dirFlags Hinv Hvalid)
    as [(e & l1 & l2 & Hl & Hc & Heq) | [_ Hmiss]].
  - eexists _, _. split; [exact Heq |]. fold key in Hc. intros Hbig. exfalso.
    destruct Hinv as [Hsize Hbudget _ Hkeys _ _].
    assert (Hin : e ∈ mCache c)
      by (rewrite Hl, elem_of_app, elem_of_cons; auto).
    pose proof (entry_size_le_total _ _ Hin) as Hle.
    rewrite Forall_forall in Hkeys. destruct (Hkeys e Hin) as [Hwf _].
    pose proof (valid_request_key _ _ _ _ _ _ Hvalid) as [Hkwf _].
    assert (entry_size env (key, snd e) = entry_size env e).
    { unfold entry_size. cbn [fst snd].
      rewrite (key_getSize_tie (fst e) key) by assumption. reflexivity. }
    lia.
  - fold key in Hmiss.
    destruct (computeValues_returns env fuel (mShaper c) paint (textCopy key)
                start count contextCount dirFlags
                (TextLayoutValue_new env contextCount (heap_next c))
                Hcontract Hfuel) as (sh & v & Hcv).
    rewrite Hcv in Hmiss. cbv zeta in Hmiss.
    destruct (Z.leb_spec (entry_size env (key, v)) (mMaxSize c)) as [Hle | Hgt].
    + destruct Hmiss as (n & Heq & _). eexists _, _. split; [exact Heq |]. lia.
    + eexists _, _. split; [exact Hmiss |]. intros _. auto.
Qed.

End CacheClaims.

(** ** Loops over index ranges *)

Lemma foldl_preserves {A B} (f : A -> B -> A) (Q : A -> Prop) (l : list B) :
  (forall a i, Q a -> Q (f a i)) -> forall a0, Q a0 -> Q (foldl f a0 l).
Proof.
  intros Hstep. induction l as [| i l IH]; intros a0 H0; simpl; auto.
Qed.

(** A loop [for (i = lo; i < lo + n; i++)] keeps an invariant indexed by
    the loop counter. *)
Lemma foldl_seqZ_invariant {A} (f : A -> Z -> A) (P : Z -> A -> Prop)
    (lo : Z) (a0 : A) (k : nat) :
  P lo a0 ->
  (forall i a, lo <= i < lo + Z.of_nat k -> P i a -> P (i + 1) (f a i)) ->
  P (lo + Z.of_nat k) (foldl f a0 (seqZ lo (Z.of_nat k))).
Proof.
  intros H0. induction k as [| k IH]; intros Hstep.
  - rewrite seqZ_nil by lia. simpl. rewrite Z.add_0_r. assumption.
  - rewrite seqZ_S, foldl_app. simpl.
    replace (lo + Z.of_nat (S k)) with (lo + Z.of_nat k + 1) by lia.
    apply Hstep; [lia |]. apply IH. intros i a Hi. apply Hstep. lia.
Qed.

Lemma sumZ_add (f g : Z -> Z) (l : list Z) :
  sumZ (fun i => f i + g i) l = sumZ f l + sumZ g l.
Proof. induction l as [| i l IH]; simpl; [reflexivity | rewrite IH; lia]. Qed.

Lemma sumZ_ext (f g : Z -> Z) (l : list Z) :
  Forall (fun i => f i = g i) l -> sumZ f l = sumZ g l.
Proof.
  induction 1 as [| i l Hi _ IH]; simpl; [reflexivity | rewrite Hi, IH; lia].
Qed.

Lemma sumZ_indicator (b : Z -> bool) (l : list Z) :
  sumZ (fun i => if b i then 1 else 0) l = Z.of_nat (length (filter b l)).
Proof.
  induction l as [| i l IH]; simpl; [reflexivity |].
  rewrite filter_cons. destruct (decide (b i)) as [Ht | Hf].
  - apply Is_true_eq_true in Ht. rewrite Ht. simpl. lia.
  - destruct (b i); [exfalso; apply Hf; exact I | lia].
Qed.

Lemma sumZ_zero (f : Z -> Z) (l : list Z) :
  Forall (fun i => f i = 0) l -> sumZ f l = 0.
Proof. induction 1 as [| i l Hi _ IH]; simpl; lia. Qed.

(** ** The visual runs against the window *)

Lemma clipped_length_step visual_run start e i :
  start <= e ->
  clipped_length visual_run start (e + 1) i
  = clipped_length visual_run start e i
    + (if run_covers (visual_run i) e then 1 else 0).
Proof.
  intros Hse. unfold clipped_length, run_covers.
  destruct (visual_run i) as [[runDir startRun] lengthRun]. cbn [fst snd].
  destruct (Z.leb_spec startRun e); destruct (Z.ltb_spec e (startRun + lengthRun));
    simpl; lia.
Qed.

Lemma clipped_length_empty visual_run start i :
  clipped_length visual_run start start i = 0.
Proof. unfold clipped_length. lia. Qed.

(** The clipped lengths of tiling runs add up to the length of the
    window. *)
Lemma clipped_lengths_sum visual_run rc contextCount start (k : nat) :
  visual_runs_tile visual_run rc contextCount ->
  0 <= start -> start + Z.of_nat k <= contextCount ->
  sumZ (clipped_length visual_run start (start + Z.of_nat k)) (seqZ 0 rc)
  = Z.of_nat k.
Proof.
  intros [_ Hcover] Hstart. induction k as [| k IH]; intros Hend.
  - rewrite Z.add_0_r. apply sumZ_zero, Forall_forall.
    intros i _. apply clipped_length_empty.
  - replace (start + Z.of_nat (S k)) with (start + Z.of_nat k + 1) by lia.
    rewrite (sumZ_ext _ (fun i =>
               clipped_length visual_run start (start + Z.of_nat k) i
               + (if run_covers (visual_run i) (start + Z.of_nat k) then 1 else 0)))
      by (apply Forall_forall; intros i _; apply clipped_length_step; lia).
    rewrite sumZ_add, IH by lia.
    rewrite (sumZ_indicator (fun i => run_covers (visual_run i) (start + Z.of_nat k))).
    rewrite Hcover by lia. lia.
Qed.

(** ** The length of the advances *)

Section AdvanceLength.
Context {F : Type} `{FloatOps F}.
Variable env : Env F.

Lemma Vector_size_replaceAt {A} (v : Vector A) x index :
  Vector_size (Vector_replaceAt v x index) = Vector_size v.
Proof.
  unfold Vector_replaceAt, Vector_size.
  destruct (_ && _); simpl; [rewrite length_insert |]; reflexivity.
Qed.

Lemma Vector_size_add {A} (v : Vector A) x :
  Vector_size (Vector_add env v x) = Vector_size v + 1.
Proof. unfold Vector_add, Vector_size. simpl. rewrite length_app. simpl. lia. Qed.

Lemma cluster_loop_size a startScriptRun countScriptRun l : forall st,
  Vector_size (snd (foldl (cluster_step a startScriptRun countScriptRun) st l))
  = Vector_size (snd st).
Proof.
  induction l as [| i l IH]; intros st; simpl; [reflexivity |].
  rewrite IH. destruct st as [[t cs] adv]. unfold cluster_step.
  destruct (negb _); simpl; [apply Vector_size_replaceAt | reflexivity].
Qed.

Lemma script_run_body_advances_length sh base item isRTL skewX t v :
  advances_length (snd (script_run_body env sh base item isRTL skewX t v))
  = advances_length v.
Proof.
  unfold script_run_body. destruct (_ || _); [reflexivity |]. cbv zeta.
  pose proof (cluster_loop_size (mShaperItem sh) (item_pos item) (item_length item)
                (seqZ 0 (item_length item)) (fzero, 0, mAdvances v)) as Hl.
  destruct (foldl _ _ _) as [[tf cs] adv]. simpl in *. exact Hl.
Qed.

Lemma script_runs_loop_advances_length fuel runs :
  forall sh paint string isRTL t v sh' t' v',
  script_runs_loop env fuel runs sh paint string isRTL t v = Some (sh', t', v') ->
  advances_length v' = advances_length v.
Proof.
  induction runs as [| item rest IH]; intros sh paint string isRTL t v sh' t' v';
    cbn [script_runs_loop].
  - intros [= _ _ <-]. reflexivity.
  - destruct (shapeFontRun env fuel sh paint string item isRTL) as [[sh1 base] |];
      [| discriminate].
    pose proof (script_run_body_advances_length sh1 base item isRTL
                  (paint_textSkewX paint) t v) as Hb.
    destruct (script_run_body _ _ _ _ _ _ _) as [t1 v1]. simpl in Hb.
    intros Hloop. apply IH in Hloop. congruence.
Qed.

Lemma add_zeros_size (v : Vector F) (count : Z) :
  0 <= count ->
  Vector_size (foldl (fun a _ => Vector_add env a fzero) v (seqZ 0 count))
  = Vector_size v + count.
Proof.
  intros Hc. rewrite <- (Z2Nat.id count) by assumption.
  generalize (Z.to_nat count) as k. clear Hc. intros k.
  pose proof (foldl_seqZ_invariant (fun a (_ : Z) => Vector_add env a fzero)
                (fun i a => Vector_size a = Vector_size v + i) 0 v k) as Hinv.
  simpl in Hinv. apply Hinv; [lia |].
  intros i a _ Hi. rewrite Vector_size_add. lia.
Qed.

(** [computeRunValues] appends one advance per character of the run. *)
Lemma computeRunValues_advances_length fuel sh paint chars count isRTL v sh' v' :
  0 <= count ->
  computeRunValues env fuel sh paint chars count isRTL v = Some (sh', v') ->
  advances_length v' = advances_length v + count.
Proof.
  intros Hc. unfold computeRunValues.
  destruct (Z.eqb_spec count 0) as [-> | Hne].
  - intros [= _ <-]. lia.
  - cbv zeta.
    destruct (script_runs_loop _ _ _ _ _ _ _ _ _) as [[[sh1 t1] v1] |] eqn:Hloop;
      [| discriminate].
    intros [= _ <-]. apply script_runs_loop_advances_length in Hloop.
    unfold advances_length in *. simpl in *. rewrite Hloop.
    apply add_zeros_size. assumption.
Qed.

(** The loop over tiling visual runs never leaves through [break] and
    appends the clipped length of every run. *)
Lemma visual_runs_loop_advances_length fuel visual_run rc contextCount
    paraDir paint chars start end_ indices :
  visual_runs_tile visual_run rc contextCount ->
  contextCount < 2 ^ 31 -> 0 <= start -> start <= end_ -> end_ <= contextCount ->
  Forall (fun i => 0 <= i < rc) indices ->
  forall sh v sh' v' d,
  visual_runs_loop env fuel indices visual_run paraDir sh paint chars start end_ v
    = Some (sh', v', d) ->
  d = None /\
  advances_length v'
  = advances_length v + sumZ (clipped_length visual_run start end_) indices.
Proof.
  intros [Hruns _] Hctx Hstart Hwin Hend.
  induction 1 as [| i rest Hi _ IH]; intros sh v sh' v' d; cbn [visual_runs_loop].
  - intros [= _ <- <-]. simpl. split; [reflexivity | lia].
  - specialize (Hruns i Hi).
    change (sumZ (clipped_length visual_run start end_) (i :: rest))
      with (clipped_length visual_run start end_ i
            + sumZ (clipped_length visual_run start end_) rest).
    unfold clipped_length at 1.
    destruct (visual_run i) as [[runDir startRun] lengthRun]. cbn [fst snd] in *.
    destruct Hruns as (Hs & Hlen & Hfit).
    destruct (Z.eqb_spec startRun (-1)); [lia |].
    destruct (Z.eqb_spec lengthRun (-1)); [lia |]. cbn [orb].
    assert (Hi32 : forall z, 0 <= z <= contextCount -> to_int32 z = z)
      by (intros z Hz; apply to_int32_small; unfold in_int32;
          change (2 ^ 31) with 2147483648 in *; lia).
    rewrite (Hi32 (startRun + lengthRun)), (Hi32 start) by lia.
    destruct (Z.geb_spec startRun end_) as [Hge | Hlt].
    { intros Hloop. apply IH in Hloop. destruct Hloop as [-> ->].
      split; [reflexivity | lia]. }
    destruct (Z.leb_spec (startRun + lengthRun) start) as [Hle | Hgt].
    { intros Hloop. apply IH in Hloop. destruct Hloop as [-> ->].
      split; [reflexivity | lia]. }
    cbv zeta.
    set (startRun' := if startRun <? start then start else startRun).
    set (endRun' := if startRun + lengthRun >? end_ then end_
                    else startRun + lengthRun).
    assert (Hs' : startRun' = Z.max startRun start)
      by (unfold startRun'; destruct (Z.ltb_spec startRun start); lia).
    assert (He' : endRun' = Z.min (startRun + lengthRun) end_)
      by (unfold endRun'; destruct (Z.gtb_spec (startRun + lengthRun) end_); lia).
    assert (Hlen' : wrap32 (to_int32 (endRun' - startRun')) = endRun' - startRun')
      by (rewrite Hi32 by lia; apply wrap32_small; unfold in_size_t;
          change (2 ^ 32) with 4294967296; change (2 ^ 31) with 2147483648 in *;
          lia).
    rewrite Hlen'.
    destruct (computeRunValues env fuel sh paint _ _ _ v) as [[sh1 v1] |] eqn:Hrun;
      [| discriminate].
    apply computeRunValues_advances_length in Hrun; [| lia].
    intros Hloop. apply IH in Hloop. destruct Hloop as [-> ->].
    split; [reflexivity | lia].
Qed.

(** On tiling visual runs [computeValues] fills a value that held no
    advances with one advance per character of the window. *)
Lemma computeValues_advances_length fuel sh paint chars start count contextCount
    dirFlags v sh' v' :
  bidi_contract env ->
  0 <= start -> 0 <= count -> start + count <= contextCount ->
  contextCount < 2 ^ 31 ->
  advances_length v = 0 ->
  computeValues env fuel sh paint chars start count contextCount dirFlags v
    = Some (sh', v') ->
  advances_length v' = count.
Proof.
  intros Hbidi Hstart Hcount Hwin Hctx Hv. unfold computeValues. cbv zeta.
  set (v0 := set_totalAdvance v fzero).
  assert (Hv0 : advances_length v0 = 0) by exact Hv.
  assert (Hsingle : forall isRTL sh1 v1 sh2 v2,
             advances_length v1 = 0 ->
             computeRunValues env fuel sh1 paint (drop (Z.to_nat start) chars)
                              count isRTL v1 = Some (sh2, v2) ->
             advances_length v2 = count).
  { intros isRTL sh1 v1 sh2 v2 H1 Hrun.
    apply computeRunValues_advances_length in Hrun; lia. }
  destruct (Z.eqb_spec count 0) as [-> | Hne].
  { intros [= _ <-]. exact Hv0. }
  destruct (bidi_request dirFlags) as [[bidiReq forceLTR] forceRTL].
  destruct (forceLTR || forceRTL); [apply Hsingle; assumption |].
  pose proof (Hbidi chars contextCount bidiReq) as Htile.
  destruct (ubidi env chars contextCount bidiReq)
    as [| | paraLevel ok rc visual_run]; try (apply Hsingle; assumption).
  destruct ok; cbn [andb negb orb].
  - destruct (Z.eqb_spec rc 1); [apply Hsingle; assumption |].
    destruct (Z.ltb_spec rc 1); [apply Hsingle; assumption |].
    specialize (Htile ltac:(lia)).
    assert (Hend : to_int32 (start + count) = start + count)
      by (apply to_int32_small; unfold in_int32;
          change (2 ^ 31) with 2147483648 in *; lia).
    rewrite Hend.
    destruct (visual_runs_loop _ _ _ _ _ _ _ _ _ _ _) as [[[sh1 v1] d] |] eqn:Hloop;
      [| discriminate].
    eapply visual_runs_loop_advances_length in Hloop;
      [| exact Htile | assumption | assumption | lia | lia
       | apply Forall_seqZ; intros; lia].
    destruct Hloop as [-> Hlen]. intros [= _ <-].
    rewrite Hlen, Hv0.
    rewrite <- (Z2Nat.id count) at 1 2 by assumption.
    rewrite (clipped_lengths_sum visual_run rc contextCount start (Z.to_nat count))
      by (assumption || lia).
    lia.
  - apply Hsingle; assumption.
Qed.

Lemma advances_length_new contextCount addr :
  advances_length (TextLayoutValue_new env contextCount addr) = 0.
Proof. reflexivity. Qed.

End AdvanceLength.

Section ComputedValues.
Context {F : Type} `{FloatOrder F}.
Variable env : Env F.
Hypothesis max_size_range : 0 <= default_max_size env < 2 ^ 31.

(** A valid call on a reachable cache for which the shaper returns yields
    a value computed for a key that ties with the key of the call. *)
Lemma getValue_returns_computed fuel c paint text start count contextCount dirFlags :
  reachable env c ->
  valid_request paint text start count contextCount dirFlags ->
  let key := TextLayoutCacheKey_new paint text start count contextCount dirFlags in
  (exists sh v,
     computeValues env fuel (mShaper c) paint (textCopy key) start count
                   contextCount dirFlags
                   (TextLayoutValue_new env contextCount (heap_next c))
     = Some (sh, v)) ->
  exists c' v k,
    getValue env fuel c paint text start count contextCount dirFlags
      = Returns (c', Some v)
    /\ key_is_request k /\ compare k key = 0 /\ computed_for env k v.
Proof.
  intros Hreach Hvalid key (sh & v & Hcv).
  pose proof (reachable_inv env max_size_range c Hreach) as Hinv.
  pose proof (valid_request_key _ _ _ _ _ _ Hvalid) as Hkey. fold key in Hkey.
  destruct (getValue_cases env max_size_range fuel c paint text start count
              contextCount dirFlags Hinv Hvalid)
    as [(e & l1 & l2 & Hl & Hc & Heq) | [_ Hmiss]].
  - eexists _, (snd e), (fst e). split; [exact Heq |].
    destruct Hinv as [_ _ _ Hkeys _ Hcomp].
    assert (Hin : e ∈ mCache c)
      by (rewrite Hl, elem_of_app, elem_of_cons; auto).
    rewrite Forall_forall in Hkeys, Hcomp. auto.
  - fold key in Hmiss. rewrite Hcv in Hmiss. cbv zeta in Hmiss.
    assert (Hcomputed : computed_for env key v).
    { exists fuel, (mShaper c), sh, (heap_next c).
      unfold key at 1. rewrite key_paint_new. exact Hcv. }
    destruct (entry_size env (key, v) <=? mMaxSize c).
    + destruct Hmiss as (n & Heq & _). eexists _, v, key.
      split; [exact Heq |]. split; [exact Hkey |].
      split; [apply compare_refl, Hkey | exact Hcomputed].
    + eexists _, v, key. split; [exact Hmiss |]. split; [exact Hkey |].
      split; [apply compare_refl, Hkey | exact Hcomputed].
Qed.

End ComputedValues.

(** ** The value a call returns *)

Section ValueClaims.
Context {F : Type} `{FloatOrder F}.
Variable env : Env F.
Hypothesis max_size_range : 0 <= default_max_size env < 2 ^ 31.

(** C1, as the code has it.  For every valid request, on visual runs
    that tile the context, the value [getValue] returns holds exactly
    [count] advances, where the claim has [contextCount].  Nothing is
    stated here about which slot holds the advance of which
    character. *)
Theorem advances_sized_by_count fuel c paint text start count contextCount dirFlags :
  shaper_contract env -> bidi_contract env -> (2 <= fuel)%nat ->
  reachable env c ->
  valid_request paint text start count contextCount dirFlags ->
  exists c' v,
    getValue env fuel c paint text start count contextCount dirFlags
      = Returns (c', Some v)
    /\ Z.of_nat (length (items (mAdvances v))) = count.
Proof.
  intros Hshaper Hbidi Hfuel Hreach Hvalid.
  destruct (getValue_returns_computed env max_size_range fuel c paint text start
              count contextCount dirFlags Hreach Hvalid)
    as (c' & v & k & Hget & Hk & Hc & Hcomp).
  { destruct (computeValues_returns env fuel (mShaper c) paint
                (textCopy (TextLayoutCacheKey_new paint text start count
                                                  contextCount dirFlags))
                start count contextCount dirFlags
                (TextLayoutValue_new env contextCount (heap_next c))
                Hshaper Hfuel) as (sh & v & Hcv).
    eauto. }
  exists c', v. split; [exact Hget |].
  destruct Hk as (Hwf & Hs & Hn & Hw).
  pose proof (valid_request_key _ _ _ _ _ _ Hvalid) as [Hkwf _].
  destruct (compare_tie_positions k _ Hwf Hkwf Hc) as (_ & Hcount & _).
  simpl in Hcount. rewrite <- Hcount.
  destruct Hcomp as (fuel0 & sh0 & sh1 & addr & Hcv).
  pose proof (wf_contextCount _ Hwf) as Hctx.
  apply (computeValues_advances_length env fuel0 sh0 _ _ _ _ _ _ _ sh1 v
           Hbidi Hs Hn Hw (proj2 Hctx) (advances_length_new env _ _) Hcv).
Qed.

(** C9.  A valid request with [count == 0] returns a value whose total
    advance is zero and whose glyphs, positions and advances are empty,
    so that every advance it holds is zero. *)
Theorem empty_count_value fuel c paint text start contextCount dirFlags :
  reachable env c ->
  valid_request paint text start 0 contextCount dirFlags ->
  exists c' v,
    getValue env fuel c paint text start 0 contextCount dirFlags
      = Returns (c', Some v)
    /\ mTotalAdvance v = fzero
    /\ items (mGlyphs v) = [] /\ items (mPos v) = []
    /\ items (mAdvances v) = []
    /\ Forall (fun a => a = fzero) (items (mAdvances v)).
Proof.
  intros Hreach Hvalid.
  destruct (getValue_returns_computed env max_size_range fuel c paint text start
              0 contextCount dirFlags Hreach Hvalid)
    as (c' & v & k & Hget & Hk & Hc & Hcomp).
  { unfold computeValues. simpl. eauto. }
  exists c', v. split; [exact Hget |].
  destruct Hk as (Hwf & _).
  pose proof (valid_request_key _ _ _ _ _ _ Hvalid) as [Hkwf _].
  destruct (compare_tie_positions k _ Hwf Hkwf Hc) as (_ & Hcount & _).
  simpl in Hcount.
  destruct Hcomp as (fuel0 & sh0 & sh1 & addr & Hcv).
  unfold computeValues in Hcv. rewrite Hcount in Hcv. simpl in Hcv.
  injection Hcv as _ <-. simpl. repeat split; constructor.
Qed.

(** C10.  Under the shaper contract [getValue] never runs out of shaping
    attempts, whatever the state of the cache and whatever the
    arguments: it returns a value, which is never NULL, or stops in one
    of the two fatal checks; and on a valid request in a state valid
    calls lead to, no fatal check fires. *)
Theorem getValue_total fuel c paint text start count contextCount dirFlags :
  shaper_contract env -> (2 <= fuel)%nat ->
  ((exists c' v,
      getValue env fuel c paint text start count contextCount dirFlags
        = Returns (c', Some v))
   \/ getValue env fuel c paint text start count contextCount dirFlags = Aborts)
  /\ (reachable env c ->
      valid_request paint text start count contextCount dirFlags ->
      exists c' v,
        getValue env fuel c paint text start count contextCount dirFlags
          = Returns (c', Some v)).
Proof.
  intros Hshaper Hfuel. split.
  - unfold getValue.
    destruct (GenerationCache_get _ _) as [[value entries] |]; [eauto |].
    match goal with
    | |- context [computeValues env fuel ?s ?p ?t ?a ?b ?x ?d ?w] =>
        destruct (computeValues_returns env fuel s p t a b x d w Hshaper Hfuel)
          as (sh & v & ->)
    end.
    cbv zeta. destruct (_ <=? _); [| eauto].
    destruct (make_room _ _ _ _ _) as [[entries mSize1] |]; [| auto].
    destruct (GenerationCache_put _ _ _); eauto.
  - intros Hreach Hvalid.
    destruct (getValue_returns_computed env max_size_range fuel c paint text start
                count contextCount dirFlags Hreach Hvalid)
      as (c' & v & k & Hget & _); [| eauto].
    destruct (computeValues_returns env fuel (mShaper c) paint
                (textCopy (TextLayoutCacheKey_new paint text start count
                                                  contextCount dirFlags))
                start count contextCount dirFlags
                (TextLayoutValue_new env contextCount (heap_next c))
                Hshaper Hfuel) as (sh & v & Hcv).
    eauto.
Qed.

End ValueClaims.

(** ** IEEE comparison *)

Lemma SFcompare_swap (a b : spec_float) :
  SFcompare b a = option_map CompOpp (SFcompare a b).
Proof.
  destruct a as [sa | sa | | sa ma ea], b as [sb | sb | | sb mb eb];
    simpl; try reflexivity;
    try (destruct sa; reflexivity); try (destruct sb; reflexivity);
    try (destruct sa, sb; reflexivity).
  pose proof (Pos.compare_cont_antisym ma mb Eq) as Hm. simpl in Hm.
  destruct sa, sb; simpl; try reflexivity;
    rewrite (Z.compare_antisym ea eb);
    destruct (ea ?= eb)%Z; simpl; try reflexivity;
    rewrite <- Hm; destruct (Pos.compare_cont Eq ma mb); reflexivity.
Qed.

Lemma SFcompare_refl (a : spec_float) :
  SFcompare a a = Some Eq \/ SFcompare a a = None.
Proof.
  destruct a as [s | s | | s m e]; simpl; auto.
  - destruct s; auto.
  - rewrite Z.compare_refl, Pos.compare_cont_refl. destruct s; auto.
Qed.

#[export] Instance ieee_single_order : FloatOrder spec_float.
Proof.
  split.
  - intros a b. simpl. unfold SFgtb, SFltb. rewrite (SFcompare_swap a b).
    destruct (SFcompare a b) as [[] |]; reflexivity.
  - intros a. simpl. unfold SFltb.
    destruct (SFcompare_refl a) as [-> | ->]; reflexivity.
Qed.

Lemma ieee_tie_iff (a b : spec_float) : float_tie a b <-> unordered_or_equal a b.
Proof.
  unfold float_tie, unordered_or_equal. simpl. unfold SFltb, SFgtb.
  destruct (SFcompare a b) as [[] |]; split; intros; auto;
    try (destruct_and?; discriminate); try (destruct_or?; discriminate).
Qed.

(** C7, as the code has it.  Two keys within the ranges of their field
    types compare as 0 exactly when their integer and identity fields
    are equal, their code units are equal, and each of [textSize],
    [textSkewX] and [textScaleX] is equal as a number to its counterpart
    or unordered with it, as a NaN is with every float. *)
Theorem compare_zero_iff_fields_tie (l r : TextLayoutCacheKey spec_float) :
  key_wf l -> key_wf r ->
  compare l r = 0 <->
  start l = start r /\ count l = count r /\
  contextCount l = contextCount r /\ typeface l = typeface r /\
  unordered_or_equal (textSize l) (textSize r) /\
  unordered_or_equal (textSkewX l) (textSkewX r) /\
  unordered_or_equal (textScaleX l) (textScaleX r) /\
  flags l = flags r /\ hinting l = hinting r /\ dirFlags l = dirFlags r /\
  variant l = variant r /\ language l = language r /\
  textCopy l = textCopy r.
Proof.
  intros Hl Hr. rewrite (compare_zero_iff_tie l r Hl Hr). unfold key_tie.
  rewrite !ieee_tie_iff. reflexivity.
Qed.

(** ** The glyph arrays of the shaper *)

Section ShaperBuffers.
Context {F : Type} `{FloatOps F}.
Variable env : Env F.

Lemma getCachedHBFace_arrays sh typeface :
  mShaperItemGlyphArraySize (fst (getCachedHBFace env sh typeface))
  = mShaperItemGlyphArraySize sh.
Proof.
  unfold getCachedHBFace. destruct (_ !! _); [reflexivity |].
  destruct (negb _); reflexivity.
Qed.

(** C8, as the code has it.  For a script run of [length] characters the
    first attempt is made on the arrays the shaper holds when they have
    at least [floor(1.5 * length)] entries (which is at least 1), and on
    new arrays of exactly that many entries otherwise.  Under the shaper
    contract, if that attempt fails reporting [required] glyphs, the
    arrays are replaced by arrays of [2 * required] entries, the retry is
    made on them with [offsets] zeroed and succeeds; so [shapeFontRun]
    returns after at most two attempts.  The arrays never get smaller,
    and [purgeCaches] leaves them as they are. *)
Theorem shaper_buffer_growth fuel sh paint string item (isRTL : bool) :
  shaper_contract env -> (2 <= fuel)%nat -> 0 < item_length item < 2 ^ 30 ->
  let item' := mkItem (item_pos item) (item_length item) (item_script item)
                      (if isRTL then 1 else 0) in
  let base := run_baseGlyphCount env paint string item' in
  let typeface := run_typeface env sh paint base (item_script item) in
  let face := snd (getCachedHBFace env sh typeface) in
  let paint' := shaping_paint paint typeface in
  let size := item_length item * 3 / 2 in
  let n1 := Z.max (mShaperItemGlyphArraySize sh) size in
  let r1 := HB_ShapeItem env (attempt string item' paint' face n1) in
  let required := num_glyphs (snd r1) in
  exists sh',
    shapeFontRun env fuel sh paint string item isRTL = Some (sh', base)
    /\ 1 <= size
    /\ mShaperItemGlyphArraySize sh <= mShaperItemGlyphArraySize sh'
    /\ (if fst r1
        then mShaperItemGlyphArraySize sh' = n1 /\ mShaperItem sh' = snd r1
        else mShaperItemGlyphArraySize sh' = 2 * required
             /\ n1 < required
             /\ req_offsets (attempt string item' paint' face (2 * required))
                = replicate (Z.to_nat (2 * required)) (0, 0)
             /\ HB_ShapeItem env (attempt string item' paint' face (2 * required))
                = (true, mShaperItem sh'))
    /\ mShaperItemGlyphArraySize (TextLayoutShaper_purgeCaches env sh')
       = mShaperItemGlyphArraySize sh'.
Proof.
  intros Hc Hfuel Hlen item' base typeface face paint' size n1 r1 required.
  unfold shapeFontRun. cbv zeta. fold item'. fold base.
  change (item_script item') with (item_script item). fold typeface.
  pose proof (getCachedHBFace_arrays sh typeface) as Hsize.
  unfold face in *. destruct (getCachedHBFace env sh typeface) as [sh1 face1].
  cbn [fst snd] in *. fold paint'.
  assert (Hw : wrap32 (item_length item' * 3) / 2 = size).
  { unfold size, item'. cbn [item_length]. f_equal. apply wrap32_small.
    unfold in_size_t. change (2 ^ 32) with 4294967296.
    change (2 ^ 30) with 1073741824 in *. lia. }
  rewrite Hw.
  destruct (shaping_loop_protocol env fuel sh1 string item' paint' face1 size
                                  Hc Hfuel)
    as (sh' & -> & _ & _ & Hmono & Hcases).
  unfold first_capacity in Hcases. rewrite Hsize in Hcases, Hmono.
  fold n1 in Hcases. fold r1 in Hcases. fold required in Hcases.
  exists sh'. split; [reflexivity |].
  split; [unfold size; apply Z.div_le_lower_bound; lia |].
  split; [exact Hmono |].
  split; [| reflexivity].
  destruct (fst r1); [exact Hcases |].
  destruct Hcases as (? & ? & _ & ?). auto.
Qed.

Lemma fallback_isRTL_true (bidiReq : Z) : fallback_isRTL bidiReq = true.
Proof. reflexivity. Qed.

End ShaperBuffers.

(** ** The length of the string handed to the shaper *)

Section ShapingString.
Context {F : Type} `{FloatOps F}.
Variable env : Env F.

Lemma length_setCharAt s offset c : length (setCharAt s offset c) = length s.
Proof.
  unfold setCharAt. destruct (0 <? _); [apply length_insert | reflexivity].
Qed.

Lemma ensure_normalized_sized chars count st :
  norm_sized chars count st ->
  length (mNormalizedString (ensure_normalized chars count st))
  = length (take (Z.to_nat count) chars).
Proof.
  unfold norm_sized, ensure_normalized.
  destruct (useNormalizedString st); simpl; auto.
Qed.

Lemma normalize_chunk_sized chars count i j st :
  norm_sized chars count st ->
  norm_sized chars count (normalize_chunk env chars count i j st).
Proof.
  intros Hst. unfold normalize_chunk.
  destruct (Normalizer_normalize env _ _) as [mBuffer error'].
  destruct (U_SUCCESS error'); intros Huse; simpl in *; [| auto].
  pose proof (ensure_normalized_sized chars count st Hst) as Hlen.
  rewrite <- Hlen.
  apply (foldl_preserves _ (fun s => length s = _)); [| ].
  - intros s k Hs. rewrite length_setCharAt. exact Hs.
  - apply (foldl_preserves _ (fun s => length s = _)); [| reflexivity].
    intros s k Hs. rewrite length_setCharAt. exact Hs.
Qed.

Lemma normalize_loop_sized n chars count : forall i st,
  norm_sized chars count st ->
  norm_sized chars count (normalize_loop env n chars count i st).
Proof.
  induction n as [| n IH]; intros i st Hst; simpl; [assumption |].
  destruct (i <? 0); [assumption |].
  destruct (is_diacritic env _); [| apply IH; assumption].
  destruct (find_main_code_point env chars _) as [j |]; [| assumption].
  apply IH, normalize_chunk_sized. assumption.
Qed.

Lemma mirror_step_sized chars count st i :
  norm_sized chars count st ->
  norm_sized chars count (mirror_step env chars count st i).
Proof.
  intros Hst. unfold mirror_step. destruct (negb _); [assumption |].
  intros _. simpl. rewrite length_setCharAt.
  apply ensure_normalized_sized. assumption.
Qed.

Lemma length_shaping_string chars count isRTL :
  0 <= count ->
  Z.of_nat (length (shaping_string env chars count isRTL)) <= count.
Proof.
  intros Hc. unfold shaping_string. cbv zeta.
  set (st1 := normalize_loop env _ chars count _ _).
  assert (H1 : norm_sized chars count st1)
    by (apply normalize_loop_sized; intros Hu; discriminate).
  set (st2 := if isRTL then _ else st1).
  assert (H2 : norm_sized chars count st2).
  { unfold st2. destruct isRTL; [| assumption].
    apply (foldl_preserves _ (norm_sized chars count)); [| assumption].
    intros st i. apply mirror_step_sized. }
  assert (Hl : (length (take (Z.to_nat count) chars) <= Z.to_nat count)%nat)
    by (rewrite length_take; lia).
  destruct (useNormalizedString st2) eqn:Hu; [rewrite (H2 Hu) |]; lia.
Qed.

End ShapingString.

(** ** The total advance as the code adds it up *)

Section CodeOrderSum.
Context {F : Type} `{FloatOps F}.
Variable env : Env F.

Lemma length_store_advances (g : list (Z * F)) : forall l : list F,
  length (store_advances l g) = length l.
Proof.
  induction g as [| p g IH]; intros l; [reflexivity |].
  unfold store_advances in *. simpl. rewrite IH. apply length_insert.
Qed.

Lemma store_advances_app (l : list F) (g1 g2 : list (Z * F)) :
  store_advances l (g1 ++ g2) = store_advances (store_advances l g1) g2.
Proof. apply foldl_app. Qed.

Lemma accumulated_total_app (t : F) (r1 r2 : list (list (Z * F))) :
  accumulated_total t (r1 ++ r2) = accumulated_total (accumulated_total t r1) r2.
Proof. apply foldl_app. Qed.

Lemma run_total_snoc (g : list (Z * F)) (s : Z) (x : F) :
  run_total (g ++ [(s, x)]) = fadd (run_total g) x.
Proof. unfold run_total. rewrite fmap_app, foldl_app. reflexivity. Qed.

Lemma StronglySorted_lt_NoDup (l : list Z) : StronglySorted Z.lt l -> NoDup l.
Proof.
  induction 1 as [| x l Hs IH Hall]; constructor; [| assumption].
  intros Hin. rewrite Forall_forall in Hall. specialize (Hall x Hin). lia.
Qed.

(** The loop over the characters of a script run: the clusters it found
    are a list of slots of increasing index, each with the advance stored
    there, and [totalFontRunAdvance] adds these advances in that order. *)
Lemma cluster_loop_stores a (adv0 : Vector F) pos len :
  0 <= pos -> 0 <= len -> pos + len <= Z.of_nat (length (items adv0)) ->
  pos + len < 2 ^ 32 ->
  exists run,
    fst (fst (foldl (cluster_step a pos len) (fzero, 0, adv0) (seqZ 0 len)))
      = run_total run
    /\ items (snd (foldl (cluster_step a pos len) (fzero, 0, adv0) (seqZ 0 len)))
       = store_advances (items adv0) run
    /\ StronglySorted Z.lt (run.*1)
    /\ Forall (fun s => pos <= s < pos + len) (run.*1).
Proof.
  intros Hpos Hlen Hsize Hbound.
  pose proof (foldl_seqZ_invariant (cluster_step a pos len)
                (fun i (st : F * Z * Vector F) =>
                   exists run,
                     0 <= snd (fst st) <= i
                     /\ fst (fst st) = run_total run
                     /\ items (snd st) = store_advances (items adv0) run
                     /\ StronglySorted Z.lt (run.*1)
                     /\ Forall (fun s => pos <= s < pos + snd (fst st)) (run.*1))
                0 (fzero, 0, adv0) (Z.to_nat len)) as Hinv.
  rewrite Z2Nat.id in Hinv by assumption. rewrite Z.add_0_l in Hinv.
  destruct Hinv as (run & Hcs & Htf & Hadv & Hsorted & Hslots).
  - exists []. cbn. repeat split; try lia; constructor.
  - intros i [[tf cs] adv] Hi (run & Hcs & Htf & Hadv & Hsorted & Hslots).
    cbn [fst snd] in *. unfold cluster_step.
    destruct (negb _).
    + set (advance := cluster_advance _ _ _).
      exists (run ++ [(pos + cs, advance)]). cbn [fst snd].
      assert (Hw : wrap32 (pos + cs) = pos + cs)
        by (apply wrap32_small; unfold in_size_t; lia).
      rewrite Hw. unfold Vector_replaceAt, Vector_size.
      assert (Hlen' : length (items adv) = length (items adv0))
        by (rewrite Hadv; apply length_store_advances).
      destruct (Z.leb_spec 0 (pos + cs)); [| lia].
      destruct (Z.ltb_spec (pos + cs) (Z.of_nat (length (items adv)))); [| lia].
      cbn [andb items]. split; [lia |].
      split; [rewrite run_total_snoc, Htf; reflexivity |].
      split; [rewrite store_advances_app, <- Hadv; reflexivity |].
      rewrite fmap_app. cbn [fmap list_fmap fst]. split.
      * apply StronglySorted_app_2; [| assumption | repeat constructor].
        intros x1 x2 Hx1 Hx2. apply list_elem_of_singleton in Hx2. subst x2.
        rewrite Forall_forall in Hslots. specialize (Hslots x1 Hx1). lia.
      * apply Forall_app. split.
        -- eapply Forall_impl; [exact Hslots |]. simpl. intros s. lia.
        -- constructor; [lia | constructor].
    + exists run. cbn [fst snd]. repeat split; try lia; assumption.
  - exists run. repeat split; try assumption.
    eapply Forall_impl; [exact Hslots |]. simpl. intros s. lia.
Qed.


(** One script run: it is left out when Harfbuzz gave no glyphs, and
    otherwise stores the advances of its clusters within its range and
    adds their total to the running total. *)
Lemma script_run_body_stores sh base item isRTL skewX t v :
  0 <= item_pos item -> 0 <= item_length item ->
  item_pos item + item_length item <= Z.of_nat (length (items (mAdvances v))) ->
  item_pos item + item_length item < 2 ^ 32 ->
  exists runs,
    fst (script_run_body env sh base item isRTL skewX t v)
      = accumulated_total t runs
    /\ items (mAdvances (snd (script_run_body env sh base item isRTL skewX t v)))
       = store_advances (items (mAdvances v)) (concat runs)
    /\ stored_once runs (item_pos item) (item_pos item + item_length item).
Proof.
  intros Hpos Hlen Hsize Hbound. unfold script_run_body.
  destruct (_ || _).
  - exists []. cbn. repeat split; constructor.
  - cbv zeta.
    destruct (cluster_loop_stores (mShaperItem sh) (mAdvances v) (item_pos item)
                (item_length item) Hpos Hlen Hsize Hbound)
      as (run & Htf & Hadv & Hsorted & Hslots).
    destruct (foldl _ _ _) as [[tf cs] adv]. cbn [fst snd] in *.
    exists [run]. unfold stored_once. cbn [concat]. rewrite app_nil_r. subst tf.
    repeat split; try assumption.
    + repeat constructor. assumption.
    + apply StronglySorted_lt_NoDup. assumption.
Qed.

Lemma script_runs_loop_stores fuel (len : Z) items_ :
  forall sh paint string isRTL t v sh' t' v',
  script_runs_within items_ len -> len < 2 ^ 32 -> script_runs_disjoint items_ ->
  len <= Z.of_nat (length (items (mAdvances v))) ->
  script_runs_loop env fuel items_ sh paint string isRTL t v = Some (sh', t', v') ->
  exists runs,
    t' = accumulated_total t runs
    /\ items (mAdvances v') = store_advances (items (mAdvances v)) (concat runs)
    /\ Forall (fun run => StronglySorted Z.lt (run.*1)) runs
    /\ NoDup ((concat runs).*1)
    /\ Forall (fun s => exists item, item ∈ items_ /\
                  item_pos item <= s < item_pos item + item_length item)
               ((concat runs).*1).
Proof.
  induction items_ as [| item rest IH];
    intros sh paint string isRTL t v sh' t' v' Hwithin Hlen Hdisj Hsize;
    cbn [script_runs_loop].
  - intros [= _ <- <-]. exists []. cbn. repeat split; constructor.
  - destruct (shapeFontRun env fuel sh paint string item isRTL) as [[sh1 base] |];
      [| discriminate].
    inversion Hwithin as [| ? ? (Hpos & Hpos' & Hfit) Hrest]; subst.
    destruct Hdisj as [Hcross Hdisj].
    destruct (script_run_body_stores sh1 base item isRTL (paint_textSkewX paint) t v)
      as (runs1 & Ht1 & Hadv1 & Hsorted1 & Hnodup1 & Hslots1); try lia.
    destruct (script_run_body _ _ _ _ _ _ _) as [t1 v1]. cbn [fst snd] in *.
    intros Hloop.
    assert (Hsize1 : len <= Z.of_nat (length (items (mAdvances v1))))
      by (rewrite Hadv1, length_store_advances; exact Hsize).
    destruct (IH _ _ _ _ _ _ _ _ _ Hrest Hlen Hdisj Hsize1 Hloop)
      as (runs2 & -> & Hadv2 & Hsorted2 & Hnodup2 & Hslots2).
    exists (runs1 ++ runs2).
    rewrite accumulated_total_app, concat_app, store_advances_app, fmap_app.
    subst t1. rewrite <- Hadv1. repeat split; try assumption.
    + apply Forall_app. split; assumption.
    + apply NoDup_app. split; [assumption |]. split; [| assumption].
      intros s Hs1 Hs2. rewrite Forall_forall in Hslots1.
      rewrite Forall_forall in Hslots2. rewrite Forall_forall in Hcross.
      specialize (Hslots1 s Hs1).
      destruct (Hslots2 s Hs2) as (item' & Hin & Hs).
      specialize (Hcross item' Hin). lia.
    + apply Forall_app. split.
      * eapply Forall_impl; [exact Hslots1 |]. simpl. intros s Hs.
        exists item. split; [apply list_elem_of_here | exact Hs].
      * eapply Forall_impl; [exact Hslots2 |]. simpl.
        intros s (item' & Hin & Hs).
        exists item'. split; [apply list_elem_of_further, Hin | exact Hs].
Qed.

Lemma add_zeros_items (v : Vector F) (count : Z) :
  0 <= count ->
  items (foldl (fun a _ => Vector_add env a fzero) v (seqZ 0 count))
  = items v ++ replicate (Z.to_nat count) fzero.
Proof.
  intros Hc.
  pose proof (foldl_seqZ_invariant (fun a (_ : Z) => Vector_add env a fzero)
                (fun i a => items a = items v ++ replicate (Z.to_nat i) fzero)
                0 v (Z.to_nat count)) as Hinv.
  rewrite Z2Nat.id in Hinv by assumption. rewrite Z.add_0_l in Hinv.
  apply Hinv.
  - simpl. rewrite app_nil_r. reflexivity.
  - intros i a Hi Ha. unfold Vector_add. cbn [items]. rewrite Ha.
    replace (Z.to_nat (i + 1)) with (S (Z.to_nat i)) by lia.
    rewrite replicate_S_end, app_assoc. reflexivity.
Qed.

(** A single run on a value without advances: [count] zeros, then the
    stores of the script runs; the total advance adds up what they
    stored. *)
Lemma computeRunValues_stores fuel sh paint chars count isRTL v sh' v' :
  script_run_contract env -> 0 <= count < 2 ^ 32 ->
  items (mAdvances v) = [] -> mTotalAdvance v = fzero ->
  computeRunValues env fuel sh paint chars count isRTL v = Some (sh', v') ->
  exists runs,
    mTotalAdvance v' = accumulated_total fzero runs
    /\ items (mAdvances v')
       = store_advances (replicate (Z.to_nat count) fzero) (concat runs)
    /\ stored_once runs 0 count.
Proof.
  intros Hscript Hcount Hempty Htotal. unfold computeRunValues.
  destruct (Z.eqb_spec count 0) as [-> | Hne].
  - intros [= _ <-]. exists []. rewrite Hempty, Htotal. cbn.
    repeat split; constructor.
  - cbv zeta.
    destruct (script_runs_loop _ _ _ _ _ _ _ _ _) as [[[sh1 t1] v1] |] eqn:Hloop;
      [| discriminate].
    intros [= _ <-]. cbn [mAdvances mTotalAdvance set_totalAdvance].
    destruct (Hscript isRTL (shaping_string env chars count isRTL))
      as [Hwithin Hdisj].
    pose proof (length_shaping_string env chars count isRTL ltac:(lia)) as Hlen.
    assert (Hwithin' : script_runs_within
              (hb_utf16_script_runs env isRTL (shaping_string env chars count isRTL))
              count).
    { eapply Forall_impl; [exact Hwithin |]. simpl. intros item. lia. }
    eapply (script_runs_loop_stores fuel count) in Hloop; try assumption; try lia.
    + destruct Hloop as (runs & -> & Hadv & Hsorted & Hnodup & Hslots).
      exists runs. rewrite Hadv.
      cbn [set_advances mAdvances mTotalAdvance].
      rewrite add_zeros_items, Hempty, Htotal by lia. cbn [app].
      repeat split; try assumption.
      eapply Forall_impl; [exact Hslots |]. simpl.
      intros s (item & Hin & Hs). unfold script_runs_within in Hwithin'.
      rewrite Forall_forall in Hwithin'. specialize (Hwithin' item Hin). lia.
    + cbn [set_advances mAdvances].
      rewrite add_zeros_items, Hempty by lia. cbn [app].
      rewrite length_replicate. lia.
Qed.

(** On the single-run path [computeValues] leaves the stores of that
    run. *)
Lemma computeValues_stores fuel sh paint chars start count contextCount dirFlags
    v sh' v' :
  script_run_contract env -> 0 <= count < 2 ^ 32 ->
  items (mAdvances v) = [] ->
  single_run_request env chars contextCount dirFlags = true ->
  computeValues env fuel sh paint chars start count contextCount dirFlags v
    = Some (sh', v') ->
  exists runs,
    mTotalAdvance v' = accumulated_total fzero runs
    /\ items (mAdvances v')
       = store_advances (replicate (Z.to_nat count) fzero) (concat runs)
    /\ stored_once runs 0 count.
Proof.
  intros Hscript Hcount Hempty. unfold single_run_request, computeValues.
  cbv zeta. set (v0 := set_totalAdvance v fzero).
  assert (Hsingle : forall isRTL sh1 sh2 v2,
             computeRunValues env fuel sh1 paint (drop (Z.to_nat start) chars)
                              count isRTL v0 = Some (sh2, v2) ->
             exists runs,
               mTotalAdvance v2 = accumulated_total fzero runs
               /\ items (mAdvances v2)
                  = store_advances (replicate (Z.to_nat count) fzero) (concat runs)
               /\ stored_once runs 0 count).
  { intros isRTL sh1 sh2 v2.
    apply computeRunValues_stores; [assumption | assumption | exact Hempty |].
    reflexivity. }
  destruct (Z.eqb_spec count 0) as [-> | Hne].
  { intros _ [= _ <-]. subst v0. exists []. cbn. rewrite Hempty.
    repeat split; constructor. }
  destruct (bidi_request dirFlags) as [[bidiReq forceLTR] forceRTL].
  destruct (forceLTR || forceRTL); [intros _; apply Hsingle |].
  destruct (ubidi env chars contextCount bidiReq)
    as [| | paraLevel ok rc visual_run]; try (intros _; apply Hsingle).
  cbn [orb].
  destruct (ok && (rc =? 1)); [intros _; apply Hsingle |].
  destruct (negb ok || (rc <? 1)); [intros _; apply Hsingle | discriminate].
Qed.

End CodeOrderSum.

Section TotalAdvanceClaim.
Context {F : Type} `{FloatOrder F}.
Variable env : Env F.
Hypothesis max_size_range : 0 <= default_max_size env < 2 ^ 31.

(** C3, as the code has it, in the arithmetic of the code's floats
    whatever it is.  For every valid request that is shaped as one run (a
    forced direction, bidi resolution unavailable, or resolved to a single
    run), on script runs that are disjoint ranges of the run, the value
    [getValue] returns has [count] advances, all 0 but those the script
    runs stored, each in a slot of its own of [0 .. count - 1]; and
    [totalAdvance] is exactly the float these stored advances add up to
    in the order of the code: those of a script run one after the other
    onto 0, by increasing slot, and the totals of the script runs one
    after the other onto 0.  No tolerance is involved.  Nothing is
    stated about requests that enter the loop over several visual
    runs. *)
Theorem total_advance_adds_stored_advances fuel c paint text start count
    contextCount dirFlags :
  shaper_contract env -> script_run_contract env -> (2 <= fuel)%nat ->
  reachable env c ->
  valid_request paint text start count contextCount dirFlags ->
  single_run_request env (take (Z.to_nat contextCount) text) contextCount dirFlags
    = true ->
  exists c' v runs,
    getValue env fuel c paint text start count contextCount dirFlags
      = Returns (c', Some v)
    /\ mTotalAdvance v = accumulated_total fzero runs
    /\ items (mAdvances v)
       = store_advances (replicate (Z.to_nat count) fzero) (concat runs)
    /\ stored_once runs 0 count.
Proof.
  intros Hshaper Hscript Hfuel Hreach Hvalid Hsingle.
  destruct (getValue_returns_computed env max_size_range fuel c paint text start
              count contextCount dirFlags Hreach Hvalid)
    as (c' & v & k & Hget & Hk & Hc & Hcomp).
  { destruct (computeValues_returns env fuel (mShaper c) paint
                (textCopy (TextLayoutCacheKey_new paint text start count
                                                  contextCount dirFlags))
                start count contextCount dirFlags
                (TextLayoutValue_new env contextCount (heap_next c))
                Hshaper Hfuel) as (sh & v & Hcv).
    eauto. }
  destruct Hk as (Hwf & _).
  pose proof (valid_request_key _ _ _ _ _ _ Hvalid) as [Hkwf _].
  destruct (compare_tie_positions k _ Hwf Hkwf Hc)
    as (_ & Hcount & Hctx & Hdir & Htext).
  simpl in Hcount, Hctx, Hdir, Htext.
  destruct Hcomp as (fuel0 & sh0 & sh1 & addr & Hcv).
  eapply (computeValues_stores env) in Hcv;
    [| exact Hscript | exact (wf_count _ Hwf) | reflexivity
     | rewrite Htext, Hctx, Hdir; exact Hsingle].
  rewrite Hcount in Hcv. destruct Hcv as (runs & Htotal & Hadv & Honce).
  exists c', v, runs. auto.
Qed.

End TotalAdvanceClaim.

(** ** Recomputing a value *)

Section Determinism.
Context {F : Type} `{FloatOps F}.
Variable env : Env F.

Lemma same_layout_refl (v : TextLayoutValue F) : same_layout v v.
Proof. repeat split. Qed.

Lemma shaping_loop_result fuel string item paint face :
  forall sh size sh',
  shaper_sound env sh ->
  0 < size \/ mShaperItem_allocated sh = true ->
  shaping_loop env fuel sh string item paint face size = Some sh' ->
  shaper_sound env sh'
  /\ mShaperItem_allocated sh' = true
  /\ exists n,
       HB_ShapeItem env (attempt string item paint face n)
       = (true, mShaperItem sh').
Proof.
  induction fuel as [| fuel IH]; intros sh size sh' Hsound Halloc; [discriminate |].
  cbn [shaping_loop]. rewrite doShaping_attempt. cbv zeta.
  destruct (HB_ShapeItem env (attempt string item paint face
                                      (first_capacity sh size)))
    as [ok arrays] eqn:Hshape.
  destruct Hsound as (Hcap & Hexists & Hdefault).
  set (sh1 := mkShaper _ _ arrays _ _).
  assert (Hsound1 : shaper_sound env sh1 /\ mShaperItem_allocated sh1 = true).
  { unfold sh1, shaper_sound, first_capacity. cbn.
    destruct (Z.gtb_spec size (mShaperItemGlyphArraySize sh)).
    - repeat split; auto; lia.
    - assert (mShaperItem_allocated sh = true)
        by (destruct Halloc; [apply Hexists; lia | assumption]).
      repeat split; auto; lia. }
  destruct Hsound1 as [Hsound1 Halloc1].
  destruct ok.
  - intros [= <-]. split; [exact Hsound1 | split; [exact Halloc1 |]].
    exists (first_capacity sh size). exact Hshape.
  - intros Hloop. eapply IH; [exact Hsound1 | right; exact Halloc1 | exact Hloop].
Qed.

Lemma getCachedHBFace_sound sh typeface :
  shaper_sound env sh -> shaper_sound env (fst (getCachedHBFace env sh typeface)).
Proof.
  unfold getCachedHBFace. destruct (_ !! _); [auto |].
  destruct (negb _); auto.
Qed.

Lemma run_typeface_sound sh paint base script :
  shaper_sound env sh ->
  run_typeface env sh paint base script
  = run_typeface env (TextLayoutShaper_new env) paint base script.
Proof.
  intros (_ & _ & Hdefault). unfold run_typeface. rewrite Hdefault. reflexivity.
Qed.

Lemma first_size_positive (len : Z) :
  0 < len < 2 ^ 31 -> 0 < wrap32 (len * 3) / 2.
Proof. intros Hlen. mod_arith. Qed.

(** What [shapeFontRun] leaves in [mShaperItem] is the outcome of a
    successful call for the run, whatever the shaper held before. *)
Lemma shapeFontRun_result fuel sh paint string item (isRTL : bool) sh' base :
  shaper_sound env sh -> 0 < item_length item < 2 ^ 31 ->
  shapeFontRun env fuel sh paint string item isRTL = Some (sh', base) ->
  let item' := mkItem (item_pos item) (item_length item) (item_script item)
                      (if isRTL then 1 else 0) in
  let typeface := run_typeface env (TextLayoutShaper_new env) paint
                    (run_baseGlyphCount env paint string item')
                    (item_script item) in
  shaper_sound env sh'
  /\ mShaperItem_allocated sh' = true
  /\ base = run_baseGlyphCount env paint string item'
  /\ exists face n,
       HB_ShapeItem env (attempt string item' (shaping_paint paint typeface) face n)
       = (true, mShaperItem sh').
Proof.
  intros Hsound Hlen. unfold shapeFontRun. cbv zeta.
  rewrite (run_typeface_sound sh) by assumption. cbn [item_script].
  pose proof (getCachedHBFace_sound sh
                (run_typeface env (TextLayoutShaper_new env) paint
                   (run_baseGlyphCount env paint string
                      (mkItem (item_pos item) (item_length item)
                              (item_script item) (if isRTL then 1 else 0)))
                   (item_script item)) Hsound) as Hsound1.
  destruct (getCachedHBFace env sh _) as [sh1 face]. cbn [fst] in Hsound1.
  destruct (shaping_loop env fuel sh1 _ _ _ _ _) as [sh2 |] eqn:Hloop;
    [| discriminate].
  intros [= <- <-].
  apply shaping_loop_result in Hloop;
    [| assumption | left; apply first_size_positive; exact Hlen].
  destruct Hloop as (Hsound2 & Halloc2 & n & Hshape).
  split; [exact Hsound2 | split; [exact Halloc2 | split; [reflexivity |]]].
  eauto.
Qed.

Lemma script_run_body_congr sh1 sh2 base item isRTL skewX t
    (v1 v2 : TextLayoutValue F) :
  mShaperItem sh1 = mShaperItem sh2 ->
  mShaperItem_allocated sh1 = mShaperItem_allocated sh2 ->
  same_layout v1 v2 ->
  fst (script_run_body env sh1 base item isRTL skewX t v1)
  = fst (script_run_body env sh2 base item isRTL skewX t v2)
  /\ same_layout (snd (script_run_body env sh1 base item isRTL skewX t v1))
                 (snd (script_run_body env sh2 base item isRTL skewX t v2)).
Proof.
  intros Harrays Halloc (Ha & Ht & Hg & Hp). unfold script_run_body.
  rewrite Harrays, Halloc, Ha, Hg, Hp.
  destruct (_ || _); [repeat split; assumption |].
  cbv zeta. destruct (foldl _ _ _) as [[tf cs] adv].
  repeat split; try reflexivity. exact Ht.
Qed.

(** The script-run loop started from two sound shapers on values holding
    the same layout ends with values holding the same layout. *)
Lemma script_runs_loop_deterministic fuel1 fuel2 runs :
  forall sh1 sh2 paint string isRTL t v1 v2 sh1' t1' v1' sh2' t2' v2',
  shaper_deterministic env ->
  Forall (fun item => 0 < item_length item < 2 ^ 31) runs ->
  shaper_sound env sh1 -> shaper_sound env sh2 -> same_layout v1 v2 ->
  script_runs_loop env fuel1 runs sh1 paint string isRTL t v1
    = Some (sh1', t1', v1') ->
  script_runs_loop env fuel2 runs sh2 paint string isRTL t v2
    = Some (sh2', t2', v2') ->
  shaper_sound env sh1' /\ shaper_sound env sh2'
  /\ t1' = t2' /\ same_layout v1' v2'.
Proof.
  induction runs as [| item rest IH];
    intros sh1 sh2 paint string isRTL t v1 v2 sh1' t1' v1' sh2' t2' v2'
           Hdet Hlens Hs1 Hs2 Hv; cbn [script_runs_loop].
  - intros [= <- <- <-] [= <- <- <-]. auto.
  - inversion Hlens as [| ? ? Hlen Hrest]; subst.
    destruct (shapeFontRun env fuel1 sh1 paint string item isRTL)
      as [[sha basea] |] eqn:Hrun1; [| discriminate].
    destruct (shapeFontRun env fuel2 sh2 paint string item isRTL)
      as [[shb baseb] |] eqn:Hrun2; [| discriminate].
    apply shapeFontRun_result in Hrun1; [| assumption..].
    apply shapeFontRun_result in Hrun2; [| assumption..].
    cbv zeta in Hrun1, Hrun2.
    destruct Hrun1 as (Hsa & Halloca & -> & facea & na & Hshapea).
    destruct Hrun2 as (Hsb & Hallocb & -> & faceb & nb & Hshapeb).
    assert (Harrays : mShaperItem sha = mShaperItem shb).
    { match type of Hshapeb with
      | HB_ShapeItem env (attempt ?s ?i ?p _ _) = _ =>
          pose proof (Hdet (attempt s i p faceb nb) facea na
                        (replicate (Z.to_nat na) (0, 0))) as Heq;
          change (mkRequest (req_string (attempt s i p faceb nb))
                            (req_item (attempt s i p faceb nb))
                            (req_paint (attempt s i p faceb nb))
                            facea na (replicate (Z.to_nat na) (0, 0)))
            with (attempt s i p facea na) in Heq
      end.
      rewrite Hshapea, Hshapeb in Heq. cbn [fst snd] in Heq.
      apply Heq; reflexivity. }
    destruct (script_run_body_congr sha shb
                (run_baseGlyphCount env paint string
                   (mkItem (item_pos item) (item_length item) (item_script item)
                           (if isRTL then 1 else 0)))
                item isRTL (paint_textSkewX paint) t v1 v2 Harrays
                ltac:(congruence) Hv) as [Ht Hv'].
    destruct (script_run_body env sha _ _ _ _ _ _) as [ta va].
    destruct (script_run_body env shb _ _ _ _ _ _) as [tb vb].
    cbn [fst snd] in Ht, Hv'. subst tb.
    apply IH; assumption.
Qed.

Lemma same_layout_add_zeros (v1 v2 : TextLayoutValue F) count :
  same_layout v1 v2 ->
  same_layout
    (set_advances v1 (foldl (fun a _ => Vector_add env a fzero) (mAdvances v1)
                            (seqZ 0 count)))
    (set_advances v2 (foldl (fun a _ => Vector_add env a fzero) (mAdvances v2)
                            (seqZ 0 count))).
Proof.
  intros (Ha & Ht & Hg & Hp). unfold same_layout. simpl. rewrite Ha. auto.
Qed.

Lemma computeRunValues_deterministic fuel1 fuel2 sh1 sh2 paint chars count isRTL
    (v1 v2 : TextLayoutValue F) sh1' v1' sh2' v2' :
  shaper_deterministic env -> script_run_contract env ->
  0 <= count < 2 ^ 31 ->
  shaper_sound env sh1 -> shaper_sound env sh2 -> same_layout v1 v2 ->
  computeRunValues env fuel1 sh1 paint chars count isRTL v1 = Some (sh1', v1') ->
  computeRunValues env fuel2 sh2 paint chars count isRTL v2 = Some (sh2', v2') ->
  shaper_sound env sh1' /\ shaper_sound env sh2' /\ same_layout v1' v2'.
Proof.
  intros Hdet Hscript Hcount Hs1 Hs2 Hv. unfold computeRunValues.
  destruct (count =? 0).
  - intros [= <- <-] [= <- <-]. auto.
  - cbv zeta.
    destruct (script_runs_loop env fuel1 _ _ _ _ _ _ _)
      as [[[sha ta] va] |] eqn:Hloop1; [| discriminate].
    destruct (script_runs_loop env fuel2 _ _ _ _ _ _ _)
      as [[[shb tb] vb] |] eqn:Hloop2; [| discriminate].
    intros [= <- <-] [= <- <-].
    pose proof (same_layout_add_zeros v1 v2 count Hv) as Hv0.
    assert (Ht0 : mTotalAdvance v1 = mTotalAdvance v2) by apply Hv.
    cbn [set_advances mTotalAdvance] in Hloop1, Hloop2. rewrite Ht0 in Hloop1.
    destruct (Hscript isRTL (shaping_string env chars count isRTL))
      as [Hwithin _].
    pose proof (length_shaping_string env chars count isRTL ltac:(lia)) as Hlen.
    destruct (script_runs_loop_deterministic fuel1 fuel2 _ _ _ _ _ _ _ _ _ _ _ _ _ _ _
                Hdet ltac:(eapply Forall_impl; [exact Hwithin |];
                           simpl; intros item; lia)
                Hs1 Hs2 Hv0 Hloop1 Hloop2)
      as (Hsa & Hsb & -> & (Ha & _ & Hg & Hp)).
    repeat split; try apply Hsa; try apply Hsb; assumption.
Qed.

Lemma same_layout_clear (v1 v2 : TextLayoutValue F) :
  same_layout v1 v2 -> same_layout (clear_outputs env v1) (clear_outputs env v2).
Proof.
  intros (Ha & Ht & Hg & Hp). unfold same_layout, clear_outputs. simpl.
  rewrite Ha, Hg, Hp. auto.
Qed.

Lemma visual_runs_loop_deterministic fuel1 fuel2 visual_run rc contextCount
    paraDir paint chars start end_ indices :
  shaper_deterministic env -> script_run_contract env ->
  visual_runs_tile visual_run rc contextCount ->
  contextCount < 2 ^ 31 -> 0 <= start -> start <= end_ -> end_ <= contextCount ->
  Forall (fun i => 0 <= i < rc) indices ->
  forall sh1 sh2 (v1 v2 : TextLayoutValue F) sh1' v1' d1 sh2' v2' d2,
  shaper_sound env sh1 -> shaper_sound env sh2 -> same_layout v1 v2 ->
  visual_runs_loop env fuel1 indices visual_run paraDir sh1 paint chars start end_ v1
    = Some (sh1', v1', d1) ->
  visual_runs_loop env fuel2 indices visual_run paraDir sh2 paint chars start end_ v2
    = Some (sh2', v2', d2) ->
  shaper_sound env sh1' /\ shaper_sound env sh2' /\ same_layout v1' v2'
  /\ d1 = d2.
Proof.
  intros Hdet Hscript [Hruns _] Hctx Hstart Hwin Hend.
  induction 1 as [| i rest Hi _ IH];
    intros sh1 sh2 v1 v2 sh1' v1' d1 sh2' v2' d2 Hs1 Hs2 Hv;
    cbn [visual_runs_loop].
  - intros [= <- <- <-] [= <- <- <-]. auto.
  - specialize (Hruns i Hi).
    destruct (visual_run i) as [[runDir startRun] lengthRun]. cbn [fst snd] in *.
    destruct Hruns as (Hs & Hlen & Hfit).
    destruct ((startRun =? -1) || (lengthRun =? -1)).
    { intros [= <- <- <-] [= <- <- <-].
      repeat split; try apply Hs1; try apply Hs2; apply same_layout_clear, Hv. }
    assert (Hi32 : forall z, 0 <= z <= contextCount -> to_int32 z = z)
      by (intros z Hz; apply to_int32_small; unfold in_int32;
          change (2 ^ 31) with 2147483648 in *; lia).
    rewrite (Hi32 (startRun + lengthRun)), (Hi32 start) by lia.
    destruct (Z.geb_spec startRun end_) as [Hge | Hlt];
      [apply IH; assumption |].
    destruct (Z.leb_spec (startRun + lengthRun) start) as [Hle | Hgt];
      [apply IH; assumption |].
    cbv zeta.
    set (startRun' := if startRun <? start then start else startRun).
    set (endRun' := if startRun + lengthRun >? end_ then end_
                    else startRun + lengthRun).
    assert (Hs' : startRun' = Z.max startRun start)
      by (unfold startRun'; destruct (Z.ltb_spec startRun start); lia).
    assert (He' : endRun' = Z.min (startRun + lengthRun) end_)
      by (unfold endRun'; destruct (Z.gtb_spec (startRun + lengthRun) end_); lia).
    assert (Hlen' : wrap32 (to_int32 (endRun' - startRun')) = endRun' - startRun').
    { rewrite Hi32 by lia. apply wrap32_small. unfold in_size_t.
      change (2 ^ 32) with 4294967296. change (2 ^ 31) with 2147483648 in *.
      lia. }
    rewrite Hlen'.
    destruct (computeRunValues env fuel1 sh1 paint _ _ _ v1)
      as [[sha va] |] eqn:Hrun1; [| discriminate].
    destruct (computeRunValues env fuel2 sh2 paint _ _ _ v2)
      as [[shb vb] |] eqn:Hrun2; [| discriminate].
    assert (Hrange : 0 <= endRun' - startRun' < 2 ^ 31)
      by (change (2 ^ 31) with 2147483648 in *; lia).
    destruct (computeRunValues_deterministic _ _ _ _ _ _ _ _ _ _ _ _ _ _
                Hdet Hscript Hrange Hs1 Hs2 Hv Hrun1 Hrun2) as (Hsa & Hsb & Hv').
    apply IH; assumption.
Qed.

(** [computeValues] on the same arguments from two sound shapers, on
    values holding the same layout, yields the same layout. *)
Lemma computeValues_deterministic fuel1 fuel2 sh1 sh2 paint chars start count
    contextCount dirFlags (v1 v2 : TextLayoutValue F) sh1' v1' sh2' v2' :
  shaper_deterministic env -> script_run_contract env -> bidi_contract env ->
  0 <= start -> 0 <= count -> start + count <= contextCount ->
  contextCount < 2 ^ 31 ->
  shaper_sound env sh1 -> shaper_sound env sh2 -> same_layout v1 v2 ->
  computeValues env fuel1 sh1 paint chars start count contextCount dirFlags v1
    = Some (sh1', v1') ->
  computeValues env fuel2 sh2 paint chars start count contextCount dirFlags v2
    = Some (sh2', v2') ->
  shaper_sound env sh1' /\ shaper_sound env sh2' /\ same_layout v1' v2'.
Proof.
  intros Hdet Hscript Hbidi Hstart Hcount Hwin Hctx Hs1 Hs2 Hv.
  unfold computeValues. cbv zeta.
  assert (Hv0 : same_layout (set_totalAdvance v1 fzero) (set_totalAdvance v2 fzero)).
  { destruct Hv as (Ha & _ & Hg & Hp). repeat split; assumption. }
  assert (Hsingle : forall isRTL sha shb va vb sha' va' shb' vb',
             shaper_sound env sha -> shaper_sound env shb -> same_layout va vb ->
             computeRunValues env fuel1 sha paint (drop (Z.to_nat start) chars)
                              count isRTL va = Some (sha', va') ->
             computeRunValues env fuel2 shb paint (drop (Z.to_nat start) chars)
                              count isRTL vb = Some (shb', vb') ->
             shaper_sound env sha' /\ shaper_sound env shb' /\ same_layout va' vb').
  { intros isRTL sha shb va vb sha' va' shb' vb' Hsa Hsb Hvab.
    apply computeRunValues_deterministic; try assumption. lia. }
  destruct (Z.eqb_spec count 0) as [-> | Hne].
  { intros [= <- <-] [= <- <-]. auto. }
  destruct (bidi_request dirFlags) as [[bidiReq forceLTR] forceRTL].
  destruct (forceLTR || forceRTL); [apply Hsingle; assumption |].
  pose proof (Hbidi chars contextCount bidiReq) as Htile.
  destruct (ubidi env chars contextCount bidiReq)
    as [| | paraLevel ok rc visual_run]; try (apply Hsingle; assumption).
  destruct ok; cbn [andb negb orb]; [| apply Hsingle; assumption].
  destruct (Z.eqb_spec rc 1); [apply Hsingle; assumption |].
  destruct (Z.ltb_spec rc 1); [apply Hsingle; assumption |].
  specialize (Htile ltac:(lia)).
  assert (Hend : to_int32 (start + count) = start + count)
    by (apply to_int32_small; unfold in_int32;
        change (2 ^ 31) with 2147483648 in *; lia).
  rewrite Hend.
  destruct (visual_runs_loop env fuel1 _ _ _ _ _ _ _ _ _)
    as [[[sha va] da] |] eqn:Hloop1; [| discriminate].
  destruct (visual_runs_loop env fuel2 _ _ _ _ _ _ _ _ _)
    as [[[shb vb] db] |] eqn:Hloop2; [| discriminate].
  destruct (visual_runs_loop_deterministic fuel1 fuel2 visual_run rc contextCount
              (Z.land paraLevel kDirection_Mask) paint chars start (start + count)
              (seqZ 0 rc) Hdet Hscript Htile Hctx Hstart ltac:(lia) ltac:(lia)
              ltac:(apply Forall_seqZ; intros; lia)
              _ _ _ _ _ _ _ _ _ _ Hs1 Hs2 Hv0 Hloop1 Hloop2)
    as (Hsa & Hsb & Hvab & <-).
  destruct da; [apply Hsingle; assumption |].
  intros [= <- <-] [= <- <-]. auto.
Qed.

End Determinism.

(** ** Two calls with equal keys *)

Section HitDeterminism.
Context {F : Type} `{FloatOrder F}.
Variable env : Env F.
Hypothesis max_size_range : 0 <= default_max_size env < 2 ^ 31.

Lemma same_layout_new contextCount addr1 addr2 :
  same_layout (TextLayoutValue_new env contextCount addr1)
              (TextLayoutValue_new env contextCount addr2 : TextLayoutValue F).
Proof. repeat split. Qed.

(** A call that returns either hit, and left the shaper alone, or missed
    and returns what [computeValues] made of a new value. *)
Lemma getValue_shaper fuel c paint text start count contextCount dirFlags c' r :
  cache_inv env c ->
  valid_request paint text start count contextCount dirFlags ->
  let key := TextLayoutCacheKey_new paint text start count contextCount dirFlags in
  getValue env fuel c paint text start count contextCount dirFlags
    = Returns (c', r) ->
  (GenerationCache_find (mCache c) key <> None /\ mShaper c' = mShaper c)
  \/ (GenerationCache_find (mCache c) key = None
      /\ exists v, r = Some v
         /\ computeValues env fuel (mShaper c) paint (textCopy key) start count
                          contextCount dirFlags
                          (TextLayoutValue_new env contextCount (heap_next c))
            = Some (mShaper c', v)).
Proof.
  intros Hinv Hvalid key Hget.
  destruct (getValue_cases env max_size_range fuel c paint text start count
              contextCount dirFlags Hinv Hvalid)
    as [(e & l1 & l2 & Hl & Hc & Heq) | [Hnone Hmiss]].
  - left. rewrite Heq in Hget. injection Hget as <- _. split; [| reflexivity].
    intros Hfind. apply GenerationCache_find_None in Hfind. rewrite Hl in Hfind.
    rewrite Forall_app, Forall_cons in Hfind. fold key in Hc. tauto.
  - right. split; [exact Hnone |]. fold key in Hmiss.
    destruct (computeValues env fuel (mShaper c) paint _ start count
                contextCount dirFlags _) as [[sh v0] |];
      [| rewrite Hmiss in Hget; discriminate].
    cbv zeta in Hmiss. exists v0.
    destruct (entry_size env (key, v0) <=? mMaxSize c).
    + destruct Hmiss as (n & Heq & _).
      rewrite Heq in Hget. injection Hget as <- <-. auto.
    + rewrite Hmiss in Hget. injection Hget as <- <-. auto.
Qed.

(** The shaper of a reachable cache is sound. *)
Lemma reachable_shaper_sound c :
  shaper_deterministic env -> script_run_contract env -> bidi_contract env ->
  reachable env c -> shaper_sound env (mShaper c).
Proof.
  intros Hdet Hscript Hbidi.
  induction 1 as [| c fuel paint text start count contextCount dirFlags c' r
                    Hreach IH Hvalid Hget | c _ IH].
  - repeat split; simpl; try reflexivity; try lia.
  - pose proof (reachable_inv env max_size_range c Hreach) as Hinv.
    destruct (getValue_shaper fuel c paint text start count contextCount dirFlags
                c' r Hinv Hvalid Hget)
      as [[_ ->] | (_ & v & _ & Hcv)]; [exact IH |].
    destruct Hvalid as [Hs Hc Hw Hx _ _ _ _ _ _].
    destruct (computeValues_deterministic env fuel fuel _ _ _ _ _ _ _ _ _ _ _ _ _ _
                Hdet Hscript Hbidi Hs Hc Hw Hx IH IH (same_layout_refl _)
                Hcv Hcv) as [Hsound _].
    exact Hsound.
  - destruct IH as (Hsize & Halloc & _). repeat split; simpl; auto.
Qed.

(** C6, as the code has it.  While the entry of a key is cached, a valid
    call whose arguments make that key returns that very value: the
    object the entry holds, with the shaper not run and nothing
    allocated, and the entry stays cached.  A call that finds no entry
    tying with its key and computes a value that fits the budget leaves
    it cached under its key.  Two calls whose arguments make the same
    key and that both find no entry tying with it, in whatever states of
    the cache, return the same layout, the shaper library being
    deterministic.  Nothing is stated about a call served the entry of
    another key that ties with its own, which a NaN paint field makes
    possible. *)
Theorem cache_hit_determinism c paint text start count contextCount dirFlags :
  reachable env c ->
  valid_request paint text start count contextCount dirFlags ->
  let key := TextLayoutCacheKey_new paint text start count contextCount dirFlags in
  (forall fuel v, (key, v) ∈ mCache c ->
     exists c',
       getValue env fuel c paint text start count contextCount dirFlags
         = Returns (c', Some v)
       /\ mShaper c' = mShaper c /\ heap_next c' = heap_next c
       /\ mSize c' = mSize c /\ (key, v) ∈ mCache c') /\
  (forall fuel c' v,
     GenerationCache_find (mCache c) key = None ->
     getValue env fuel c paint text start count contextCount dirFlags
       = Returns (c', Some v) ->
     entry_size env (key, v) <= mMaxSize c ->
     (key, v) ∈ mCache c') /\
  (shaper_deterministic env -> script_run_contract env -> bidi_contract env ->
   forall fuel1 fuel2 c2 paint2 text2 c1' c2' v1 v2,
     reachable env c2 ->
     valid_request paint2 text2 start count contextCount dirFlags ->
     TextLayoutCacheKey_new paint2 text2 start count contextCount dirFlags = key ->
     GenerationCache_find (mCache c) key = None ->
     GenerationCache_find (mCache c2) key = None ->
     getValue env fuel1 c paint text start count contextCount dirFlags
       = Returns (c1', Some v1) ->
     getValue env fuel2 c2 paint2 text2 start count contextCount dirFlags
       = Returns (c2', Some v2) ->
     same_layout v1 v2).
Proof.
  intros Hreach Hvalid key.
  pose proof (reachable_inv env max_size_range c Hreach) as Hinv.
  pose proof (valid_request_key _ _ _ _ _ _ Hvalid) as [Hkwf _]. fold key in Hkwf.
  destruct (valid_request_wrap _ _ _ _ _ _ Hvalid) as (Hws & Hwc & Hwx).
  split; [| split].
  - intros fuel v Hin.
    destruct (GenerationCache_find_cached (mCache c) key v) as (rest & Hfind);
      [apply Hinv | assumption | assumption |].
    unfold getValue, GenerationCache_get. rewrite Hws, Hwc, Hwx. fold key.
    rewrite Hfind. eexists. split; [reflexivity |]. cbn.
    repeat split; try reflexivity.
    apply elem_of_app. right. apply list_elem_of_singleton. reflexivity.
  - intros fuel c' v Hfind Hget Hfit.
    destruct (getValue_cases env max_size_range fuel c paint text start count
                contextCount dirFlags Hinv Hvalid)
      as [(e & l1 & l2 & Hl & Hc & _) | [_ Hmiss]].
    + apply GenerationCache_find_None in Hfind. rewrite Hl in Hfind.
      rewrite Forall_app, Forall_cons in Hfind. tauto.
    + fold key in Hmiss.
      destruct (computeValues env fuel (mShaper c) paint _ start count
                  contextCount dirFlags _) as [[sh v0] |];
        [| rewrite Hmiss in Hget; discriminate].
      cbv zeta in Hmiss.
      destruct (Z.leb_spec (entry_size env (key, v0)) (mMaxSize c)) as [Hle | Hgt].
      * destruct Hmiss as (n & Heq & _).
        rewrite Heq in Hget. injection Hget as <- <-. cbn [mCache].
        apply elem_of_app. right. apply list_elem_of_singleton. reflexivity.
      * rewrite Hmiss in Hget. injection Hget as <- <-. lia.
  - intros Hdet Hscript Hbidi fuel1 fuel2 c2 paint2 text2 c1' c2' v1 v2
           Hreach2 Hvalid2 Hkey Hnone1 Hnone2 Hget1 Hget2.
    pose proof (reachable_inv env max_size_range c2 Hreach2) as Hinv2.
    destruct (getValue_shaper fuel1 c paint text start count contextCount dirFlags
                c1' (Some v1) Hinv Hvalid Hget1)
      as [[Hhit _] | (_ & w1 & [= <-] & Hcv1)]; [contradiction |].
    destruct (getValue_shaper fuel2 c2 paint2 text2 start count contextCount
                dirFlags c2' (Some v2) Hinv2 Hvalid2 Hget2)
      as [[Hhit _] | (_ & w2 & [= <-] & Hcv2)];
      [rewrite Hkey in Hhit; contradiction |].
    rewrite Hkey in Hcv2. fold key in Hcv1.
    assert (Hpaint : paint2 = paint).
    { rewrite <- (key_paint_new paint2 text2 start count contextCount dirFlags),
              Hkey.
      apply key_paint_new. }
    rewrite Hpaint in Hcv2.
    destruct Hvalid as [Hs Hc Hw Hx _ _ _ _ _ _].
    destruct (computeValues_deterministic env fuel1 fuel2 _ _ _ _ _ _ _ _ _ _ _ _ _ _
                Hdet Hscript Hbidi Hs Hc Hw Hx
                (reachable_shaper_sound c Hdet Hscript Hbidi Hreach)
                (reachable_shaper_sound c2 Hdet Hscript Hbidi Hreach2)
                (same_layout_new contextCount (heap_next c) (heap_next c2))
                Hcv1 Hcv2) as (_ & _ & Hsame).
    exact Hsame.
Qed.

End HitDeterminism.


(** ** The sign of the ordered comparison *)

Lemma memcmp_opp (n : nat) : forall a b : list Z,
  memcmp b a n = - memcmp a b n.
Proof.
  induction n as [| n IH]; intros a b; simpl; [reflexivity |].
  rewrite (Z.eqb_sym (hd 0 b) (hd 0 a)).
  destruct (hd 0 a =? hd 0 b); [apply IH | lia].
Qed.

Lemma sgn_stage_delta (d X X' : Z) :
  (d = 0 -> Z.sgn X' = - Z.sgn X) ->
  Z.sgn (if negb (- d =? 0) then - d else X')
  = - Z.sgn (if negb (d =? 0) then d else X).
Proof.
  intros HX. destruct (Z.eqb_spec d 0) as [-> | Hne]; simpl; [auto |].
  destruct (Z.eqb_spec (- d) 0); simpl; lia.
Qed.

Lemma sgn_stage_order (a b X X' : Z) :
  (a = b -> Z.sgn X' = - Z.sgn X) ->
  Z.sgn (if b <? a then -1 else if b >? a then 1 else X')
  = - Z.sgn (if a <? b then -1 else if a >? b then 1 else X).
Proof.
  intros HX. rewrite !Z.gtb_ltb.
  destruct (Z.ltb_spec a b), (Z.ltb_spec b a); simpl; lia.
Qed.

Lemma sgn_stage_float {F} `{FloatOrder F} (a b : F) (X X' : Z) :
  flt_asymmetric F ->
  Z.sgn X' = - Z.sgn X ->
  Z.sgn (if flt b a then -1 else if fgt b a then 1 else X')
  = - Z.sgn (if flt a b then -1 else if fgt a b then 1 else X).
Proof.
  intros Hasym HX. rewrite !fgt_flt.
  destruct (flt a b) eqn:Hab.
  - rewrite (Hasym a b Hab). reflexivity.
  - destruct (flt b a); [reflexivity | exact HX].
Qed.

(** X1.  On keys whose fields are far from the ends of their types, the
    comparison is antisymmetric: swapping the operands swaps the sign of
    the result, so [compare] orders such keys consistently whichever way
    a container asks. *)
Theorem compare_antisymmetric {F} `{FloatOrder F} (l r : TextLayoutCacheKey F) :
  flt_asymmetric F -> key_small l -> key_small r ->
  Z.sgn (compare r l) = - Z.sgn (compare l r).
Proof.
  intros Hasym [] []. unfold compare. cbv zeta.
  assert (Hu : forall a b, 0 <= a < 2 ^ 31 -> 0 <= b < 2 ^ 31 ->
             to_int32 (wrap32 (a - b)) = a - b) by (intros; mod_arith).
  assert (Hi : forall a b, - 2 ^ 30 <= a < 2 ^ 30 -> - 2 ^ 30 <= b < 2 ^ 30 ->
             to_int32 (a - b) = a - b)
    by (intros a b; change (2 ^ 30) with 1073741824; intros; mod_arith).
  rewrite !Hu, !Hi by assumption.
  replace (start r - start l) with (- (start l - start r)) by lia.
  replace (count r - count l) with (- (count l - count r)) by lia.
  replace (contextCount r - contextCount l)
    with (- (contextCount l - contextCount r)) by lia.
  replace (flags r - flags l) with (- (flags l - flags r)) by lia.
  replace (hinting r - hinting l) with (- (hinting l - hinting r)) by lia.
  replace (dirFlags r - dirFlags l) with (- (dirFlags l - dirFlags r)) by lia.
  replace (variant r - variant l) with (- (variant l - variant r)) by lia.
  apply sgn_stage_delta. intros _.
  apply sgn_stage_delta. intros _.
  apply sgn_stage_delta. intros Hctx.
  apply sgn_stage_order. intros _.
  apply sgn_stage_float; [assumption |].
  apply sgn_stage_float; [assumption |].
  apply sgn_stage_float; [assumption |].
  apply sgn_stage_delta. intros _.
  apply sgn_stage_delta. intros _.
  apply sgn_stage_delta. intros _.
  apply sgn_stage_delta. intros _.
  apply sgn_stage_order. intros _.
  replace (contextCount r) with (contextCount l) by lia.
  rewrite memcmp_opp. apply Z.sgn_opp.
Qed.

(** ** The cache between calls: statistics, purge, distinct keys *)

Section CacheState.
Context {F : Type} `{FloatOrder F}.
Variable env : Env F.
Hypothesis max_size_range : 0 <= default_max_size env < 2 ^ 31.

Local Abbreviation Entry := (TextLayoutCacheKey F * TextLayoutValue F)%type.

(** Counting the bytes entry by entry, in [size_t] arithmetic. *)
Lemma count_bytes (l : list Entry) : forall bytes,
  0 <= bytes -> bytes + total_size env l < 2 ^ 32 ->
  foldl (fun bytes e =>
           wrap32 (bytes + wrap32 (key_getSize env (fst e)
                                   + TextLayoutValue_getSize env (snd e))))
        bytes l
  = bytes + total_size env l.
Proof.
  induction l as [| e l IH]; intros bytes Hnn Hb; simpl in *; [lia |].
  fold (entry_size env e) in *.
  pose proof (entry_size_range env e). pose proof (total_size_nonneg env l).
  rewrite IH.
  - rewrite wrap32_small by (unfold in_size_t; lia). lia.
  - apply wrap32_range.
  - rewrite wrap32_small by (unfold in_size_t; lia). lia.
Qed.

(** X2.  In every state valid calls lead to, the two byte counts
    [dumpCacheStats] prints agree: the bytes it adds up entry by entry
    are [mSize]; and the remaining space it prints, [mMaxSize - mSize],
    has not wrapped: used and remaining add up to the budget, which is
    the default one. *)
Theorem dumpCacheStats_consistent c :
  reachable env c ->
  let stats := dumpCacheStats env c in
  stats_bytes stats = stats_used stats
  /\ stats_used stats = mSize c
  /\ stats_used stats + stats_remaining stats = stats_max_size stats
  /\ 0 <= stats_remaining stats
  /\ stats_max_size stats = default_max_size env
  /\ stats_entries stats = Z.of_nat (length (mCache c)).
Proof.
  intros Hreach.
  destruct (reachable_inv env max_size_range c Hreach)
    as [Hsize Hbudget Hmax _ _ _].
  pose proof (total_size_nonneg env (mCache c)) as Hnn.
  assert (Hlt : mMaxSize c < 2 ^ 31) by (rewrite Hmax; apply max_size_range).
  unfold dumpCacheStats. cbn [stats_bytes stats_used stats_remaining
                              stats_max_size stats_entries].
  assert (Hrem : wrap32 (mMaxSize c - mSize c) = mMaxSize c - mSize c).
  { apply wrap32_small. unfold in_size_t.
    change (2 ^ 32) with 4294967296. change (2 ^ 31) with 2147483648 in *. lia. }
  rewrite Hrem, count_bytes.
  - repeat split; lia.
  - lia.
  - change (2 ^ 32) with 4294967296. change (2 ^ 31) with 2147483648 in *. lia.
Qed.

(** X3.  [purgeCaches] in a state valid calls lead to: the removal
    callback, run on every entry, brings [mSize] back to exactly 0; no
    entry is left, so that every key misses; the budget stays; the
    shaper keeps its glyph arrays, forgets every face (the next run asks
    [HB_NewFace] again) and has its default typeface created anew. *)
Theorem purgeCaches_resets c :
  reachable env c ->
  let c' := purgeCaches env c in
  mSize c' = 0 /\ mCache c' = [] /\ mMaxSize c' = mMaxSize c
  /\ (forall key, GenerationCache_find (mCache c') key = None)
  /\ mShaperItemGlyphArraySize (mShaper c') = mShaperItemGlyphArraySize (mShaper c)
  /\ mShaperItem_allocated (mShaper c') = mShaperItem_allocated (mShaper c)
  /\ mDefaultTypeface (mShaper c') = SkFontHost_CreateTypeface env
  /\ (forall typeface,
        snd (getCachedHBFace env (mShaper c') typeface) = HB_NewFace env typeface).
Proof.
  intros Hreach.
  destruct (reachable_inv env max_size_range c Hreach)
    as [Hsize Hbudget Hmax _ _ _].
  cbn. split.
  - apply purge_size; [exact Hsize |].
    change (2 ^ 32) with 4294967296. change (2 ^ 31) with 2147483648 in *. lia.
  - repeat split; try reflexivity.
    intros typeface. unfold getCachedHBFace.
    change (mCachedHBFaces (TextLayoutShaper_purgeCaches env (mShaper c)))
      with (∅ : gmap Z Z).
    rewrite lookup_empty. destruct (negb _); reflexivity.
Qed.

Lemma keys_distinct_lookup (l : list Entry) : forall i j e e',
  keys_distinct l -> (i < j)%nat -> l !! i = Some e -> l !! j = Some e' ->
  no_tie e e'.
Proof.
  induction l as [| e0 l IH]; intros i j e e' Hd Hij Hi Hj; [discriminate |].
  destruct Hd as [Hf Hd]. destruct j as [| j]; [lia |].
  destruct i as [| i]; simpl in *.
  - injection Hi as <-. rewrite Forall_forall in Hf. apply Hf.
    eapply list_elem_of_lookup_2. exact Hj.
  - apply (IH i j); auto. lia.
Qed.

(** X4.  In every state valid calls lead to, no two distinct entries of
    the cache have keys that compare as 0, in either order. *)
Theorem cached_keys_never_tie c i j (e e' : Entry) :
  reachable env c -> i <> j ->
  mCache c !! i = Some e -> mCache c !! j = Some e' ->
  compare (fst e) (fst e') <> 0.
Proof.
  intros Hreach Hij Hi Hj.
  destruct (reachable_inv env max_size_range c Hreach) as [_ _ _ _ Hd _].
  destruct (Nat.lt_total i j) as [Hlt | [Heq | Hgt]]; [| contradiction |].
  - apply (keys_distinct_lookup _ i j e e' Hd Hlt Hi Hj).
  - apply (keys_distinct_lookup _ j i e' e Hd Hgt Hj Hi).
Qed.

End CacheState.

(** ** The cache of Harfbuzz faces *)

Section Faces.
Context {F : Type} `{FloatOps F}.
Variable env : Env F.

(** X5.  [getCachedHBFace] creates the face of a font once: a face that
    is not NULL is returned again, without another [HB_NewFace] and with
    the shaper unchanged, for every typeface of the same font id; a NULL
    face is not stored, so that the next call tries again; the faces of
    the other fonts stay as they are; and no NULL face enters the
    cache. *)
Theorem getCachedHBFace_reuses sh typeface :
  let sh1 := fst (getCachedHBFace env sh typeface) in
  let face := snd (getCachedHBFace env sh typeface) in
  (face <> 0 ->
   forall typeface',
     typeface_uniqueID env typeface' = typeface_uniqueID env typeface ->
     getCachedHBFace env sh1 typeface' = (sh1, face))
  /\ (face = 0 -> sh1 = sh)
  /\ (mCachedHBFaces sh !! typeface_uniqueID env typeface = None ->
      face = HB_NewFace env typeface)
  /\ (forall id, id <> typeface_uniqueID env typeface ->
        mCachedHBFaces sh1 !! id = mCachedHBFaces sh !! id)
  /\ (faces_not_null sh -> faces_not_null sh1).
Proof.
  unfold getCachedHBFace.
  destruct (mCachedHBFaces sh !! typeface_uniqueID env typeface)
    as [face0 |] eqn:Hlook; cbn [fst snd].
  - repeat split; auto; try discriminate.
    intros _ typeface' ->. rewrite Hlook. reflexivity.
  - destruct (Z.eqb_spec (HB_NewFace env typeface) 0) as [Hnull | Hface];
      cbn [negb fst snd].
    + repeat split; auto. intros Hne. contradiction.
    + repeat split; auto.
      * intros _ typeface' ->. cbn [mCachedHBFaces].
        rewrite lookup_insert_eq. reflexivity.
      * intros Hnull. contradiction.
      * intros id Hid. cbn [mCachedHBFaces].
        apply lookup_insert_ne. auto.
      * intros Hsh id face. cbn [mCachedHBFaces].
        destruct (decide (typeface_uniqueID env typeface = id)) as [<- | Hid].
        -- rewrite lookup_insert_eq. intros [= <-]. exact Hface.
        -- rewrite lookup_insert_ne by exact Hid. apply Hsh.
Qed.

End Faces.

(** ** The string handed to the shaper *)

Section ShapingStringContents.
Context {F : Type} `{FloatOps F}.
Variable env : Env F.

(** X6.  The assertion [mNormalizedString.length() == count] of
    [computeRunValues], for the string the shaper is given: whatever the
    normaliser returns and whatever is mirrored, the string has exactly
    [count] code units when the run lies within the buffer. *)
Theorem shaping_string_length chars count isRTL :
  0 <= count <= Z.of_nat (length chars) ->
  Z.of_nat (length (shaping_string env chars count isRTL)) = count.
Proof.
  intros Hc. unfold shaping_string. cbv zeta.
  set (st1 := normalize_loop env _ chars count _ _).
  assert (H1 : norm_sized chars count st1)
    by (apply normalize_loop_sized; intros Hu; discriminate).
  set (st2 := if isRTL then _ else st1).
  assert (H2 : norm_sized chars count st2).
  { unfold st2. destruct isRTL; [| assumption].
    apply (foldl_preserves _ (norm_sized chars count)); [| assumption].
    intros st i. apply mirror_step_sized. }
  assert (Hl : length (take (Z.to_nat count) chars) = Z.to_nat count)
    by (rewrite length_take; lia).
  destruct (useNormalizedString st2) eqn:Hu; [rewrite (H2 Hu) |]; lia.
Qed.

Lemma char_at_lookup (chars : list Z) (i : Z) (x : Z) :
  0 <= i -> chars !! Z.to_nat i = Some x -> char_at chars i = x.
Proof.
  intros Hi Hx. unfold char_at. destruct (Z.ltb_spec i 0); [lia |].
  rewrite nth_lookup, Hx. reflexivity.
Qed.

Lemma setCharAt_in_range (s : list Z) (offset c : Z) :
  0 <= offset < Z.of_nat (length s) ->
  setCharAt s offset c = <[Z.to_nat offset := c]> s.
Proof.
  intros Ho. unfold setCharAt.
  destruct (Z.ltb_spec 0 (Z.of_nat (length s))); [| lia].
  destruct (Z.ltb_spec offset 0); [lia |].
  destruct (Z.leb_spec (Z.of_nat (length s)) offset); [lia | reflexivity].
Qed.

(** Without a diacritic at or below [i], the normalisation loop leaves
    its state alone. *)
Lemma normalize_loop_no_marks n chars count : forall i st,
  (forall k, 0 <= k <= i -> is_diacritic env (char_at chars k) = false) ->
  normalize_loop env n chars count i st = st.
Proof.
  induction n as [| n IH]; intros i st Hno; simpl; [reflexivity |].
  destruct (Z.ltb_spec i 0); [reflexivity |].
  rewrite (Hno i) by lia. apply IH. intros k Hk. apply Hno. lia.
Qed.

(** The first [k] items of [l] rewritten by [f]. *)
Lemma rewrite_prefix_step {A} (f : A -> A) (l : list A) (k : nat) (x : A) :
  l !! k = Some x ->
  <[k := f x]> ((f <$> take k l) ++ drop k l)
  = (f <$> take (S k) l) ++ drop (S k) l.
Proof.
  intros Hx.
  assert (Hk : (k < length l)%nat) by (eapply lookup_lt_Some; exact Hx).
  rewrite (take_S_r l k x Hx), fmap_app. simpl.
  rewrite (drop_S l x k Hx).
  replace k with (length (f <$> take k l) + 0)%nat at 1
    by (rewrite length_fmap, length_take; lia).
  rewrite insert_app_r. simpl. rewrite <- app_assoc. reflexivity.
Qed.

(** The mirroring loop, round by round: the string in use is the run
    with its first [i] code units mirrored. *)
Lemma mirror_loop_prefix chars count (k : nat) st0 :
  0 <= count <= Z.of_nat (length chars) -> Z.of_nat k <= count ->
  let l := take (Z.to_nat count) chars in
  (if useNormalizedString st0 then mNormalizedString st0 else l) = l ->
  let st := foldl (mirror_step env chars count) st0 (seqZ 0 (Z.of_nat k)) in
  (if useNormalizedString st then mNormalizedString st else l)
  = (mirrored env <$> take k l) ++ drop k l.
Proof.
  intros Hc Hk l H0.
  assert (Hl : length l = Z.to_nat count)
    by (unfold l; rewrite length_take; lia).
  pose proof (foldl_seqZ_invariant (mirror_step env chars count)
                (fun i st =>
                   (if useNormalizedString st then mNormalizedString st else l)
                   = (mirrored env <$> take (Z.to_nat i) l) ++ drop (Z.to_nat i) l)
                0 st0 k) as Hinv.
  cbv beta in Hinv. rewrite Z.add_0_l, Nat2Z.id in Hinv. apply Hinv.
  - simpl. rewrite drop_0. exact H0.
  - clear Hinv. intros i st Hi Hst.
    assert (Hx : exists x, l !! Z.to_nat i = Some x)
      by (apply lookup_lt_is_Some; lia).
    destruct Hx as [x Hx].
    assert (Hch : char_at chars i = x).
    { apply char_at_lookup; [lia |].
      unfold l in Hx. rewrite lookup_take_lt in Hx by lia. exact Hx. }
    replace (Z.to_nat (i + 1)) with (S (Z.to_nat i)) by lia.
    rewrite <- (rewrite_prefix_step (mirrored env) l (Z.to_nat i) x Hx).
    unfold mirror_step. cbv zeta. rewrite Hch.
    change (mirrored env x)
      with (if u_isMirrored env x then to_uint16 (u_charMirror env x) else x).
    destruct (u_isMirrored env x); cbn [negb].
    + cbn [useNormalizedString mNormalizedString].
      assert (Hs1 : mNormalizedString (ensure_normalized chars count st)
                    = (mirrored env <$> take (Z.to_nat i) l) ++ drop (Z.to_nat i) l).
      { rewrite <- Hst. unfold ensure_normalized.
        destruct (useNormalizedString st); reflexivity. }
      rewrite Hs1. apply setCharAt_in_range.
      rewrite length_app, length_fmap, length_take, length_drop. lia.
    + rewrite Hst. symmetry. apply list_insert_id.
      rewrite lookup_app_r by (rewrite length_fmap, length_take; lia).
      rewrite length_fmap, length_take, lookup_drop.
      replace (Z.to_nat i + (Z.to_nat i - Z.to_nat i `min` length l))%nat
        with (Z.to_nat i) by lia.
      exact Hx.
Qed.

(** X7.  A run without combining diacritical marks reaches the shaper
    unchanged when it is shaped left to right, and with each code unit
    that ICU reports as mirrored replaced by its mirror image (and no
    other change) when it is shaped right to left. *)
Theorem shaping_string_without_marks chars count (isRTL : bool) :
  0 <= count <= Z.of_nat (length chars) ->
  no_diacritics env chars count ->
  shaping_string env chars count isRTL
  = if isRTL then mirrored env <$> take (Z.to_nat count) chars
    else take (Z.to_nat count) chars.
Proof.
  intros Hc Hno. unfold shaping_string. cbv zeta.
  rewrite normalize_loop_no_marks by (intros k Hk; apply Hno; lia).
  destruct isRTL; [| reflexivity].
  pose proof (mirror_loop_prefix chars count (Z.to_nat count)
                (mkNorm false [] U_ZERO_ERROR) Hc ltac:(lia) eq_refl) as Hloop.
  cbv zeta in Hloop. rewrite Z2Nat.id in Hloop by lia. rewrite Hloop.
  rewrite drop_ge, app_nil_r by (rewrite length_take; lia).
  rewrite take_ge by (rewrite length_take; lia). reflexivity.
Qed.

End ShapingStringContents.

(** ** Normalising a chunk *)

Section Chunks.
Context {F : Type} `{FloatOps F}.
Variable env : Env F.

(** A loop that stores [g k] at each [k] of [j .. j + n - 1]. *)
Lemma foldl_setCharAt (g : Z -> Z) (j : Z) (n : nat) : forall s : list Z,
  0 <= j -> j + Z.of_nat n <= Z.of_nat (length s) ->
  foldl (fun s k => setCharAt s k (g k)) s (seqZ j (Z.of_nat n))
  = take (Z.to_nat j) s ++ (g <$> seqZ j (Z.of_nat n))
    ++ drop (Z.to_nat j + n) s.
Proof.
  induction n as [| n IH]; intros s Hj Hn.
  - rewrite seqZ_nil by lia. simpl. rewrite Nat.add_0_r, take_drop. reflexivity.
  - rewrite seqZ_S, foldl_app, fmap_app. simpl. rewrite IH by lia.
    assert (Hx : exists x, s !! (Z.to_nat j + n)%nat = Some x)
      by (apply lookup_lt_is_Some; lia).
    destruct Hx as [x Hx].
    rewrite setCharAt_in_range
      by (rewrite !length_app, length_take, length_fmap, length_seqZ, length_drop;
          lia).
    rewrite (drop_S s x _ Hx).
    replace (Z.to_nat (j + Z.of_nat n))
      with (length (take (Z.to_nat j) s ++ (g <$> seqZ j (Z.of_nat n))) + 0)%nat
      by (rewrite length_app, length_take, length_fmap, length_seqZ; lia).
    rewrite app_assoc, insert_app_r. simpl.
    rewrite <- !app_assoc. simpl.
    replace (S (Z.to_nat j + n)) with (Z.to_nat j + S n)%nat by lia.
    reflexivity.
Qed.

Lemma fmap_char_at_seqZ (buf : list Z) (j : Z) :
  (fun k => char_at buf (k - j)) <$> seqZ j (Z.of_nat (length buf)) = buf.
Proof.
  apply list_eq. intros p. rewrite list_lookup_fmap.
  destruct (buf !! p) as [x |] eqn:Hx.
  - assert (Hp : (p < length buf)%nat) by (eapply lookup_lt_Some; exact Hx).
    rewrite (lookup_seqZ_lt _ _ p) by lia. simpl. f_equal.
    apply char_at_lookup; [lia |].
    replace (Z.to_nat (j + Z.of_nat p - j)) with p by lia. exact Hx.
  - apply lookup_ge_None in Hx. rewrite lookup_seqZ_ge by lia. reflexivity.
Qed.

Lemma fmap_const_seqZ {A} (c : A) (lo : Z) (n : nat) :
  (fun _ : Z => c) <$> seqZ lo (Z.of_nat n) = replicate n c.
Proof.
  revert lo. induction n as [| n IH]; intros lo.
  - rewrite seqZ_nil by lia. reflexivity.
  - rewrite seqZ_cons by lia. simpl.
    replace (Z.pred (Z.of_nat (S n))) with (Z.of_nat n) by lia.
    rewrite IH. reflexivity.
Qed.

(** The state after a chunk that the normaliser composed into a result
    no longer than the chunk. *)
Lemma normalize_chunk_success chars count i j st buf e' :
  0 <= j <= i -> i < count -> count <= Z.of_nat (length chars) ->
  norm_sized chars count st ->
  Normalizer_normalize env (take (Z.to_nat (i - j + 1)) (drop (Z.to_nat j) chars))
                       (error st) = (buf, e') ->
  U_SUCCESS e' = true -> Z.of_nat (length buf) <= i - j + 1 ->
  let before := if useNormalizedString st then mNormalizedString st
                else take (Z.to_nat count) chars in
  length before = Z.to_nat count
  /\ normalize_chunk env chars count i j st
     = mkNorm true
         (take (Z.to_nat j) before ++ buf
          ++ replicate (Z.to_nat (i - j + 1) - length buf) UNICODE_ZWSP
          ++ drop (Z.to_nat (i + 1)) before)
         e'.
Proof.
  intros Hj Hi Hc Hst Hnorm Hok Hlen before.
  assert (Hb : length before = Z.to_nat count).
  { unfold before. destruct (useNormalizedString st) eqn:Hu.
    - rewrite (Hst Hu), length_take. lia.
    - rewrite length_take. lia. }
  split; [exact Hb |].
  unfold normalize_chunk. rewrite Hnorm, Hok. f_equal.
  assert (Hs0 : mNormalizedString (ensure_normalized chars count st) = before).
  { unfold ensure_normalized, before.
    destruct (useNormalizedString st); reflexivity. }
  rewrite Hs0.
  rewrite (foldl_setCharAt (fun k => char_at buf (k - j))) by lia.
  rewrite fmap_char_at_seqZ.
  replace (i - (j + Z.of_nat (length buf)) + 1)
    with (Z.of_nat (Z.to_nat (i - j + 1) - length buf)) by lia.
  rewrite (foldl_setCharAt (fun _ => UNICODE_ZWSP))
    by (rewrite ?length_app, ?length_take, ?length_drop; lia).
  rewrite fmap_const_seqZ.
  set (pad := replicate _ UNICODE_ZWSP).
  set (front := take (Z.to_nat j) before ++ buf).
  assert (Hfront : length front = Z.to_nat (j + Z.of_nat (length buf)))
    by (unfold front; rewrite length_app, length_take; lia).
  rewrite (app_assoc _ buf), <- Hfront.
  fold front. rewrite take_app_length.
  rewrite (app_assoc (take (Z.to_nat j) before) buf). fold front.
  f_equal. f_equal.
  rewrite drop_app_ge by lia.
  rewrite drop_drop. f_equal. lia.
Qed.

(** X8.  Normalising the chunk [chars[j .. i]] of a main code point and
    its diacritics: when the normaliser succeeds with a result no longer
    than the chunk, the string for the shaper holds the result from [j]
    on, zero-width spaces up to [i], and is otherwise what it was, so
    that there is still one code unit per character; when the normaliser
    fails, the string and the choice to use it are what they were. *)
Theorem normalize_chunk_pads chars count i j st :
  0 <= j <= i -> i < count -> count <= Z.of_nat (length chars) ->
  norm_sized chars count st ->
  let chunk := take (Z.to_nat (i - j + 1)) (drop (Z.to_nat j) chars) in
  let mBuffer := fst (Normalizer_normalize env chunk (error st)) in
  let error' := snd (Normalizer_normalize env chunk (error st)) in
  let before := if useNormalizedString st then mNormalizedString st
                else take (Z.to_nat count) chars in
  let st' := normalize_chunk env chars count i j st in
  error st' = error'
  /\ (U_SUCCESS error' = false ->
      useNormalizedString st' = useNormalizedString st
      /\ mNormalizedString st' = mNormalizedString st)
  /\ (U_SUCCESS error' = true ->
      Z.of_nat (length mBuffer) <= i - j + 1 ->
      useNormalizedString st' = true
      /\ mNormalizedString st'
         = take (Z.to_nat j) before ++ mBuffer
           ++ replicate (Z.to_nat (i - j + 1) - length mBuffer) UNICODE_ZWSP
           ++ drop (Z.to_nat (i + 1)) before
      /\ length (mNormalizedString st') = length before).
Proof.
  intros Hj Hi Hc Hst chunk mBuffer error' before st'.
  subst st' mBuffer error' chunk.
  destruct (Normalizer_normalize env _ (error st)) as [buf e'] eqn:Hnorm.
  cbn [fst snd]. split; [| split].
  - unfold normalize_chunk. rewrite Hnorm. destruct (U_SUCCESS e'); reflexivity.
  - intros Hfail. unfold normalize_chunk. rewrite Hnorm, Hfail. auto.
  - intros Hok Hlen.
    destruct (normalize_chunk_success chars count i j st buf e'
                Hj Hi Hc Hst Hnorm Hok Hlen) as [Hb ->].
    fold before in Hb |- *. cbn [useNormalizedString mNormalizedString].
    split; [reflexivity |]. split; [reflexivity |].
    rewrite !length_app, length_take, length_replicate, length_drop. lia.
Qed.

Lemma find_main_code_point_first chars (n : nat) :
  is_diacritic env (char_at chars 0) = false ->
  (forall k, 0 < k < Z.of_nat n -> is_diacritic env (char_at chars k) = true) ->
  (0 < n)%nat ->
  find_main_code_point env chars n = Some 0.
Proof.
  intros H0 Hmarks. induction n as [| n IH]; intros Hn; [lia |].
  cbn [find_main_code_point].
  destruct (Nat.eq_dec n 0%nat) as [-> | Hne].
  - change (Z.of_nat 0) with 0. rewrite H0. reflexivity.
  - rewrite (Hmarks (Z.of_nat n)) by lia. cbn [negb].
    apply IH; [| lia]. intros k Hk. apply Hmarks. lia.
Qed.

(** X9.  A run made of a base character followed only by combining
    diacritical marks, shaped left to right: when the normaliser
    composes it into a result no longer than the run, the shaper gets
    that result followed by zero-width spaces up to the length of the
    run, so that there is still one code unit, hence one advance, per
    character. *)
Theorem shaping_string_composes chars count :
  1 < count <= Z.of_nat (length chars) ->
  is_diacritic env (char_at chars 0) = false ->
  (forall k, 0 < k < count -> is_diacritic env (char_at chars k) = true) ->
  let composed :=
    Normalizer_normalize env (take (Z.to_nat count) chars) U_ZERO_ERROR in
  U_SUCCESS (snd composed) = true ->
  Z.of_nat (length (fst composed)) <= count ->
  shaping_string env chars count false
  = fst composed
    ++ replicate (Z.to_nat count - length (fst composed)) UNICODE_ZWSP.
Proof.
  intros Hc H0 Hmarks composed Hok Hlen.
  unfold shaping_string. cbv zeta.
  assert (Hfuel : exists n, Z.to_nat count = S n)
    by (exists (Z.to_nat (count - 1)); lia).
  destruct Hfuel as [n Hn].
  replace (normalize_loop env (Z.to_nat count))
    with (normalize_loop env (S n)) by (rewrite Hn; reflexivity).
  cbn [normalize_loop].
  destruct (Z.ltb_spec (count - 1) 0); [lia |].
  rewrite (Hmarks (count - 1)) by lia.
  rewrite (find_main_code_point_first chars (Z.to_nat (count - 1)) H0)
    by (try lia; intros k Hk; apply Hmarks; lia).
  destruct (normalize_chunk_success chars count (count - 1) 0
              (mkNorm false [] U_ZERO_ERROR) (fst composed) (snd composed))
    as [_ Hchunk]; try lia; try assumption.
  { intros Hu. discriminate Hu. }
  { cbn [error]. replace (count - 1 - 0 + 1) with count by lia.
    change (Z.to_nat 0) with 0%nat. rewrite drop_0. apply surjective_pairing. }
  rewrite Hchunk. cbn [useNormalizedString].
  assert (Hstop : forall st, normalize_loop env n chars count (0 - 1 - 1) st = st)
    by (intros st; destruct n; reflexivity).
  rewrite Hstop. cbn [useNormalizedString mNormalizedString].
  replace (count - 1 - 0 + 1) with count by lia.
  replace (Z.to_nat (count - 1 + 1)) with (Z.to_nat count) by lia.
  rewrite (drop_ge (take _ _)) by (rewrite length_take; lia).
  rewrite app_nil_r. reflexivity.
Qed.

End Chunks.

(** ** Invariants of the shaper and of the value across [computeValues] *)

Section ComputeInvariant.
Context {F : Type} `{FloatOps F}.
Variable env : Env F.
Variable Qs : TextLayoutShaper -> Prop.
Variable Qv : TextLayoutValue F -> Prop.
Hypothesis Qs_shapeFontRun : forall fuel sh paint string item isRTL sh' base,
  Qs sh -> shapeFontRun env fuel sh paint string item isRTL = Some (sh', base) ->
  Qs sh'.
Hypothesis Qv_script_run_body : forall sh base item isRTL skewX t v,
  Qv v -> Qv (snd (script_run_body env sh base item isRTL skewX t v)).
Hypothesis Qv_set_advances : forall v a, Qv v -> Qv (set_advances v a).
Hypothesis Qv_set_totalAdvance : forall v t, Qv v -> Qv (set_totalAdvance v t).
Hypothesis Qv_clear_outputs : forall v, Qv v -> Qv (clear_outputs env v).

Lemma script_runs_loop_invariant fuel runs :
  forall sh paint string isRTL t v sh' t' v',
  Qs sh -> Qv v ->
  script_runs_loop env fuel runs sh paint string isRTL t v = Some (sh', t', v') ->
  Qs sh' /\ Qv v'.
Proof.
  induction runs as [| item rest IH]; intros sh paint string isRTL t v sh' t' v'
                                            Hs Hv; cbn [script_runs_loop].
  - intros [= <- _ <-]. auto.
  - destruct (shapeFontRun env fuel sh paint string item isRTL)
      as [[sh1 base] |] eqn:Hshape; [| discriminate].
    pose proof (Qv_script_run_body sh1 base item isRTL (paint_textSkewX paint) t v Hv)
      as Hb.
    destruct (script_run_body _ _ _ _ _ _ _) as [t1 v1]. simpl in Hb.
    apply IH; [| exact Hb]. eapply Qs_shapeFontRun; eassumption.
Qed.

Lemma computeRunValues_invariant fuel sh paint chars count isRTL v sh' v' :
  Qs sh -> Qv v ->
  computeRunValues env fuel sh paint chars count isRTL v = Some (sh', v') ->
  Qs sh' /\ Qv v'.
Proof.
  intros Hs Hv. unfold computeRunValues.
  destruct (count =? 0); [intros [= <- <-]; auto |]. cbv zeta.
  destruct (script_runs_loop _ _ _ _ _ _ _ _ _) as [[[sh1 t1] v1] |] eqn:Hloop;
    [| discriminate].
  intros [= <- <-].
  apply script_runs_loop_invariant in Hloop; [| assumption | auto].
  destruct Hloop. auto.
Qed.

Lemma visual_runs_loop_invariant fuel visual_run paraDir paint chars start end_
    indices :
  forall sh v sh' v' d,
  Qs sh -> Qv v ->
  visual_runs_loop env fuel indices visual_run paraDir sh paint chars start end_ v
    = Some (sh', v', d) ->
  Qs sh' /\ Qv v'.
Proof.
  induction indices as [| i rest IH]; intros sh v sh' v' d Hs Hv;
    cbn [visual_runs_loop].
  - intros [= <- <- _]. auto.
  - destruct (visual_run i) as [[runDir startRun] lengthRun].
    destruct (_ || _); [intros [= <- <- _]; auto |].
    destruct (_ >=? _); [apply IH; assumption |].
    destruct (_ <=? _); [apply IH; assumption |]. cbv zeta.
    destruct (computeRunValues _ _ _ _ _ _ _ _) as [[sh1 v1] |] eqn:Hrun;
      [| discriminate].
    apply computeRunValues_invariant in Hrun; [| assumption..].
    destruct Hrun. apply IH; assumption.
Qed.

(** Whatever [shapeFontRun] keeps of the shaper, and the body of the
    script-run loop and the resets keep of the value, [computeValues]
    keeps. *)
Lemma computeValues_invariant fuel sh paint chars start count contextCount
    dirFlags v sh' v' :
  Qs sh -> Qv v ->
  computeValues env fuel sh paint chars start count contextCount dirFlags v
    = Some (sh', v') ->
  Qs sh' /\ Qv v'.
Proof.
  intros Hs Hv. unfold computeValues. cbv zeta.
  assert (Hv0 : Qv (set_totalAdvance v fzero)) by auto.
  destruct (count =? 0); [intros [= <- <-]; auto |].
  destruct (bidi_request dirFlags) as [[bidiReq forceLTR] forceRTL].
  destruct (_ || _); [apply computeRunValues_invariant; assumption |].
  destruct (ubidi env chars contextCount bidiReq)
    as [| | paraLevel ok rc visual_run];
    try (apply computeRunValues_invariant; assumption).
  destruct (_ && _); [apply computeRunValues_invariant; assumption |].
  destruct (_ || _); [apply computeRunValues_invariant; assumption |].
  destruct (visual_runs_loop _ _ _ _ _ _ _ _ _ _ _) as [[[sh1 v1] d] |] eqn:Hloop;
    [| discriminate].
  apply visual_runs_loop_invariant in Hloop; [| assumption..].
  destruct Hloop.
  destruct d; [apply computeRunValues_invariant; assumption |].
  intros [= <- <-]. auto.
Qed.

End ComputeInvariant.

(** ** Positions and glyphs *)

Section GlyphsAndPositions.
Context {F : Type} `{FloatOps F}.
Variable env : Env F.

(** A loop of [add]s appends one item per round. *)
Lemma items_foldl_add {A} (h : Z -> A) (l : list Z) : forall g : Vector A,
  items (foldl (fun g i => Vector_add env g (h i)) g l) = items g ++ (h <$> l).
Proof.
  induction l as [| i l IH]; intros g; simpl; [rewrite app_nil_r; reflexivity |].
  rewrite IH. simpl. rewrite <- app_assoc. reflexivity.
Qed.

Lemma seqZ_reverse (n : nat) :
  reverse (seqZ 0 (Z.of_nat n)) = (fun i => Z.of_nat n - 1 - i) <$> seqZ 0 (Z.of_nat n).
Proof.
  apply list_eq. intros p. rewrite list_lookup_fmap.
  destruct (decide (p < n)%nat) as [Hp | Hp].
  - rewrite reverse_lookup by (rewrite length_seqZ; lia).
    rewrite length_seqZ, !lookup_seqZ_lt by lia. simpl. f_equal. lia.
  - rewrite lookup_ge_None_2 by (rewrite length_reverse, length_seqZ; lia).
    rewrite lookup_seqZ_ge by lia. reflexivity.
Qed.

Lemma emit_glyphs_items a isRTL glyphBaseCount (outGlyphs : Vector Z) :
  items (emit_glyphs env a isRTL glyphBaseCount outGlyphs)
  = items outGlyphs
    ++ ((fun i => to_uint16 (glyphBaseCount
                   + to_uint16 (nth (Z.to_nat (glyph_index isRTL (num_glyphs a) i))
                                    (glyphs a) 0)))
          <$> seqZ 0 (num_glyphs a)).
Proof. unfold emit_glyphs. cbv zeta. apply items_foldl_add. Qed.

(** X10.  The glyph loop appends to [outGlyphs] the glyphs the shaper
    left, each offset by the glyph base count and cut to 16 bits: in
    the shaper's order for a run shaped left to right, in the reverse
    order for a run shaped right to left. *)
Theorem emit_glyphs_order a (isRTL : bool) glyphBaseCount (outGlyphs : Vector Z) :
  let shaped :=
    (fun i => to_uint16 (glyphBaseCount
                         + to_uint16 (nth (Z.to_nat i) (glyphs a) 0)))
      <$> seqZ 0 (num_glyphs a) in
  items (emit_glyphs env a isRTL glyphBaseCount outGlyphs)
  = items outGlyphs ++ (if isRTL then reverse shaped else shaped).
Proof.
  cbv zeta. rewrite emit_glyphs_items. f_equal. destruct isRTL; unfold glyph_index; cbn [negb]; [| reflexivity].
  rewrite <- fmap_reverse.
  destruct (Z.le_gt_cases (num_glyphs a) 0) as [Hn | Hn].
  - rewrite seqZ_nil by lia. reflexivity.
  - pose proof (seqZ_reverse (Z.to_nat (num_glyphs a))) as Hr.
    rewrite Z2Nat.id in Hr by lia.
    rewrite Hr, <- list_fmap_compose. reflexivity.
Qed.

End GlyphsAndPositions.

(** ** What a call keeps of the shaper and of the value *)

Section ShaperFrame.
Context {F : Type} `{FloatOps F}.
Variable env : Env F.

(** The state the shaper keeps between runs: the capacity of the glyph
    arrays and the faces. *)
Lemma shaping_loop_frame fuel string item paint face : forall sh size sh',
  shaping_loop env fuel sh string item paint face size = Some sh' ->
  mShaperItemGlyphArraySize sh <= mShaperItemGlyphArraySize sh'
  /\ mCachedHBFaces sh' = mCachedHBFaces sh
  /\ mDefaultTypeface sh' = mDefaultTypeface sh.
Proof.
  induction fuel as [| fuel IH]; intros sh size sh'; cbn [shaping_loop];
    [discriminate |].
  unfold doShaping. cbv zeta.
  assert (Hres : mShaperItemGlyphArraySize sh
                 <= mShaperItemGlyphArraySize (resize_arrays sh size)
                 /\ mCachedHBFaces (resize_arrays sh size) = mCachedHBFaces sh
                 /\ mDefaultTypeface (resize_arrays sh size) = mDefaultTypeface sh).
  { unfold resize_arrays. destruct (Z.gtb_spec size (mShaperItemGlyphArraySize sh));
      simpl; repeat split; try reflexivity; lia. }
  destruct (HB_ShapeItem env _) as [ok arrays].
  destruct ok.
  - intros [= <-]. exact Hres.
  - intros Hloop. apply IH in Hloop.
    cbn [set_shaperItem mShaperItemGlyphArraySize mCachedHBFaces mDefaultTypeface]
      in Hloop.
    destruct Hres as (Hsize & Hfaces & Hdef). rewrite Hfaces, Hdef in Hloop.
    split; [lia | tauto].
Qed.

Lemma getCachedHBFace_frame sh typeface :
  mCachedHBFaces sh ⊆ mCachedHBFaces (fst (getCachedHBFace env sh typeface))
  /\ mDefaultTypeface (fst (getCachedHBFace env sh typeface)) = mDefaultTypeface sh
  /\ (faces_not_null sh -> faces_not_null (fst (getCachedHBFace env sh typeface))).
Proof.
  unfold getCachedHBFace.
  destruct (mCachedHBFaces sh !! typeface_uniqueID env typeface) eqn:Hlook;
    cbn [fst]; [auto |].
  destruct (Z.eqb_spec (HB_NewFace env typeface) 0) as [Hnull | Hface];
    cbn [negb fst]; [auto |].
  split; [| split; [reflexivity |]].
  - cbn [mCachedHBFaces]. apply insert_subseteq. exact Hlook.
  - intros Hsh id face. cbn [mCachedHBFaces].
    destruct (decide (typeface_uniqueID env typeface = id)) as [<- | Hid].
    + rewrite lookup_insert_eq. intros [= <-]. exact Hface.
    + rewrite lookup_insert_ne by exact Hid. apply Hsh.
Qed.

Lemma shapeFontRun_frame fuel sh paint string item isRTL sh' base :
  shapeFontRun env fuel sh paint string item isRTL = Some (sh', base) ->
  mShaperItemGlyphArraySize sh <= mShaperItemGlyphArraySize sh'
  /\ mCachedHBFaces sh ⊆ mCachedHBFaces sh'
  /\ mDefaultTypeface sh' = mDefaultTypeface sh
  /\ (faces_not_null sh -> faces_not_null sh').
Proof.
  unfold shapeFontRun. cbv zeta.
  set (typeface := run_typeface env sh paint _ _).
  pose proof (getCachedHBFace_frame sh typeface) as (Hsub & Hdef & Hnn).
  pose proof (getCachedHBFace_arrays env sh typeface) as Harr.
  destruct (getCachedHBFace env sh typeface) as [sh1 face]. cbn [fst] in *.
  destruct (shaping_loop env fuel sh1 _ _ _ _ _) as [sh2 |] eqn:Hloop;
    [| discriminate].
  intros [= <- _]. apply shaping_loop_frame in Hloop.
  destruct Hloop as (Hsize & Hf & Hd).
  unfold faces_not_null in *. rewrite Hf, Hd.
  split; [lia |]. split; [assumption |]. split; assumption.
Qed.

(** The shaper after [computeValues]: arrays at least as large, every
    face still there, no NULL face if there was none. *)
Lemma computeValues_frame fuel sh paint chars start count contextCount dirFlags
    (v : TextLayoutValue F) sh' v' :
  computeValues env fuel sh paint chars start count contextCount dirFlags v
    = Some (sh', v') ->
  mShaperItemGlyphArraySize sh <= mShaperItemGlyphArraySize sh'
  /\ mCachedHBFaces sh ⊆ mCachedHBFaces sh'
  /\ mDefaultTypeface sh' = mDefaultTypeface sh
  /\ (faces_not_null sh -> faces_not_null sh').
Proof.
  intros Hcv.
  apply (computeValues_invariant env
           (fun s => mShaperItemGlyphArraySize sh <= mShaperItemGlyphArraySize s
                     /\ mCachedHBFaces sh ⊆ mCachedHBFaces s
                     /\ mDefaultTypeface s = mDefaultTypeface sh
                     /\ (faces_not_null sh -> faces_not_null s))
           (fun _ => True)) in Hcv; auto.
  - tauto.
  - intros fuel0 s paint0 string item isRTL s' base (Hsize & Hsub & Hdef & Hnn)
           Hshape.
    apply shapeFontRun_frame in Hshape.
    destruct Hshape as (Hsize' & Hsub' & Hdef' & Hnn').
    split; [lia |]. split; [etrans; eassumption |].
    split; [congruence | auto].
  - split; [lia |]. split; [reflexivity | auto].
Qed.

Lemma Vector_size_foldl_add {A} (h : Z -> A) (l : list Z) (g : Vector A) :
  Vector_size (foldl (fun g i => Vector_add env g (h i)) g l)
  = Vector_size g + Z.of_nat (length l).
Proof.
  unfold Vector_size. rewrite items_foldl_add, length_app, length_fmap. lia.
Qed.

Lemma emit_positions_size a isRTL skewX : forall (l : list Z) (x : F) (p : Vector F),
  Vector_size (snd (foldl (fun (st : F * Vector F) i =>
           let '(x, p) := st in
           let index := glyph_index isRTL (num_glyphs a) i in
           let o := nth (Z.to_nat index) (offsets a) (0, 0) in
           let xo := HBFixedToFloat (fst o) in
           let yo := HBFixedToFloat (snd o) in
           (fadd x (HBFixedToFloat (hb_advance a index)),
            Vector_add env (Vector_add env p (fadd (fadd x xo) (fmul yo skewX))) yo))
        (x, p) l))
  = Vector_size p + 2 * Z.of_nat (length l).
Proof.
  induction l as [| i l IH]; intros x p; simpl; [lia |].
  rewrite IH, !Vector_size_add. lia.
Qed.

Lemma script_run_body_pos_per_glyph sh base item isRTL skewX t (v : TextLayoutValue F) :
  pos_per_glyph v ->
  pos_per_glyph (snd (script_run_body env sh base item isRTL skewX t v)).
Proof.
  unfold pos_per_glyph, script_run_body. intros Hv.
  destruct (_ || _); [exact Hv |]. cbv zeta.
  destruct (foldl _ _ _) as [[tf cs] adv]. cbn [snd set_pos set_glyphs mPos mGlyphs].
  unfold emit_positions, emit_glyphs. cbv zeta.
  rewrite emit_positions_size, Vector_size_foldl_add. lia.
Qed.

Lemma computeValues_pos_per_glyph fuel sh paint chars start count contextCount
    dirFlags (v : TextLayoutValue F) sh' v' :
  pos_per_glyph v ->
  computeValues env fuel sh paint chars start count contextCount dirFlags v
    = Some (sh', v') ->
  pos_per_glyph v'.
Proof.
  intros Hv Hcv.
  apply (computeValues_invariant env (fun _ => True) pos_per_glyph) in Hcv; auto.
  - tauto.
  - intros. apply script_run_body_pos_per_glyph. assumption.
  - intros. unfold pos_per_glyph, Vector_size. simpl. lia.
Qed.

End ShaperFrame.

Section ReturnedValues.
Context {F : Type} `{FloatOrder F}.
Variable env : Env F.
Hypothesis max_size_range : 0 <= default_max_size env < 2 ^ 31.

(** Under the shaper contract a valid call in a state valid calls lead
    to returns a value computed for a key that ties with its own. *)
Lemma getValue_result_computed fuel c paint text start count contextCount dirFlags :
  shaper_contract env -> (2 <= fuel)%nat ->
  reachable env c ->
  valid_request paint text start count contextCount dirFlags ->
  let key := TextLayoutCacheKey_new paint text start count contextCount dirFlags in
  exists c' v k,
    getValue env fuel c paint text start count contextCount dirFlags
      = Returns (c', Some v)
    /\ key_is_request k /\ compare k key = 0 /\ computed_for env k v.
Proof.
  intros Hshaper Hfuel Hreach Hvalid key.
  apply (getValue_returns_computed env max_size_range); [assumption.. |].
  destruct (computeValues_returns env fuel (mShaper c) paint (textCopy key)
              start count contextCount dirFlags
              (TextLayoutValue_new env contextCount (heap_next c))
              Hshaper Hfuel) as (sh & v & Hcv).
  eauto.
Qed.

(** X11.  Every value [getValue] returns holds two positions, x and y,
    for each glyph: [mPos] is twice as long as [mGlyphs]. *)
Theorem positions_pair_with_glyphs fuel c paint text start count contextCount
    dirFlags :
  shaper_contract env -> (2 <= fuel)%nat ->
  reachable env c ->
  valid_request paint text start count contextCount dirFlags ->
  exists c' v,
    getValue env fuel c paint text start count contextCount dirFlags
      = Returns (c', Some v)
    /\ Z.of_nat (length (items (mPos v)))
       = 2 * Z.of_nat (length (items (mGlyphs v))).
Proof.
  intros Hshaper Hfuel Hreach Hvalid.
  destruct (getValue_result_computed fuel c paint text start count contextCount
              dirFlags Hshaper Hfuel Hreach Hvalid)
    as (c' & v & k & Hget & _ & _ & (fuel0 & sh0 & sh1 & addr & Hcv)).
  exists c', v. split; [exact Hget |].
  apply (computeValues_pos_per_glyph env) in Hcv; [exact Hcv |].
  unfold pos_per_glyph, Vector_size. simpl. lia.
Qed.

(** X12.  A call never shrinks the glyph arrays of the shaper and never
    drops or replaces a face: whatever face a font had before the call
    it has afterwards (only [purgeCaches] forgets faces). *)
Theorem getValue_keeps_shaper_caches fuel c paint text start count contextCount
    dirFlags :
  shaper_contract env -> (2 <= fuel)%nat ->
  reachable env c ->
  valid_request paint text start count contextCount dirFlags ->
  exists c' v,
    getValue env fuel c paint text start count contextCount dirFlags
      = Returns (c', Some v)
    /\ mShaperItemGlyphArraySize (mShaper c)
       <= mShaperItemGlyphArraySize (mShaper c')
    /\ forall id face,
         mCachedHBFaces (mShaper c) !! id = Some face ->
         mCachedHBFaces (mShaper c') !! id = Some face.
Proof.
  intros Hshaper Hfuel Hreach Hvalid.
  destruct (getValue_result_computed fuel c paint text start count contextCount
              dirFlags Hshaper Hfuel Hreach Hvalid)
    as (c' & v & _ & Hget & _).
  exists c', v. split; [exact Hget |].
  pose proof (reachable_inv env max_size_range c Hreach) as Hinv.
  destruct (getValue_shaper env max_size_range fuel c paint text start count
              contextCount dirFlags c' (Some v) Hinv Hvalid Hget)
    as [[_ ->] | (_ & w & _ & Hcv)]; [split; [lia | auto] |].
  apply computeValues_frame in Hcv. destruct Hcv as (Hsize & Hsub & _ & _).
  split; [exact Hsize |]. intros id face Hlook.
  eapply lookup_weaken; eassumption.
Qed.

(** X13.  In every state valid calls lead to, no face in the shaper's
    cache is NULL: [purgeCaches] hands [HB_FreeFace] faces that exist. *)
Theorem cached_faces_not_null c id face :
  reachable env c ->
  mCachedHBFaces (mShaper c) !! id = Some face -> face <> 0.
Proof.
  intros Hreach. revert id face. change (faces_not_null (mShaper c)).
  induction Hreach as [| c fuel paint text start count contextCount dirFlags c' r
                         Hreach IH Hvalid Hget | c _ IH].
  - intros id face. simpl. rewrite lookup_empty. discriminate.
  - pose proof (reachable_inv env max_size_range c Hreach) as Hinv.
    destruct (getValue_shaper env max_size_range fuel c paint text start count
                contextCount dirFlags c' r Hinv Hvalid Hget)
      as [[_ ->] | (_ & w & _ & Hcv)]; [exact IH |].
    apply computeValues_frame in Hcv. destruct Hcv as (_ & _ & _ & Hnn). auto.
  - intros id face. simpl. rewrite lookup_empty. discriminate.
Qed.

Lemma reachable_default_typeface c :
  reachable env c -> mDefaultTypeface (mShaper c) = SkFontHost_CreateTypeface env.
Proof.
  induction 1 as [| c fuel paint text start count contextCount dirFlags c' r
                    Hreach IH Hvalid Hget | c _ IH]; [reflexivity | | reflexivity].
  pose proof (reachable_inv env max_size_range c Hreach) as Hinv.
  destruct (getValue_shaper env max_size_range fuel c paint text start count
              contextCount dirFlags c' r Hinv Hvalid Hget)
    as [[_ ->] | (_ & w & _ & Hcv)]; [exact IH |].
  apply computeValues_frame in Hcv. destruct Hcv as (_ & _ & Hdef & _). congruence.
Qed.

(** X14.  As long as the font host provides a default typeface, the
    typeface [shapeFontRun] shapes with, and asks the unique id of, is
    never NULL: a paint without typeface, or a script for which no
    fallback typeface is found, gets the default typeface. *)
Theorem run_typeface_not_null c (paint : SkPaint F) baseGlyphCount script :
  SkFontHost_CreateTypeface env <> 0 ->
  reachable env c ->
  run_typeface env (mShaper c) paint baseGlyphCount script <> 0
  /\ (paint_typeface paint = 0 -> baseGlyphCount = 0 ->
      run_typeface env (mShaper c) paint baseGlyphCount script
      = SkFontHost_CreateTypeface env)
  /\ (paint_typeface paint <> 0 -> baseGlyphCount = 0 ->
      run_typeface env (mShaper c) paint baseGlyphCount script
      = paint_typeface paint).
Proof.
  intros Hdefault Hreach.
  pose proof (reachable_default_typeface c Hreach) as Hdef.
  unfold run_typeface. cbv zeta. rewrite Hdef.
  destruct (Z.eqb_spec baseGlyphCount 0) as [Hb | Hb]; cbn [negb].
  - destruct (Z.eqb_spec (paint_typeface paint) 0); repeat split; intros;
      try assumption; try reflexivity; try contradiction.
  - destruct (Z.eqb_spec (typefaceForScript env (paint_typeface paint) script) 0);
      repeat split; intros; try assumption; try contradiction.
Qed.

End ReturnedValues.

(** ** The items of a value do not depend on the capacity hint *)

Section SameItems.
Context {F : Type} `{FloatOps F}.
Variable env : Env F.

Lemma items_replaceAt_congr {A} (a1 a2 : Vector A) x index :
  items a1 = items a2 ->
  items (Vector_replaceAt a1 x index) = items (Vector_replaceAt a2 x index).
Proof.
  intros Ha. unfold Vector_replaceAt, Vector_size. rewrite Ha.
  destruct (_ && _); simpl; congruence.
Qed.

Lemma cluster_loop_same_items a pos len l : forall t cs (a1 a2 : Vector F),
  items a1 = items a2 ->
  let r1 := foldl (cluster_step a pos len) (t, cs, a1) l in
  let r2 := foldl (cluster_step a pos len) (t, cs, a2) l in
  fst r1 = fst r2 /\ items (snd r1) = items (snd r2).
Proof.
  induction l as [| i l IH]; intros t cs a1 a2 Ha; simpl; [auto |].
  unfold cluster_step at 2 4. cbv zeta.
  destruct (negb _); [| apply IH; assumption].
  apply IH. apply items_replaceAt_congr. assumption.
Qed.

Lemma position_loop_same_items a isRTL skewX (l : list Z) :
  forall (x : F) (p1 p2 : Vector F),
  items p1 = items p2 ->
  let step := fun (st : F * Vector F) i =>
           let '(x, p) := st in
           let index := glyph_index isRTL (num_glyphs a) i in
           let o := nth (Z.to_nat index) (offsets a) (0, 0) in
           let xo := HBFixedToFloat (fst o) in
           let yo := HBFixedToFloat (snd o) in
           (fadd x (HBFixedToFloat (hb_advance a index)),
            Vector_add env (Vector_add env p (fadd (fadd x xo) (fmul yo skewX))) yo) in
  items (snd (foldl step (x, p1) l)) = items (snd (foldl step (x, p2) l)).
Proof.
  induction l as [| i l IH]; intros x p1 p2 Hp; simpl; [assumption |].
  apply IH. simpl. rewrite Hp. reflexivity.
Qed.

Lemma script_run_body_same_items sh base item isRTL skewX t
    (v1 v2 : TextLayoutValue F) :
  same_items v1 v2 ->
  fst (script_run_body env sh base item isRTL skewX t v1)
  = fst (script_run_body env sh base item isRTL skewX t v2)
  /\ same_items (snd (script_run_body env sh base item isRTL skewX t v1))
                (snd (script_run_body env sh base item isRTL skewX t v2)).
Proof.
  intros (Ha & Ht & Hg & Hp). unfold script_run_body.
  destruct (_ || _); [repeat split; assumption |]. cbv zeta.
  pose proof (cluster_loop_same_items (mShaperItem sh) (item_pos item)
                (item_length item) (seqZ 0 (item_length item)) fzero 0
                (mAdvances v1) (mAdvances v2) Ha) as [Hfst Hitems].
  cbv zeta in Hfst, Hitems.
  destruct (foldl _ (fzero, 0, mAdvances v1) _) as [[t1 cs1] adv1].
  destruct (foldl _ (fzero, 0, mAdvances v2) _) as [[t2 cs2] adv2].
  cbn [fst snd] in *. injection Hfst as -> ->.
  split; [reflexivity |]. unfold same_items. cbn.
  split; [exact Hitems |]. split; [exact Ht |]. split.
  - rewrite !emit_glyphs_items, Hg. reflexivity.
  - unfold emit_positions. cbv zeta. apply position_loop_same_items. exact Hp.
Qed.

Lemma script_runs_loop_same_items fuel runs :
  forall sh paint string isRTL t (v1 v2 : TextLayoutValue F) sh' t' v1',
  same_items v1 v2 ->
  script_runs_loop env fuel runs sh paint string isRTL t v1 = Some (sh', t', v1') ->
  exists v2',
    script_runs_loop env fuel runs sh paint string isRTL t v2 = Some (sh', t', v2')
    /\ same_items v1' v2'.
Proof.
  induction runs as [| item rest IH];
    intros sh paint string isRTL t v1 v2 sh' t' v1' Hv; cbn [script_runs_loop].
  - intros [= <- <- <-]. eauto.
  - destruct (shapeFontRun env fuel sh paint string item isRTL)
      as [[sh1 base] |]; [| discriminate].
    pose proof (script_run_body_same_items sh1 base item isRTL
                  (paint_textSkewX paint) t v1 v2 Hv) as [Hfst Hsnd].
    destruct (script_run_body _ _ _ _ _ _ _ v1) as [ta va].
    destruct (script_run_body _ _ _ _ _ _ _ v2) as [tb vb].
    cbn [fst snd] in *. subst tb. apply IH. exact Hsnd.
Qed.

Lemma computeRunValues_same_items fuel sh paint chars count isRTL
    (v1 v2 : TextLayoutValue F) sh' v1' :
  same_items v1 v2 ->
  computeRunValues env fuel sh paint chars count isRTL v1 = Some (sh', v1') ->
  exists v2',
    computeRunValues env fuel sh paint chars count isRTL v2 = Some (sh', v2')
    /\ same_items v1' v2'.
Proof.
  intros Hv. unfold computeRunValues.
  destruct (count =? 0); [intros [= <- <-]; eauto |]. cbv zeta.
  destruct (script_runs_loop _ _ _ _ _ _ _ _ _) as [[[sh1 t1] va] |] eqn:Hloop;
    [| discriminate].
  intros [= <- <-].
  assert (Hv0 : same_items
            (set_advances v1 (foldl (fun a _ => Vector_add env a fzero)
                                    (mAdvances v1) (seqZ 0 count)))
            (set_advances v2 (foldl (fun a _ => Vector_add env a fzero)
                                    (mAdvances v2) (seqZ 0 count)))).
  { destruct Hv as (Ha & Ht & Hg & Hp). unfold same_items. cbn.
    rewrite !(items_foldl_add env (fun _ => fzero)), Ha. auto. }
  assert (Ht0 : mTotalAdvance v1 = mTotalAdvance v2) by apply Hv.
  cbn [set_advances mTotalAdvance] in *. rewrite <- Ht0.
  destruct (script_runs_loop_same_items _ _ _ _ _ _ _ _ _ _ _ _ Hv0 Hloop)
    as (vb & -> & (Ha & _ & Hg & Hp)).
  eexists. split; [reflexivity |]. repeat split; assumption.
Qed.

Lemma visual_runs_loop_same_items fuel visual_run paraDir paint chars start end_
    indices :
  forall sh (v1 v2 : TextLayoutValue F) sh' v1' d,
  same_items v1 v2 ->
  visual_runs_loop env fuel indices visual_run paraDir sh paint chars start end_ v1
    = Some (sh', v1', d) ->
  exists v2',
    visual_runs_loop env fuel indices visual_run paraDir sh paint chars start end_ v2
      = Some (sh', v2', d)
    /\ same_items v1' v2'.
Proof.
  induction indices as [| i rest IH]; intros sh v1 v2 sh' v1' d Hv;
    cbn [visual_runs_loop].
  - intros [= <- <- <-]. eauto.
  - destruct (visual_run i) as [[runDir startRun] lengthRun].
    destruct (_ || _).
    { intros [= <- <- <-]. eexists. split; [reflexivity |].
      repeat split; reflexivity. }
    destruct (_ >=? _); [apply IH; assumption |].
    destruct (_ <=? _); [apply IH; assumption |]. cbv zeta.
    destruct (computeRunValues _ _ _ _ _ _ _ v1) as [[sh1 va] |] eqn:Hrun;
      [| discriminate].
    destruct (computeRunValues_same_items _ _ _ _ _ _ _ _ _ _ Hv Hrun)
      as (vb & -> & Hvab).
    apply IH. exact Hvab.
Qed.

(** [computeValues] on two values that hold the same items returns the
    same shaper and values that hold the same items. *)
Lemma computeValues_same_items fuel sh paint chars start count contextCount
    dirFlags (v1 v2 : TextLayoutValue F) sh' v1' :
  same_items v1 v2 ->
  computeValues env fuel sh paint chars start count contextCount dirFlags v1
    = Some (sh', v1') ->
  exists v2',
    computeValues env fuel sh paint chars start count contextCount dirFlags v2
      = Some (sh', v2')
    /\ same_items v1' v2'.
Proof.
  intros Hv. unfold computeValues. cbv zeta.
  assert (Hv0 : same_items (set_totalAdvance v1 fzero) (set_totalAdvance v2 fzero)).
  { destruct Hv as (Ha & _ & Hg & Hp). repeat split; assumption. }
  destruct (count =? 0); [intros [= <- <-]; eauto |].
  destruct (bidi_request dirFlags) as [[bidiReq forceLTR] forceRTL].
  destruct (_ || _); [apply computeRunValues_same_items; assumption |].
  destruct (ubidi env chars contextCount bidiReq)
    as [| | paraLevel ok rc visual_run];
    try (apply computeRunValues_same_items; assumption).
  destruct (_ && _); [apply computeRunValues_same_items; assumption |].
  destruct (_ || _); [apply computeRunValues_same_items; assumption |].
  destruct (visual_runs_loop _ _ _ _ _ _ _ _ _ _ (set_totalAdvance v1 fzero))
    as [[[sh1 va] d] |] eqn:Hloop;
    [| discriminate].
  destruct (visual_runs_loop_same_items _ _ _ _ _ _ _ _ _ _ _ _ _ _ Hv0 Hloop)
    as (vb & -> & Hvab).
  destruct d; [apply computeRunValues_same_items; assumption |].
  intros [= <- <-]. eauto.
Qed.

End SameItems.

Section Engine.
Context {F : Type} `{FloatOrder F}.
Variable env : Env F.
Hypothesis max_size_range : 0 <= default_max_size env < 2 ^ 31.

(** X15.  The cache is transparent to the layout: on a text of exactly
    [contextCount] code units, an engine built without the cache
    ([new TextLayoutValue(count)], computed on the caller's buffer) and
    an engine with the cache that misses return, from the same shaper
    state, values with the same advances, total advance, glyphs and
    positions, and leave the shaper in the same state; the size hint of
    the value's constructor changes capacities only. *)
Theorem engine_cache_transparent fuel c next paint text start count contextCount
    dirFlags :
  shaper_contract env -> (2 <= fuel)%nat ->
  reachable env c ->
  valid_request paint text start count contextCount dirFlags ->
  Z.of_nat (length text) = contextCount ->
  GenerationCache_find (mCache c)
    (TextLayoutCacheKey_new paint text start count contextCount dirFlags) = None ->
  exists c' v shaper' v',
    TextLayoutEngine_getValue env fuel (Engine_cached c) paint text start count
                              contextCount dirFlags
      = Returns (Engine_cached c', Some v)
    /\ TextLayoutEngine_getValue env fuel (Engine_uncached (mShaper c) next) paint
                                 text start count contextCount dirFlags
       = Returns (Engine_uncached shaper' (next + 1), Some v')
    /\ shaper' = mShaper c'
    /\ same_items v v'.
Proof.
  intros Hshaper Hfuel Hreach Hvalid Hlen Hmiss.
  destruct (getValue_result_computed env max_size_range fuel c paint text start
              count contextCount dirFlags Hshaper Hfuel Hreach Hvalid)
    as (c' & v & _ & Hget & _).
  pose proof (reachable_inv env max_size_range c Hreach) as Hinv.
  destruct (getValue_shaper env max_size_range fuel c paint text start count
              contextCount dirFlags c' (Some v) Hinv Hvalid Hget)
    as [[Hhit _] | (_ & w & [= <-] & Hcv)]; [contradiction |].
  destruct (valid_request_wrap _ _ _ _ _ _ Hvalid) as (Hws & Hwc & Hwx).
  cbn [textCopy TextLayoutCacheKey_new] in Hcv.
  rewrite take_ge in Hcv by lia.
  destruct (computeValues_same_items env fuel (mShaper c) paint text start count
              contextCount dirFlags
              (TextLayoutValue_new env contextCount (heap_next c))
              (TextLayoutValue_new env count next) (mShaper c') v
              ltac:(repeat split) Hcv) as (v' & Hcv' & Hsame).
  exists c', v, (mShaper c'), v'.
  cbn [TextLayoutEngine_getValue]. rewrite Hget, Hws, Hwc, Hwx, Hcv'.
  auto.
Qed.

End Engine.

(** ** The glyph base count of a run *)

Section BaseGlyphCount.
Context {F : Type} `{FloatOps F}.
Variable env : Env F.

Lemma SkUTF16_NextUnichar_unit (s : list Z) (o : Z) :
  Z.land (char_at s o) 64512 <> 55296 ->
  SkUTF16_NextUnichar s o = (char_at s o, o + 1).
Proof.
  intros Hc. unfold SkUTF16_NextUnichar. cbv zeta.
  destruct (Z.eqb_spec (Z.land (char_at s o) 64512) 55296); [contradiction |].
  reflexivity.
Qed.

Lemma skip_spaces_stop (n : nat) s ch o e :
  ch <> 32 -> skip_spaces n s ch o e = ch.
Proof.
  intros Hch. destruct n; simpl; [reflexivity |].
  destruct (Z.eqb_spec ch 32); [contradiction | reflexivity].
Qed.

(** [k] spaces from [o] on, then [ch]. *)
Lemma skip_spaces_run (k : nat) : forall (n : nat) s o e ch,
  (k < n)%nat -> o + Z.of_nat k < e ->
  (forall i, 0 <= i < Z.of_nat k -> char_at s (o + i) = 32) ->
  char_at s (o + Z.of_nat k) = ch -> ch <> 32 -> Z.land ch 64512 <> 55296 ->
  skip_spaces n s 32 o e = ch.
Proof.
  induction k as [| k IH]; intros n s o e ch Hn He Hsp Hch Hne Hsur;
    (destruct n as [| n]; [lia |]); cbn [skip_spaces].
  - rewrite Z.add_0_r in Hch.
    destruct (Z.ltb_spec o e); [| lia]. cbn [Z.eqb Pos.eqb andb].
    rewrite SkUTF16_NextUnichar_unit by (rewrite Hch; exact Hsur).
    rewrite Hch. apply skip_spaces_stop. exact Hne.
  - destruct (Z.ltb_spec o e); [| lia]. cbn [Z.eqb Pos.eqb andb].
    assert (Ho : char_at s o = 32)
      by (rewrite <- (Z.add_0_r o); apply Hsp; lia).
    rewrite SkUTF16_NextUnichar_unit by (rewrite Ho; discriminate).
    rewrite Ho. apply (IH n s (o + 1) e ch); try assumption; try lia.
    + intros i Hi. replace (o + 1 + i) with (o + (i + 1)) by lia. apply Hsp. lia.
    + replace (o + 1 + Z.of_nat k) with (o + Z.of_nat (S k)) by lia. exact Hch.
Qed.

(** X16.  The glyph base count [shapeFontRun] returns: 0 for a run of
    one of the five simple scripts, whatever the font; for any other
    script, the count the paint reports for the first code unit of the
    run that is not a space (a code unit that does not open a surrogate
    pair), the spaces before it being skipped. *)
Theorem base_glyph_count_skips_spaces (paint : SkPaint F) string pos len script
    level k ch :
  0 <= k < len ->
  (forall i, 0 <= i < k -> char_at string (pos + i) = 32) ->
  char_at string (pos + k) = ch -> ch <> 32 -> Z.land ch 64512 <> 55296 ->
  run_baseGlyphCount env paint string (mkItem pos len script level)
  = if isComplexScript script then getBaseGlyphCount env paint ch else 0.
Proof.
  intros Hk Hsp Hch Hne Hsur. unfold run_baseGlyphCount.
  cbn [item_script item_pos item_length].
  destruct (isComplexScript script); [| reflexivity].
  destruct (Z.eq_dec k 0) as [-> | Hk0].
  - rewrite Z.add_0_r in Hch.
    rewrite SkUTF16_NextUnichar_unit by (rewrite Hch; exact Hsur).
    rewrite Hch, skip_spaces_stop by exact Hne. reflexivity.
  - assert (Hp : char_at string pos = 32)
      by (rewrite <- (Z.add_0_r pos); apply Hsp; lia).
    rewrite SkUTF16_NextUnichar_unit by (rewrite Hp; discriminate).
    rewrite Hp.
    assert (Hskip : skip_spaces (Z.to_nat len) string 32 (pos + 1) (pos + len) = ch).
    { apply (skip_spaces_run (Z.to_nat (k - 1))); try assumption; try lia.
      - intros i Hi. replace (pos + 1 + i) with (pos + (i + 1)) by lia.
        apply Hsp. lia.
      - replace (pos + 1 + Z.of_nat (Z.to_nat (k - 1))) with (pos + k) by lia.
        exact Hch. }
    rewrite Hskip. reflexivity.
Qed.

End BaseGlyphCount.

(** ** Where a run stores its advances *)

Section AdvanceSlots.
Context {F : Type} `{FloatOps F}.
Variable env : Env F.

Lemma lookup_replaceAt_ne {A} (a : Vector A) x index (p : nat) :
  Z.of_nat p <> index ->
  items (Vector_replaceAt a x index) !! p = items a !! p.
Proof.
  intros Hp. unfold Vector_replaceAt.
  destruct (Z.leb_spec 0 index); cbn [andb]; [| reflexivity].
  destruct (_ <? _); [| reflexivity]. cbn [items].
  apply list_lookup_insert_ne. lia.
Qed.

(** The loop over the characters of a script run stores advances in the
    slots of the run only. *)
Lemma cluster_loop_slots a pos (k : nat) (adv0 : Vector F) :
  0 <= pos -> pos + Z.of_nat k < 2 ^ 32 ->
  let r := foldl (cluster_step a pos (Z.of_nat k)) (fzero, 0, adv0)
                 (seqZ 0 (Z.of_nat k)) in
  forall p : nat, pos + Z.of_nat k <= Z.of_nat p ->
    items (snd r) !! p = items adv0 !! p.
Proof.
  intros Hpos Hk.
  pose proof (foldl_seqZ_invariant (cluster_step a pos (Z.of_nat k))
                (fun i (st : F * Z * Vector F) =>
                   0 <= snd (fst st) <= i
                   /\ forall p : nat, pos + Z.of_nat k <= Z.of_nat p ->
                        items (snd st) !! p = items adv0 !! p)
                0 (fzero, 0, adv0) k) as Hinv.
  cbv beta in Hinv. rewrite Z.add_0_l in Hinv.
  cbv zeta. apply Hinv.
  - cbn. split; [lia | reflexivity].
  - clear Hinv. intros i [[t cs] adv] Hi [Hcs Hsame]. cbn [fst snd] in *.
    unfold cluster_step. cbv zeta.
    destruct (negb _); cbn [fst snd]; [| split; [lia | exact Hsame]].
    split; [lia |]. intros p Hp.
    rewrite lookup_replaceAt_ne; [apply Hsame; exact Hp |].
    rewrite wrap32_small by (unfold in_size_t; lia). lia.
Qed.

Lemma script_run_body_slots sh base item isRTL skewX t (v : TextLayoutValue F) :
  0 <= item_pos item -> 0 <= item_length item ->
  item_pos item + item_length item < 2 ^ 32 ->
  forall p : nat, item_pos item + item_length item <= Z.of_nat p ->
    items (mAdvances (snd (script_run_body env sh base item isRTL skewX t v))) !! p
    = items (mAdvances v) !! p.
Proof.
  intros Hpos Hlen Hb p Hp. unfold script_run_body.
  destruct (_ || _); [reflexivity |]. cbv zeta.
  pose proof (cluster_loop_slots (mShaperItem sh) (item_pos item)
                (Z.to_nat (item_length item)) (mAdvances v) Hpos) as Hslots.
  rewrite Z2Nat.id in Hslots by lia. specialize (Hslots Hb). cbv zeta in Hslots.
  specialize (Hslots p Hp).
  destruct (foldl _ _ _) as [[tf cs] adv]. exact Hslots.
Qed.

Lemma script_runs_loop_slots fuel (bound : Z) runs :
  bound < 2 ^ 32 ->
  Forall (fun item => 0 <= item_pos item /\ 0 < item_length item
                      /\ item_pos item + item_length item <= bound) runs ->
  forall sh paint string isRTL t (v : TextLayoutValue F) sh' t' v',
  script_runs_loop env fuel runs sh paint string isRTL t v = Some (sh', t', v') ->
  forall p : nat, bound <= Z.of_nat p ->
    items (mAdvances v') !! p = items (mAdvances v) !! p.
Proof.
  intros Hbound. induction 1 as [| item rest (Hpos & Hlen & Hfit) _ IH];
    intros sh paint string isRTL t v sh' t' v'; cbn [script_runs_loop].
  - intros [= _ _ <-]. reflexivity.
  - destruct (shapeFontRun env fuel sh paint string item isRTL)
      as [[sh1 base] |]; [| discriminate].
    pose proof (script_run_body_slots sh1 base item isRTL (paint_textSkewX paint)
                  t v Hpos ltac:(lia) ltac:(lia)) as Hbody.
    destruct (script_run_body _ _ _ _ _ _ _ _) as [t1 v1]. cbn [snd] in Hbody.
    intros Hloop p Hp. rewrite (IH _ _ _ _ _ _ _ _ _ Hloop p Hp).
    apply Hbody. lia.
Qed.

(** X17.  [computeRunValues] appends one zero advance per character of
    the run and then stores the advances of the clusters at the indices
    of the run counted from 0, that is, in the slots [0 .. count - 1] of
    the vector, whatever the vector held before the call: every slot
    from [count] on holds afterwards what it held before, or the zero
    appended for this run. *)
Theorem computeRunValues_stores_below_count fuel sh paint chars count isRTL
    (v : TextLayoutValue F) :
  shaper_contract env -> (2 <= fuel)%nat ->
  script_run_contract env -> 0 <= count < 2 ^ 31 ->
  exists sh' v',
    computeRunValues env fuel sh paint chars count isRTL v = Some (sh', v')
    /\ length (items (mAdvances v'))
       = (length (items (mAdvances v)) + Z.to_nat count)%nat
    /\ forall p : nat, count <= Z.of_nat p ->
         items (mAdvances v') !! p
         = (items (mAdvances v) ++ replicate (Z.to_nat count) fzero) !! p.
Proof.
  intros Hshaper Hfuel Hscript Hcount.
  destruct (computeRunValues_returns env fuel sh paint chars count isRTL v
              Hshaper Hfuel) as (sh' & v' & Hrun).
  exists sh', v'. split; [exact Hrun |].
  pose proof (computeRunValues_advances_length env fuel sh paint chars count isRTL
                v sh' v' ltac:(lia) Hrun) as Hlen.
  unfold advances_length, Vector_size in Hlen.
  split; [lia |]. revert Hrun. unfold computeRunValues.
  destruct (Z.eqb_spec count 0) as [-> | Hne].
  - intros [= _ <-] p _. simpl. rewrite app_nil_r. reflexivity.
  - cbv zeta.
    destruct (script_runs_loop _ _ _ _ _ _ _ _ _) as [[[sh1 t1] v1] |] eqn:Hloop;
      [| discriminate].
    intros [= _ <-] p Hp. cbn [set_totalAdvance mAdvances].
    destruct (Hscript isRTL (shaping_string env chars count isRTL)) as [Hwithin _].
    pose proof (length_shaping_string env chars count isRTL ltac:(lia)) as Hs.
    rewrite (script_runs_loop_slots fuel count _
               ltac:(change (2 ^ 32) with 4294967296;
                     change (2 ^ 31) with 2147483648 in *; lia)
               ltac:(eapply Forall_impl; [exact Hwithin |];
                     simpl; intros item; lia)
               _ _ _ _ _ _ _ _ _ Hloop p Hp).
    cbn [set_advances mAdvances].
    rewrite (items_foldl_add env (fun _ => fzero)).
    replace (seqZ 0 count) with (seqZ 0 (Z.of_nat (Z.to_nat count)))
      by (rewrite Z2Nat.id by lia; reflexivity).
    rewrite fmap_const_seqZ. reflexivity.
Qed.

End AdvanceSlots.

(** ** The comparison as an order *)






(** ** The scan for the main code point *)

Section MainCodePoint.
Context {F : Type} `{FloatOps F}.
Variable env : Env F.

(** X19.  The scan back from a diacritic at [n] stops at the nearest
    code unit before it that is not a combining diacritical mark: that
    is the main code point the chunk starts at, every code unit between
    it and [n] being a diacritic; and the scan runs below 0, so that the
    run is left as it is, exactly when only diacritics precede [n]. *)
Theorem find_main_code_point_nearest chars (n : nat) :
  match find_main_code_point env chars n with
  | Some j =>
      0 <= j < Z.of_nat n
      /\ is_diacritic env (char_at chars j) = false
      /\ forall k, j < k < Z.of_nat n -> is_diacritic env (char_at chars k) = true
  | None =>
      forall k, 0 <= k < Z.of_nat n -> is_diacritic env (char_at chars k) = true
  end.
Proof.
  induction n as [| n IH]; cbn [find_main_code_point]; [intros k Hk; lia |].
  destruct (is_diacritic env (char_at chars (Z.of_nat n))) eqn:Hn; cbn [negb].
  - destruct (find_main_code_point env chars n) as [j |].
    + destruct IH as (Hj & Hmain & Hbetween). split; [lia |].
      split; [exact Hmain |]. intros k Hk.
      destruct (Z.eq_dec k (Z.of_nat n)) as [-> | Hne]; [exact Hn |].
      apply Hbetween. lia.
    + intros k Hk.
      destruct (Z.eq_dec k (Z.of_nat n)) as [-> | Hne]; [exact Hn |].
      apply IH. lia.
  - split; [lia |]. split; [exact Hn |]. intros k Hk. lia.
Qed.

End MainCodePoint.

(** ** An invalid visual run *)

Section InvalidRun.
Context {F : Type} `{FloatOps F}.
Variable env : Env F.

Lemma visual_runs_loop_breaks fuel visual_run paraDir paint chars start end_
    indices :
  shaper_contract env -> (2 <= fuel)%nat ->
  Exists (fun i => invalid_run visual_run i = true) indices ->
  forall sh (v : TextLayoutValue F),
  exists sh1 vp,
    visual_runs_loop env fuel indices visual_run paraDir sh paint chars start end_ v
    = Some (sh1, clear_outputs env vp, Some (paraDir =? 1)).
Proof.
  intros Hshaper Hfuel Hex.
  induction indices as [| i rest IH]; intros sh v; [inversion Hex |].
  cbn [visual_runs_loop].
  assert (Hrest : invalid_run visual_run i = false ->
                  Exists (fun i => invalid_run visual_run i = true) rest).
  { intros Hi. apply Exists_cons in Hex. destruct Hex as [Hex | Hex];
      [congruence | exact Hex]. }
  unfold invalid_run in Hrest.
  destruct (visual_run i) as [[runDir startRun] lengthRun].
  destruct (_ || _); [eauto |]. specialize (IH (Hrest eq_refl)).
  destruct (_ >=? _); [apply IH |].
  destruct (_ <=? _); [apply IH |]. cbv zeta.
  match goal with
  | |- context [computeRunValues env fuel ?s ?p ?c ?n ?b ?w] =>
      destruct (computeRunValues_returns env fuel s p c n b w Hshaper Hfuel)
        as (sh' & v' & ->)
  end.
  apply IH.
Qed.

(** X20.  When ICU resolves several visual runs and one of them comes
    back without a start or a length, nothing of what the runs before
    it produced survives: the outputs are cleared and the value returned
    holds exactly the advances, total, glyphs and positions of one
    single run over the whole window, in the paragraph direction. *)
Theorem invalid_visual_run_falls_back fuel sh paint chars start count contextCount
    dirFlags (v : TextLayoutValue F) bidiReq paraLevel rc visual_run i :
  shaper_contract env -> (2 <= fuel)%nat -> count <> 0 ->
  bidi_request dirFlags = (bidiReq, false, false) ->
  ubidi env chars contextCount bidiReq = UBiDi_resolved paraLevel true rc visual_run ->
  0 <= i < rc -> 1 < rc -> invalid_run visual_run i = true ->
  exists sh1 sh' v' w',
    computeValues env fuel sh paint chars start count contextCount dirFlags v
      = Some (sh', v')
    /\ computeRunValues env fuel sh1 paint (drop (Z.to_nat start) chars) count
                        (Z.land paraLevel kDirection_Mask =? 1)
                        (clear_outputs env v)
       = Some (sh', w')
    /\ same_items v' w'.
Proof.
  intros Hshaper Hfuel Hcount Hreq Hbidi Hi Hrc Hinvalid.
  unfold computeValues. cbv zeta.
  destruct (Z.eqb_spec count 0); [contradiction |].
  rewrite Hreq. cbn [orb]. rewrite Hbidi.
  destruct (Z.eqb_spec rc 1); [lia |]. cbn [andb negb orb].
  destruct (Z.ltb_spec rc 1); [lia |].
  destruct (visual_runs_loop_breaks fuel visual_run
              (Z.land paraLevel kDirection_Mask) paint chars start
              (to_int32 (start + count)) (seqZ 0 rc) Hshaper Hfuel
              ltac:(apply Exists_exists; exists i;
                    split; [apply elem_of_seqZ; lia | exact Hinvalid])
              sh (set_totalAdvance v fzero))
    as (sh1 & vp & ->).
  destruct (computeRunValues_returns env fuel sh1 paint (drop (Z.to_nat start) chars)
              count (Z.land paraLevel kDirection_Mask =? 1) (clear_outputs env vp)
              Hshaper Hfuel) as (sh' & v' & Hrun).
  destruct (computeRunValues_same_items env fuel sh1 paint
              (drop (Z.to_nat start) chars) count
              (Z.land paraLevel kDirection_Mask =? 1)
              (clear_outputs env vp) (clear_outputs env v) sh' v'
              ltac:(repeat split) Hrun) as (w' & Hrun' & Hsame).
  exists sh1, sh', v', w'. auto.
Qed.

End InvalidRun.

(** ** One glyph per character *)

Section OneToOne.
Context {F : Type} `{FloatOps F}.
Variable env : Env F.

Lemma lookup_replaceAt_eq {A} (a : Vector A) x index :
  0 <= index < Vector_size a ->
  items (Vector_replaceAt a x index) !! Z.to_nat index = Some x.
Proof.
  intros Hi. unfold Vector_replaceAt.
  destruct (Z.leb_spec 0 index); [| lia].
  destruct (Z.ltb_spec index (Vector_size a)); [| lia]. cbn [andb items].
  apply list_lookup_insert_eq. unfold Vector_size in Hi. lia.
Qed.

(** X21.  When the shaper returns one glyph per character of a script
    run (the cluster of the character [i] is the glyph [i]), the loop
    over the characters stores in the slot of each character, counted
    from the start of the script run, the advance of its glyph, added to
    zero as the code does, and leaves the slots outside the run as they
    were. *)
Theorem one_glyph_per_character sh base item isRTL skewX t (v : TextLayoutValue F) :
  let a := mShaperItem sh in
  let pos := item_pos item in
  let len := item_length item in
  mShaperItem_allocated sh = true ->
  0 <= pos -> 0 < len -> num_glyphs a = len ->
  (forall i, 0 <= i < len -> log_cluster a i = i) ->
  pos + len <= Vector_size (mAdvances v) -> pos + len < 2 ^ 32 ->
  let v' := snd (script_run_body env sh base item isRTL skewX t v) in
  (forall i, 0 <= i < len ->
     items (mAdvances v') !! Z.to_nat (pos + i)
     = Some (fadd fzero (HBFixedToFloat (hb_advance a i))))
  /\ (forall p : nat, ~ (pos <= Z.of_nat p < pos + len) ->
        items (mAdvances v') !! p = items (mAdvances v) !! p).
Proof.
  intros a pos len Halloc Hpos Hlen Hn Hclusters Hfit Hbound v'.
  unfold v', script_run_body. fold a. rewrite Halloc, Hn.
  destruct (Z.eqb_spec len 0); [lia |]. cbn [negb orb]. cbv zeta.
  fold pos. fold len.
  pose proof (foldl_seqZ_invariant (cluster_step a pos len)
                (fun i (st : F * Z * Vector F) =>
                   snd (fst st) = i
                   /\ Vector_size (snd st) = Vector_size (mAdvances v)
                   /\ (forall j, 0 <= j < i ->
                         items (snd st) !! Z.to_nat (pos + j)
                         = Some (fadd fzero (HBFixedToFloat (hb_advance a j))))
                   /\ (forall p : nat, ~ (pos <= Z.of_nat p < pos + len) ->
                         items (snd st) !! p = items (mAdvances v) !! p))
                0 (fzero, 0, mAdvances v) (Z.to_nat len)) as Hinv.
  cbv beta in Hinv. rewrite Z.add_0_l, Z2Nat.id in Hinv by lia.
  destruct Hinv as (_ & _ & Hslots & Hout).
  - cbn. repeat split; try reflexivity. intros j Hj. lia.
  - intros i [[tf cs] adv] Hi (Hcs & Hsize & Hslots & Hout). cbn [fst snd] in *.
    subst cs. unfold cluster_step. cbv zeta.
    rewrite (Hclusters i) by lia.
    assert (Hnext : (if i =? wrap32 (len - 1) then num_glyphs a
                     else log_cluster a (i + 1)) = i + 1).
    { rewrite wrap32_small by (unfold in_size_t; lia).
      destruct (Z.eqb_spec i (len - 1)); [lia |]. apply Hclusters. lia. }
    rewrite Hnext.
    destruct (Z.eqb_spec i (i + 1)); [lia |]. cbn [negb fst snd].
    rewrite wrap32_small by (unfold in_size_t; lia).
    split; [reflexivity |]. split; [rewrite Vector_size_replaceAt; exact Hsize |].
    assert (Hadv : cluster_advance a i (i + 1)
                   = fadd fzero (HBFixedToFloat (hb_advance a i))).
    { unfold cluster_advance. replace (i + 1 - i) with 1 by lia. reflexivity. }
    rewrite Hadv. split.
    + intros j Hj. destruct (Z.eq_dec j i) as [-> | Hne].
      * apply lookup_replaceAt_eq. lia.
      * rewrite lookup_replaceAt_ne by lia. apply Hslots. lia.
    + intros p Hp. rewrite lookup_replaceAt_ne by lia. apply Hout. exact Hp.
  - destruct (foldl _ _ _) as [[tf cs] adv]. cbn [snd fst] in *.
    split; [exact Hslots | exact Hout].
Qed.

End OneToOne.

(** ** Glyph positions *)

Section Positions.
Context {F : Type} `{FloatOps F}.
Variable env : Env F.

Lemma position_loop_layout a isRTL skewX (t : F) (p : Vector F) (k : nat) :
  let step := fun (st : F * Vector F) i =>
           let '(x, p) := st in
           let index := glyph_index isRTL (num_glyphs a) i in
           let o := nth (Z.to_nat index) (offsets a) (0, 0) in
           let xo := HBFixedToFloat (fst o) in
           let yo := HBFixedToFloat (snd o) in
           (fadd x (HBFixedToFloat (hb_advance a index)),
            Vector_add env (Vector_add env p (fadd (fadd x xo) (fmul yo skewX))) yo) in
  let r := foldl step (t, p) (seqZ 0 (Z.of_nat k)) in
  fst r = pen_before a isRTL t (Z.of_nat k)
  /\ items (snd r)
     = items p ++ mjoin (glyph_position a isRTL skewX t <$> seqZ 0 (Z.of_nat k)).
Proof.
  cbv zeta. induction k as [| k IH].
  - rewrite seqZ_nil by lia. simpl. rewrite app_nil_r. split; reflexivity.
  - rewrite seqZ_S, foldl_app, fmap_app, join_app.
    destruct (foldl _ (t, p) (seqZ 0 (Z.of_nat k))) as [x q].
    cbn [fst snd] in IH. destruct IH as [-> Hq].
    cbn [foldl fst snd]. split.
    + unfold pen_before. rewrite seqZ_S, foldl_app. reflexivity.
    + cbn [Vector_add items]. rewrite Hq, <- !app_assoc, Z.add_0_l.
      reflexivity.
Qed.

(** X22.  The position loop of [computeRunValues] appends, for each
    glyph in the order the glyphs are emitted, its x and its y: y is the
    glyph's y offset, and x is the pen position plus the glyph's x
    offset plus its y offset times the paint's skew, where the pen
    starts at the total advance accumulated before the script run and
    moves by the advance of each glyph emitted; what [outPos] held
    before is kept. *)
Theorem emit_positions_layout a (isRTL : bool) (skewX totalAdvance : F)
    (outPos : Vector F) :
  items (emit_positions env a isRTL skewX totalAdvance outPos)
  = items outPos
    ++ mjoin (glyph_position a isRTL skewX totalAdvance <$> seqZ 0 (num_glyphs a)).
Proof.
  unfold emit_positions. cbv zeta.
  destruct (Z.le_gt_cases (num_glyphs a) 0) as [Hn | Hn].
  - rewrite seqZ_nil by lia. simpl. rewrite app_nil_r. reflexivity.
  - pose proof (position_loop_layout a isRTL skewX totalAdvance outPos
                  (Z.to_nat (num_glyphs a))) as Hloop.
    cbv zeta in Hloop. rewrite Z2Nat.id in Hloop by lia. apply Hloop.
Qed.

End Positions.

(** ** The entries a call leaves *)

Section KeptEntries.
Context {F : Type} `{FloatOrder F}.
Variable env : Env F.
Hypothesis max_size_range : 0 <= default_max_size env < 2 ^ 31.

(** X23.  A call never alters the entries it does not return: the cache
    afterwards is the cache before (when the value is too big to be
    stored), or entries from before, in the order they had, followed by
    the entry of the value returned, whose key ties with the key of the
    call. *)
Theorem getValue_keeps_entries fuel c paint text start count contextCount dirFlags :
  shaper_contract env -> (2 <= fuel)%nat ->
  reachable env c ->
  valid_request paint text start count contextCount dirFlags ->
  let key := TextLayoutCacheKey_new paint text start count contextCount dirFlags in
  exists c' v,
    getValue env fuel c paint text start count contextCount dirFlags
      = Returns (c', Some v)
    /\ (mCache c' = mCache c
        \/ exists rest k,
             mCache c' = rest ++ [(k, v)]
             /\ rest `sublist_of` mCache c
             /\ compare k key = 0).
Proof.
  intros Hshaper Hfuel Hreach Hvalid key.
  pose proof (reachable_inv env max_size_range c Hreach) as Hinv.
  pose proof (valid_request_key _ _ _ _ _ _ Hvalid) as [Hkwf _]. fold key in Hkwf.
  destruct (getValue_cases env max_size_range fuel c paint text start count
              contextCount dirFlags Hinv Hvalid)
    as [(e & l1 & l2 & Hl & Hc & Heq) | [_ Hmiss]].
  - eexists _, _. split; [exact Heq |]. right. exists (l1 ++ l2), (fst e).
    cbn [mCache]. split; [destruct e; reflexivity |].
    split; [| exact Hc]. rewrite Hl.
    apply sublist_app; [reflexivity | apply sublist_cons; reflexivity].
  - fold key in Hmiss.
    destruct (computeValues_returns env fuel (mShaper c) paint (textCopy key)
                start count contextCount dirFlags
                (TextLayoutValue_new env contextCount (heap_next c))
                Hshaper Hfuel) as (sh & v & Hcv).
    rewrite Hcv in Hmiss. cbv zeta in Hmiss.
    destruct (entry_size env (key, v) <=? mMaxSize c).
    + destruct Hmiss as (n & Heq & _). eexists _, _. split; [exact Heq |].
      right. exists (drop n (mCache c)), key. cbn [mCache].
      split; [reflexivity |]. split; [apply sublist_drop |].
      apply compare_refl. exact Hkwf.
    + eexists _, _. split; [exact Hmiss |]. left. reflexivity.
Qed.

End KeptEntries.

(** ** A normaliser that fails *)

Section NormaliserFailure.
Context {F : Type} `{FloatOps F}.
Variable env : Env F.

Lemma normalize_chunk_failed chars count i j st :
  normalizer_keeps_failure env -> U_SUCCESS (error st) = false ->
  normalize_chunk env chars count i j st = st.
Proof.
  intros Hicu Hfail. unfold normalize_chunk.
  pose proof (Hicu (take (Z.to_nat (i - j + 1)) (drop (Z.to_nat j) chars))
                   (error st) Hfail) as Herr.
  destruct (Normalizer_normalize env _ _) as [mBuffer error']. cbn [snd] in Herr.
  subst error'. rewrite Hfail. destruct st. reflexivity.
Qed.

(** X24.  The error code of [computeRunValues] is never reset: with a
    normaliser that follows ICU's convention for error codes, once a
    chunk has failed to normalise, no chunk before it in the run is
    normalised either; the string for the shaper and the decision to use
    it stay what they were at the failure. *)
Theorem normalize_loop_after_failure n chars count i st :
  normalizer_keeps_failure env -> U_SUCCESS (error st) = false ->
  normalize_loop env n chars count i st = st.
Proof.
  intros Hicu. revert i st.
  induction n as [| n IH]; intros i st Hfail; cbn [normalize_loop]; [reflexivity |].
  destruct (i <? 0); [reflexivity |].
  destruct (is_diacritic env _); [| apply IH; exact Hfail].
  destruct (find_main_code_point env chars _) as [j |]; [| reflexivity].
  rewrite normalize_chunk_failed by assumption. apply IH. exact Hfail.
Qed.

End NormaliserFailure.

(** ** The sample environments meet the contracts *)

#[export] Instance exact_fixed_order : FloatOrder Z.
Proof.
  split; simpl.
  - intros a b. apply Z.gtb_ltb.
  - intros a. apply Z.ltb_irrefl.
Qed.

Lemma sample_shaper_contract {F} max_size bidi :
  shaper_contract (@sample_env F max_size bidi).
Proof.
  intros r. cbn [HB_ShapeItem sample_env]. unfold sample_shape.
  destruct (Z.ltb_spec (req_num_glyphs r) (item_length (req_item r)));
    [| discriminate].
  destruct (Z.ltb_spec 0 (item_length (req_item r))); [| discriminate].
  destruct (Z.ltb_spec (item_length (req_item r)) (2 ^ 31)); [| discriminate].
  cbn [andb fst snd num_glyphs]. intros _. repeat split; try lia.
  intros n offs Hn. cbn [with_capacity req_num_glyphs req_item].
  destruct (Z.ltb_spec n (item_length (req_item r))); [lia | reflexivity].
Qed.

Lemma sample_shaper_deterministic {F} max_size bidi :
  shaper_deterministic (@sample_env F max_size bidi).
Proof.
  intros r face n offs. cbn [HB_ShapeItem sample_env]. unfold sample_shape.
  cbn [req_item req_string req_num_glyphs].
  destruct (_ && _ && _); [discriminate |].
  destruct (_ && _ && _); [discriminate | reflexivity].
Qed.

Lemma sample_script_run_contract {F} max_size bidi :
  script_run_contract (@sample_env F max_size bidi).
Proof.
  intros isRTL s. cbn [hb_utf16_script_runs sample_env]. unfold sample_script_runs.
  destruct s as [| u s]; split; simpl; auto.
  - constructor.
  - constructor; [| constructor]. cbn [item_pos item_length]. lia.
Qed.

Lemma bidi_unavailable_contract {F} max_size :
  bidi_contract (@sample_env F max_size bidi_unavailable).
Proof. intros chars contextCount bidiReq. exact I. Qed.

Lemma bidi_two_runs_contract {F} max_size :
  bidi_contract (@sample_env F max_size bidi_two_runs).
Proof.
  intros chars contextCount bidiReq. cbn [ubidi sample_env]. unfold bidi_two_runs.
  destruct (Z.leb_spec 2 contextCount) as [Hn | Hn]; [| lia].
  intros _. split.
  - intros i Hi. destruct (Z.eqb_spec i 0); simpl; lia.
  - intros p Hp. change (seqZ 0 2) with [0; 1].
    rewrite !filter_cons, filter_nil. unfold run_covers. simpl.
    destruct (decide _) as [H0 | H0]; destruct (decide _) as [H1 | H1];
      try reflexivity; exfalso;
      repeat match goal with
             | H : Is_true _ |- _ => apply Is_true_eq_true in H
             | H : ¬ Is_true _ |- _ =>
                 apply eq_true_not_negb in H || (rewrite Is_true_true in H)
             end; lia.
Qed.

(** ** The claims at concrete inputs *)

Ltac solve_range :=
  unfold in_uint16, in_int32, in_size_t, kBidi_LTR, kBidi_RTL,
    kBidi_Default_LTR, kBidi_Default_RTL, kBidi_Force_LTR, kBidi_Force_RTL;
  change (2 ^ 32) with 4294967296; change (2 ^ 31) with 2147483648;
  change (2 ^ 30) with 1073741824; change (2 ^ 16) with 65536;
  cbn; lia.

Ltac solve_units :=
  let x := fresh "x" in
  let Hx := fresh "Hx" in
  apply Forall_forall; intros x Hx;
  repeat (apply elem_of_cons in Hx as [-> | Hx]; [solve_range |]);
  inversion Hx.

Lemma sample_max_size_range {F} bidi :
  0 <= default_max_size (@sample_env F 1000 bidi) < 2 ^ 31.
Proof. solve_range. Qed.

Lemma tight_max_size_range : 0 <= default_max_size tight_env < 2 ^ 31.
Proof. solve_range. Qed.

Lemma valid_abc (start count dirFlags : Z) :
  0 <= start -> 0 <= count -> start + count <= 3 -> in_int32 dirFlags ->
  valid_request (@sample_paint Z _) [97; 98; 99] start count 3 dirFlags.
Proof.
  intros Hs Hc Hw Hd.
  constructor; cbn; try lia; try assumption; try solve_range. solve_units.
Qed.

Lemma valid_abc_ieee (start count dirFlags : Z) :
  0 <= start -> 0 <= count -> start + count <= 3 -> in_int32 dirFlags ->
  valid_request (@sample_paint spec_float _) [97; 98; 99] start count 3 dirFlags.
Proof.
  intros Hs Hc Hw Hd.
  constructor; cbn; try lia; try assumption; try solve_range. solve_units.
Qed.

Lemma reachable_run_cache_abc : reachable run_env run_cache_abc.
Proof.
  apply (reach_getValue run_env run_cache 2 sample_paint [97; 98; 99] 0 3 3
                        kBidi_LTR run_cache_abc (Some run_value_abc)).
  - apply reach_new.
  - apply valid_abc; solve_range.
  - vm_compute. reflexivity.
Qed.

(** C2: at a request for [kBidi_LTR] with [ubidi_open] failing, the
    fallback expression yields [true] where the requested direction is
    left to right, and the text "(a" is shaped as a right-to-left run:
    mirrored, its glyphs reversed. *)
Theorem bidi_fallback_shapes_RTL :
  let v0 := TextLayoutValue_new fallback_env 2 0 in
  let sh := TextLayoutShaper_new fallback_env in
  let bidiReq := fst (fst (bidi_request kBidi_LTR)) in
  let glyphs_of r := option_map (fun r => items (mGlyphs (snd r))) r in
  fallback_isRTL bidiReq = true
  /\ requested_RTL bidiReq = false
  /\ computeValues fallback_env 2 sh sample_paint [40; 97] 0 2 2 kBidi_LTR v0
     = computeRunValues fallback_env 2 sh sample_paint [40; 97] 2 true
                        (set_totalAdvance v0 fzero)
  /\ glyphs_of (computeValues fallback_env 2 sh sample_paint [40; 97] 0 2 2
                              kBidi_LTR v0) = Some [97; 41]
  /\ glyphs_of (computeRunValues fallback_env 2 sh sample_paint [40; 97] 2 false
                                 (set_totalAdvance v0 fzero)) = Some [40; 97].
Proof. vm_compute. repeat split. Qed.

(** The claim C1 fails on the text "abc" with the window [1, 2): the
    value holds one advance, not [contextCount = 3]. *)
Lemma advances_length_is_not_contextCount :
  valid_request (@sample_paint Z _) [97; 98; 99] 1 1 3 kBidi_Force_LTR
  /\ exists c' v,
       getValue run_env 2 run_cache sample_paint [97; 98; 99] 1 1 3
                kBidi_Force_LTR = Returns (c', Some v)
       /\ items (mAdvances v) = [65536]
       /\ Z.of_nat (length (items (mAdvances v))) <> 3.
Proof.
  split; [apply valid_abc; solve_range |].
  eexists _, _. split; [vm_compute; reflexivity |].
  split; [reflexivity | discriminate].
Qed.

Lemma advances_sized_by_count_witness :
  valid_request (@sample_paint Z _) [97; 98; 99] 1 2 3 kBidi_LTR
  /\ exists c' v,
       getValue run_env 2 run_cache sample_paint [97; 98; 99] 1 2 3 kBidi_LTR
         = Returns (c', Some v)
       /\ Z.of_nat (length (items (mAdvances v))) = 2.
Proof.
  assert (Hvalid : valid_request (@sample_paint Z _) [97; 98; 99] 1 2 3 kBidi_LTR)
    by (apply valid_abc; solve_range).
  split; [exact Hvalid |].
  apply (advances_sized_by_count run_env (sample_max_size_range bidi_two_runs)
           2 run_cache sample_paint [97; 98; 99] 1 2 3 kBidi_LTR).
  - apply sample_shaper_contract.
  - apply bidi_two_runs_contract.
  - lia.
  - apply reach_new.
  - exact Hvalid.
Defined.

(** The claim C3 fails in single precision, with advances of 1.0 per
    character.  On "abc" with the window [1, 3) and a forced direction the
    total advance is 2.0 while the advances at the positions 1 and 2 of
    the value add up to 1.0, the value holding two advances only.  On
    "ab" resolved into two visual runs the total advance is 2.0 while
    the advances are 1.0 and 0: the second run stored its advance in the
    slot of the first. *)
Lemma total_advance_differs_from_sum :
  (exists c' v,
     getValue ieee_env 2 ieee_cache sample_paint [97; 98; 99] 1 2 3
              kBidi_Force_LTR = Returns (c', Some v)
     /\ mTotalAdvance v = ieee_two
     /\ fsum (take 2 (drop 1 (items (mAdvances v)))) = ieee_one)
  /\ (exists c' v,
        getValue ieee_env 2 ieee_cache sample_paint [97; 98] 0 2 2 kBidi_LTR
          = Returns (c', Some v)
        /\ mTotalAdvance v = ieee_two
        /\ items (mAdvances v) = [ieee_one; S754_zero false]
        /\ fsum (take 2 (drop 0 (items (mAdvances v)))) = ieee_one).
Proof.
  split; eexists _, _; (split; [vm_compute; reflexivity |]);
    vm_compute; repeat split.
Qed.

Lemma total_advance_adds_stored_advances_witness :
  single_run_request ieee_env (take (Z.to_nat 3) [97; 98; 99]) 3 kBidi_Force_LTR
    = true
  /\ exists c' v runs,
       getValue ieee_env 2 ieee_cache sample_paint [97; 98; 99] 1 2 3
                kBidi_Force_LTR = Returns (c', Some v)
       /\ mTotalAdvance v = accumulated_total fzero runs
       /\ items (mAdvances v)
          = store_advances (replicate (Z.to_nat 2) fzero) (concat runs)
       /\ stored_once runs 0 2.
Proof.
  split; [reflexivity |].
  apply (total_advance_adds_stored_advances ieee_env
           (sample_max_size_range bidi_two_runs) 2 ieee_cache
           sample_paint [97; 98; 99] 1 2 3 kBidi_Force_LTR).
  - apply sample_shaper_contract.
  - apply sample_script_run_contract.
  - lia.
  - apply reach_new.
  - apply valid_abc_ieee; solve_range.
  - reflexivity.
Defined.

Lemma cache_byte_count_invariant_witness :
  reachable run_env run_cache_abc
  /\ mCache run_cache_abc <> []
  /\ mSize run_cache_abc = total_size run_env (mCache run_cache_abc)
  /\ 0 <= mSize run_cache_abc <= mMaxSize run_cache_abc.
Proof.
  split; [exact reachable_run_cache_abc |].
  split; [discriminate |].
  exact (proj1 (cache_byte_count_invariant run_env
                  (sample_max_size_range bidi_two_runs) run_cache_abc
                  reachable_run_cache_abc)).
Defined.

Lemma oversize_bypass_witness :
  exists c' v,
    getValue tight_env 2 tight_cache sample_paint [97; 98; 99] 0 3 3
             kBidi_Force_LTR = Returns (c', Some v)
    /\ mMaxSize tight_cache
       < entry_size tight_env
           (TextLayoutCacheKey_new sample_paint [97; 98; 99] 0 3 3 kBidi_Force_LTR, v)
    /\ mCache c' = mCache tight_cache /\ mSize c' = mSize tight_cache.
Proof.
  destruct (oversize_bypass tight_env tight_max_size_range 2 tight_cache
              sample_paint [97; 98; 99] 0 3 3 kBidi_Force_LTR)
    as (c' & v & Hget & Hframe).
  - apply sample_shaper_contract.
  - lia.
  - apply reach_new.
  - apply valid_abc; solve_range.
  - exists c', v. split; [exact Hget |].
    assert (Hbig : mMaxSize tight_cache
                   < entry_size tight_env
                       (TextLayoutCacheKey_new sample_paint [97; 98; 99] 0 3 3
                                               kBidi_Force_LTR, v)).
    { vm_compute in Hget. injection Hget as _ <-. vm_compute. reflexivity. }
    split; [exact Hbig |].
    destruct (Hframe Hbig) as (Hc & Hs & _). auto.
Defined.

Lemma cache_hit_determinism_witness :
  (TextLayoutCacheKey_new sample_paint [97; 98; 99] 0 3 3 kBidi_LTR, run_value_abc)
    ∈ mCache run_cache_abc
  /\ (exists c',
        getValue run_env 2 run_cache_abc sample_paint [97; 98; 99] 0 3 3 kBidi_LTR
          = Returns (c', Some run_value_abc)
        /\ mShaper c' = mShaper run_cache_abc
        /\ heap_next c' = heap_next run_cache_abc)
  /\ value_addr run_value_abc <> value_addr run_value_again
  /\ same_layout run_value_abc run_value_again.
Proof.
  assert (Hin : (TextLayoutCacheKey_new sample_paint [97; 98; 99] 0 3 3 kBidi_LTR,
                 run_value_abc) ∈ mCache run_cache_abc)
    by (apply list_elem_of_singleton; vm_compute; reflexivity).
  assert (Hvalid : valid_request (@sample_paint Z _) [97; 98; 99] 0 3 3 kBidi_LTR)
    by (apply valid_abc; solve_range).
  assert (Hvalid2 : valid_request (@sample_paint Z _) [97; 98; 99; 100] 0 3 3
                                  kBidi_LTR)
    by (constructor; cbn; try lia; try solve_range; solve_units).
  split; [exact Hin |]. split; [| split].
  - destruct (proj1 (cache_hit_determinism run_env
                       (sample_max_size_range bidi_two_runs) run_cache_abc
                       sample_paint [97; 98; 99] 0 3 3 kBidi_LTR
                       reachable_run_cache_abc Hvalid)
                2%nat run_value_abc Hin)
      as (c' & Hget & Hsh & Hheap & _).
    exists c'. auto.
  - vm_compute. discriminate.
  - destruct (cache_hit_determinism run_env
                (sample_max_size_range bidi_two_runs) run_cache
                sample_paint [97; 98; 99] 0 3 3 kBidi_LTR
                (reach_new run_env) Hvalid) as (_ & _ & Hagain).
    eapply (Hagain (sample_shaper_deterministic 1000 bidi_two_runs)
                   (sample_script_run_contract 1000 bidi_two_runs)
                   (bidi_two_runs_contract 1000)
                   2%nat 2%nat (purgeCaches run_env run_cache_abc)
                   sample_paint [97; 98; 99; 100]).
    + apply reach_purgeCaches, reachable_run_cache_abc.
    + exact Hvalid2.
    + vm_compute. reflexivity.
    + vm_compute. reflexivity.
    + vm_compute. reflexivity.
    + vm_compute. reflexivity.
    + vm_compute. reflexivity.
Defined.

(** The claim C6 fails in single precision.  A call with a NaN
    [textSkewX] leaves an entry whose positions are NaN.  The call for
    the same text with a skew of 0 makes a key that ties with that
    entry's, so it is served the entry: the object at address 0, with a
    NaN position.  After a purge the call with the very same arguments
    computes its own value: another object, with the position 0. *)
Lemma equal_keys_return_different_layouts :
  reachable ieee_env ieee_cache_nan
  /\ valid_request (@sample_paint spec_float _) [97] 0 1 1 kBidi_LTR
  /\ exists c1 v1 c2 v2,
       getValue ieee_env 2 ieee_cache_nan sample_paint [97] 0 1 1 kBidi_LTR
         = Returns (c1, Some v1)
       /\ getValue ieee_env 2 (purgeCaches ieee_env ieee_cache_nan) sample_paint
                   [97] 0 1 1 kBidi_LTR
          = Returns (c2, Some v2)
       /\ items (mPos v1) = [S754_nan; S754_zero false]
       /\ items (mPos v2) = [S754_zero false; S754_zero false]
       /\ value_addr v1 = 0 /\ value_addr v2 = 1
       /\ ~ same_layout v1 v2.
Proof.
  split; [| split].
  - apply (reach_getValue ieee_env ieee_cache 2 nan_skew_paint [97] 0 1 1
             kBidi_LTR ieee_cache_nan
             (match getValue ieee_env 2 ieee_cache nan_skew_paint [97] 0 1 1
                             kBidi_LTR with
              | Returns (_, v) => v
              | _ => None
              end)).
    + apply reach_new.
    + constructor; cbn; try lia; try solve_range. solve_units.
    + vm_compute. reflexivity.
  - constructor; cbn; try lia; try solve_range. solve_units.
  - eexists _, _, _, _.
    split; [vm_compute; reflexivity |].
    split; [vm_compute; reflexivity |].
    repeat split; try (vm_compute; reflexivity).
    intros (_ & _ & _ & Hpos). vm_compute in Hpos. discriminate.
Qed.

Lemma scaled_key_wf (scaleX : spec_float) : key_wf (scaled_key scaleX).
Proof.
  constructor; cbn; try solve_range; try reflexivity. solve_units.
Qed.

(** The claim C7 fails on two keys that differ in [textScaleX] only, NaN
    against 1.0: they compare as 0. *)
Lemma compare_ties_on_NaN :
  key_wf (scaled_key S754_nan) /\ key_wf (scaled_key ieee_one)
  /\ compare (scaled_key S754_nan) (scaled_key ieee_one) = 0
  /\ textScaleX (scaled_key S754_nan) <> textScaleX (scaled_key ieee_one)
  /\ SFeqb (textScaleX (scaled_key S754_nan)) (textScaleX (scaled_key ieee_one))
     = false.
Proof.
  split; [apply scaled_key_wf |]. split; [apply scaled_key_wf |].
  split; [vm_compute; reflexivity |]. split; [discriminate | reflexivity].
Qed.

Lemma compare_zero_iff_fields_tie_witness :
  key_wf (scaled_key ieee_one)
  /\ compare (scaled_key ieee_one) (scaled_key ieee_one) = 0.
Proof.
  split; [apply scaled_key_wf |].
  apply (compare_zero_iff_fields_tie (scaled_key ieee_one) (scaled_key ieee_one)
           (scaled_key_wf ieee_one) (scaled_key_wf ieee_one)).
  repeat split; left; reflexivity.
Defined.

(** The claim C8 fails for a run of two characters shaped after a run of
    six: the arrays hold nine entries, and the first attempt is made on
    these nine, not on [floor(1.5 * 2) = 3]. *)
Lemma first_attempt_on_larger_arrays :
  mShaperItemGlyphArraySize shaper_after_six = 9
  /\ wrap32 (2 * 3) / 2 = 3
  /\ req_num_glyphs
       (shape_request (resize_arrays shaper_after_six (wrap32 (2 * 3) / 2))
                      [97; 98] (mkItem 0 2 HB_Script_Common 0)
                      (@sample_paint Z _) 0) = 9
  /\ exists sh',
       shapeFontRun fallback_env 2 shaper_after_six sample_paint [97; 98]
                    (mkItem 0 2 HB_Script_Common 0) false = Some (sh', 0)
       /\ mShaperItemGlyphArraySize sh' = 9.
Proof.
  repeat split; try (vm_compute; reflexivity).
  eexists. split; vm_compute; reflexivity.
Qed.

Lemma shaper_buffer_growth_witness :
  exists sh',
    shapeFontRun fallback_env 2 (TextLayoutShaper_new fallback_env) sample_paint
                 [97; 98; 99; 100; 101; 102] (mkItem 0 6 HB_Script_Common 0) false
    = Some (sh', 0)
    /\ 1 <= 6 * 3 / 2
    /\ mShaperItemGlyphArraySize (TextLayoutShaper_new fallback_env)
       <= mShaperItemGlyphArraySize sh'.
Proof.
  destruct (shaper_buffer_growth fallback_env 2 (TextLayoutShaper_new fallback_env)
              sample_paint [97; 98; 99; 100; 101; 102]
              (mkItem 0 6 HB_Script_Common 0) false)
    as (sh' & Hrun & Hsize & Hmono & _).
  - apply sample_shaper_contract.
  - lia.
  - solve_range.
  - exists sh'. auto.
Defined.

Lemma empty_count_value_witness :
  exists c' v,
    getValue run_env 2 run_cache_abc sample_paint [97; 98; 99] 1 0 3 kBidi_LTR
      = Returns (c', Some v)
    /\ mTotalAdvance v = fzero
    /\ items (mGlyphs v) = [] /\ items (mPos v) = []
    /\ items (mAdvances v) = []
    /\ Forall (fun a => a = fzero) (items (mAdvances v)).
Proof.
  apply (empty_count_value run_env (sample_max_size_range bidi_two_runs) 2
           run_cache_abc sample_paint [97; 98; 99] 1 3 kBidi_LTR).
  - exact reachable_run_cache_abc.
  - apply valid_abc; solve_range.
Defined.

Lemma getValue_total_witness :
  exists c' v,
    getValue run_env 2 run_cache_abc sample_paint [97; 98; 99] 1 2 3
             kBidi_Default_RTL = Returns (c', Some v).
Proof.
  apply (proj2 (getValue_total run_env (sample_max_size_range bidi_two_runs) 2
                  run_cache_abc sample_paint [97; 98; 99] 1 2 3 kBidi_Default_RTL
                  (sample_shaper_contract 1000 bidi_two_runs) ltac:(lia))).
  - exact reachable_run_cache_abc.
  - apply valid_abc; solve_range.
Defined.

(** ** The further properties at concrete inputs *)

Lemma ieee_flt_asymmetric : flt_asymmetric spec_float.
Proof.
  intros a b. simpl. unfold SFltb. rewrite (SFcompare_swap a b).
  destruct (SFcompare a b) as [[] |]; simpl; congruence.
Qed.

Lemma scaled_key_small (scaleX : spec_float) : key_small (scaled_key scaleX).
Proof. constructor; cbn; solve_range. Qed.

Lemma compare_antisymmetric_witness :
  compare (scaled_key ieee_one) (scaled_key ieee_two) < 0
  /\ Z.sgn (compare (scaled_key ieee_two) (scaled_key ieee_one))
     = - Z.sgn (compare (scaled_key ieee_one) (scaled_key ieee_two)).
Proof.
  split; [vm_compute; reflexivity |].
  apply (compare_antisymmetric (scaled_key ieee_one) (scaled_key ieee_two)
           ieee_flt_asymmetric (scaled_key_small ieee_one)
           (scaled_key_small ieee_two)).
Defined.

Lemma valid_de :
  valid_request (@sample_paint Z _) [100; 101] 0 2 2 kBidi_LTR.
Proof. constructor; cbn; try lia; try solve_range. solve_units. Qed.

Lemma reachable_run_cache_two : reachable run_env run_cache_two.
Proof.
  apply (reach_getValue run_env run_cache_abc 2 sample_paint [100; 101] 0 2 2
                        kBidi_LTR run_cache_two (Some (snd (run_entry 1)))).
  - exact reachable_run_cache_abc.
  - exact valid_de.
  - vm_compute. reflexivity.
Qed.

Lemma dumpCacheStats_consistent_witness :
  stats_bytes (dumpCacheStats run_env run_cache_two) = mSize run_cache_two
  /\ stats_entries (dumpCacheStats run_env run_cache_two) = 2
  /\ 0 < mSize run_cache_two.
Proof.
  destruct (dumpCacheStats_consistent run_env (sample_max_size_range bidi_two_runs)
              run_cache_two reachable_run_cache_two)
    as (Hbytes & Hused & _ & _ & _ & Hentries).
  split; [congruence |]. split; [rewrite Hentries |]; vm_compute; reflexivity.
Defined.

Lemma purgeCaches_resets_witness :
  0 < mSize run_cache_two
  /\ mSize (purgeCaches run_env run_cache_two) = 0
  /\ mCache (purgeCaches run_env run_cache_two) = [].
Proof.
  split; [vm_compute; reflexivity |].
  destruct (purgeCaches_resets run_env (sample_max_size_range bidi_two_runs)
              run_cache_two reachable_run_cache_two) as (Hsize & Hcache & _).
  split; assumption.
Defined.

Lemma cached_keys_never_tie_witness :
  mCache run_cache_two = [run_entry 0; run_entry 1]
  /\ compare (fst (run_entry 0)) (fst (run_entry 1)) <> 0.
Proof.
  split; [vm_compute; reflexivity |].
  apply (cached_keys_never_tie run_env (sample_max_size_range bidi_two_runs)
           run_cache_two 0 1 (run_entry 0) (run_entry 1)
           reachable_run_cache_two);
    [lia | vm_compute; reflexivity | vm_compute; reflexivity].
Defined.

Lemma shaping_string_length_witness :
  Z.of_nat (length (shaping_string compose_env [97; 769; 40] 3 true)) = 3.
Proof.
  apply (shaping_string_length compose_env [97; 769; 40] 3 true).
  simpl. lia.
Defined.

Lemma shaping_string_without_marks_witness :
  shaping_string run_env [40; 97; 41] 3 true = [41; 97; 40]
  /\ shaping_string run_env [40; 97; 41] 3 false = [40; 97; 41].
Proof.
  assert (Hno : no_diacritics run_env [40; 97; 41] 3).
  { intros i Hi.
    assert (Hcase : i = 0 \/ i = 1 \/ i = 2) by lia.
    destruct Hcase as [-> | [-> | ->]]; reflexivity. }
  split.
  - rewrite (shaping_string_without_marks run_env [40; 97; 41] 3 true
               ltac:(simpl; lia) Hno).
    reflexivity.
  - rewrite (shaping_string_without_marks run_env [40; 97; 41] 3 false
               ltac:(simpl; lia) Hno).
    reflexivity.
Defined.

Lemma normalize_chunk_pads_witness :
  mNormalizedString
    (normalize_chunk compose_env [98; 97; 769; 99] 4 2 1 (mkNorm false [] U_ZERO_ERROR))
  = [98; 225; UNICODE_ZWSP; 99].
Proof.
  destruct (normalize_chunk_pads compose_env [98; 97; 769; 99] 4 2 1
              (mkNorm false [] U_ZERO_ERROR)
              ltac:(lia) ltac:(lia) ltac:(simpl; lia)
              ltac:(intros Hu; discriminate Hu))
    as (_ & _ & Hok).
  destruct (Hok eq_refl ltac:(simpl; lia)) as (_ & Hstring & _).
  rewrite Hstring. reflexivity.
Defined.

Lemma positions_pair_with_glyphs_witness :
  exists c' v,
    getValue run_env 2 run_cache_abc sample_paint [100; 101] 0 2 2 kBidi_LTR
      = Returns (c', Some v)
    /\ Z.of_nat (length (items (mPos v)))
       = 2 * Z.of_nat (length (items (mGlyphs v))).
Proof.
  exact (positions_pair_with_glyphs run_env (sample_max_size_range bidi_two_runs)
           2 run_cache_abc sample_paint [100; 101] 0 2 2 kBidi_LTR
           (sample_shaper_contract 1000 bidi_two_runs) ltac:(lia)
           reachable_run_cache_abc valid_de).
Defined.

Lemma getValue_keeps_shaper_caches_witness :
  mCachedHBFaces (mShaper run_cache_abc) !! 1 = Some 1001
  /\ exists c' v,
       getValue run_env 2 run_cache_abc sample_paint [100; 101] 0 2 2 kBidi_LTR
         = Returns (c', Some v)
       /\ mShaperItemGlyphArraySize (mShaper run_cache_abc)
          <= mShaperItemGlyphArraySize (mShaper c')
       /\ mCachedHBFaces (mShaper c') !! 1 = Some 1001.
Proof.
  assert (Hface : mCachedHBFaces (mShaper run_cache_abc) !! 1 = Some 1001)
    by (vm_compute; reflexivity).
  split; [exact Hface |].
  destruct (getValue_keeps_shaper_caches run_env
              (sample_max_size_range bidi_two_runs)
              2 run_cache_abc sample_paint [100; 101] 0 2 2 kBidi_LTR
              (sample_shaper_contract 1000 bidi_two_runs) ltac:(lia)
              reachable_run_cache_abc valid_de)
    as (c' & v & Hget & Hsize & Hfaces).
  exists c', v. auto.
Defined.

Lemma cached_faces_not_null_witness :
  mCachedHBFaces (mShaper run_cache_two) !! 1 = Some 1001 /\ 1001 <> 0.
Proof.
  assert (Hface : mCachedHBFaces (mShaper run_cache_two) !! 1 = Some 1001)
    by (vm_compute; reflexivity).
  split; [exact Hface |].
  exact (cached_faces_not_null run_env (sample_max_size_range bidi_two_runs)
           run_cache_two 1 1001 reachable_run_cache_two Hface).
Defined.

Lemma engine_cache_transparent_witness :
  exists c' v shaper' v',
    TextLayoutEngine_getValue run_env 2 (Engine_cached run_cache_abc) sample_paint
                              [100; 101] 0 2 2 kBidi_LTR
      = Returns (Engine_cached c', Some v)
    /\ TextLayoutEngine_getValue run_env 2
         (Engine_uncached (mShaper run_cache_abc) 7) sample_paint
         [100; 101] 0 2 2 kBidi_LTR
       = Returns (Engine_uncached shaper' 8, Some v')
    /\ shaper' = mShaper c'
    /\ same_items v v'.
Proof.
  exact (engine_cache_transparent run_env (sample_max_size_range bidi_two_runs)
           2 run_cache_abc 7 sample_paint [100; 101] 0 2 2 kBidi_LTR
           (sample_shaper_contract 1000 bidi_two_runs) ltac:(lia)
           reachable_run_cache_abc valid_de eq_refl
           ltac:(vm_compute; reflexivity)).
Defined.

Lemma run_typeface_not_null_witness :
  run_typeface run_env (mShaper run_cache_two) sample_paint 0 HB_Script_Common = 1.
Proof.
  destruct (run_typeface_not_null run_env (sample_max_size_range bidi_two_runs)
              run_cache_two sample_paint 0 HB_Script_Common
              ltac:(discriminate) reachable_run_cache_two)
    as (_ & Hdefault & _).
  exact (Hdefault eq_refl eq_refl).
Defined.

Lemma base_glyph_count_skips_spaces_witness :
  run_baseGlyphCount compose_env sample_paint [32; 32; 1575; 1576]
                     (mkItem 0 4 (HB_Script_Other 7) 1)
  = 1575.
Proof.
  rewrite (base_glyph_count_skips_spaces compose_env sample_paint
             [32; 32; 1575; 1576] 0 4 (HB_Script_Other 7) 1 2 1575).
  - reflexivity.
  - lia.
  - intros i Hi. assert (Hcase : i = 0 \/ i = 1) by lia.
    destruct Hcase as [-> | ->]; reflexivity.
  - reflexivity.
  - discriminate.
  - discriminate.
Defined.

Lemma computeRunValues_stores_below_count_witness :
  exists sh' v',
    computeRunValues run_env 2 (mShaper run_cache_abc) sample_paint [100; 101] 2
                     false run_value_abc
      = Some (sh', v')
    /\ length (items (mAdvances v')) = 5%nat
    /\ items (mAdvances v') !! 2%nat = items (mAdvances run_value_abc) !! 2%nat
    /\ items (mAdvances v') !! 3%nat = Some 0.
Proof.
  destruct (computeRunValues_stores_below_count run_env 2 (mShaper run_cache_abc)
              sample_paint [100; 101] 2 false run_value_abc
              (sample_shaper_contract 1000 bidi_two_runs) ltac:(lia)
              (sample_script_run_contract 1000 bidi_two_runs)
              ltac:(solve_range))
    as (sh' & v' & Hrun & Hlen & Hslots).
  exists sh', v'. split; [exact Hrun |].
  split; [rewrite Hlen; vm_compute; reflexivity |].
  split; [rewrite (Hslots 2%nat ltac:(lia)) | rewrite (Hslots 3%nat ltac:(lia))];
    vm_compute; reflexivity.
Defined.




Lemma invalid_visual_run_falls_back_witness :
  exists sh1 sh' v' w',
    computeValues broken_env 2 (TextLayoutShaper_new broken_env) sample_paint
                  [97; 98; 99] 0 3 3 kBidi_LTR (TextLayoutValue_new broken_env 3 0)
      = Some (sh', v')
    /\ computeRunValues broken_env 2 sh1 sample_paint [97; 98; 99] 3 false
                        (clear_outputs broken_env (TextLayoutValue_new broken_env 3 0))
       = Some (sh', w')
    /\ same_items v' w'.
Proof.
  exact (invalid_visual_run_falls_back broken_env 2 (TextLayoutShaper_new broken_env)
           sample_paint [97; 98; 99] 0 3 3 kBidi_LTR
           (TextLayoutValue_new broken_env 3 0) 0 0 2
           (fun i => if i =? 0 then (0, 0, 1) else (0, -1, -1)) 1
           (sample_shaper_contract 1000 bidi_broken) ltac:(lia) ltac:(lia)
           eq_refl eq_refl ltac:(lia) ltac:(lia) eq_refl).
Defined.

Lemma one_glyph_per_character_witness :
  items (mAdvances (snd (script_run_body fallback_env shaper_after_six 0
                           (mkItem 0 6 HB_Script_Common 0) false 0 0
                           (set_advances (TextLayoutValue_new fallback_env 6 0)
                                         (mkVector (replicate 6 0) 6)))))
  !! 2%nat = Some 65536.
Proof.
  destruct (one_glyph_per_character fallback_env shaper_after_six 0
              (mkItem 0 6 HB_Script_Common 0) false 0 0
              (set_advances (TextLayoutValue_new fallback_env 6 0)
                            (mkVector (replicate 6 0) 6))
              eq_refl ltac:(simpl; lia) ltac:(simpl; lia) eq_refl
              ltac:(intros i Hi; cbn in Hi;
                    assert (Hcase : i = 0 \/ i = 1 \/ i = 2 \/ i = 3 \/ i = 4 \/ i = 5)
                      by lia;
                    destruct Hcase as [-> | [-> | [-> | [-> | [-> | ->]]]]];
                    reflexivity)
              ltac:(vm_compute; discriminate) ltac:(solve_range))
    as [Hslots _].
  exact (Hslots 2 ltac:(simpl; lia)).
Defined.

Lemma getValue_keeps_entries_witness :
  exists c' v,
    getValue run_env 2 run_cache_abc sample_paint [100; 101] 0 2 2 kBidi_LTR
      = Returns (c', Some v)
    /\ (mCache c' = mCache run_cache_abc
        \/ exists rest k,
             mCache c' = rest ++ [(k, v)]
             /\ rest `sublist_of` mCache run_cache_abc
             /\ compare k (TextLayoutCacheKey_new sample_paint [100; 101] 0 2 2
                                                  kBidi_LTR) = 0).
Proof.
  exact (getValue_keeps_entries run_env (sample_max_size_range bidi_two_runs)
           2 run_cache_abc sample_paint [100; 101] 0 2 2 kBidi_LTR
           (sample_shaper_contract 1000 bidi_two_runs) ltac:(lia)
           reachable_run_cache_abc valid_de).
Defined.

Lemma failing_env_keeps_failure : normalizer_keeps_failure failing_env.
Proof. intros s e He. cbn. rewrite He. reflexivity. Qed.

Lemma normalize_loop_after_failure_witness :
  error (normalize_loop failing_env 4 [97; 769; 98; 769] 4 3
                        (mkNorm false [] U_ZERO_ERROR)) = 7
  /\ normalize_loop failing_env 2 [97; 769; 98; 769] 4 1 (mkNorm false [] 7)
     = mkNorm false [] 7.
Proof.
  split; [vm_compute; reflexivity |].
  apply (normalize_loop_after_failure failing_env 2 [97; 769; 98; 769] 4 1
           (mkNorm false [] 7) failing_env_keeps_failure eq_refl).
Defined.

Lemma shaping_string_composes_witness :
  shaping_string compose_env [97; 769] 2 false = [225; UNICODE_ZWSP].
Proof.
  rewrite (shaping_string_composes compose_env [97; 769] 2).
  - reflexivity.
  - simpl. lia.
  - reflexivity.
  - intros k Hk. assert (k = 1) as -> by lia. reflexivity.
  - reflexivity.
  - simpl. lia.
Defined.
